(** * Divide-and-conquer algorithms: mergesort, Karatsuba, closest pair, Strassen

    A shallow embedding of the four Python modules [mergesort.py],
    [karatsuba.py], [closestpoints.py] and [strassen.py], with the
    properties their documentation and tests promise.

    Conventions of the embedding.
    - A Python function that recurses takes a [fuel : nat] that bounds the
      depth of the call stack; [OutOfFuel] is the answer of a run that needs
      a deeper stack.  A call that yields [OutOfFuel] for every fuel does not
      terminate.
    - A raised exception is the [Raise] answer; assertions carry their
      message.
    - Python integers are [Z]; numpy [int64] cells are [Z] with the
      wrap-around written out; numpy [float64] cells that hold integers are
      [Z] with the rounding to 53 significant bits written out.
    - [int(n / 2)] on a non-negative [n] is [n / 2] rounded down: the float
      quotient is exact for every [n] below [2^53]. *)

From Stdlib Require Import String.
From Stdlib Require Import List ZArith Lia Bool Arith.
From Stdlib Require Import Permutation Sorted.
From Stdlib Require Floats Uint63 DecimalString.
Import ListNotations.

Set Implicit Arguments.

(** ** Answers of a Python call *)

Inductive exn : Type :=
| AssertionError (msg : string)
| ValueError (msg : string)
| IndexError (msg : string).

Inductive result (A : Type) : Type :=
| Return (a : A)
| Raise (e : exn)
| OutOfFuel.

Arguments Return {A} a.
Arguments Raise {A} e.
Arguments OutOfFuel {A}.

Definition bind {A B : Type} (m : result A) (k : A -> result B) : result B :=
  match m with
  | Return a => k a
  | Raise e => Raise e
  | OutOfFuel => OutOfFuel
  end.

Notation "x <- m ;; k" := (bind m (fun x => k))
  (at level 61, m at next level, right associativity).
Notation "' pat <- m ;; k" := (bind m (fun x => match x with pat => k end))
  (at level 61, pat pattern, m at next level, right associativity).

(** [assert cond, msg] *)
Definition assert (cond : bool) (msg : string) : result unit :=
  if cond then Return tt else Raise (AssertionError msg).

(** Python's slices [l[:i]], [l[i:]] and [l[i:j]] for [0 <= i <= j]. *)
Definition slice_to {A : Type} (i : nat) (l : list A) : list A := firstn i l.
Definition slice_from {A : Type} (i : nat) (l : list A) : list A := skipn i l.
Definition slice {A : Type} (i j : nat) (l : list A) : list A :=
  firstn (j - i) (skipn i l).

(** ** mergesort.py *)

Module Mergesort.

Section Sorting.

Variable A : Type.

(** The comparison [x <= y] of the elements. *)
Variable leb : A -> A -> bool.

(** The [while a and b] loop of [merge] with its accumulator [result],
    followed by the [extend] of whichever list is left. *)
Fixpoint merge_loop (a : list A) : list A -> list A -> list A :=
  fix consume_b (b result : list A) {struct b} : list A :=
    match a, b with
    | x :: a', y :: b' =>
        if leb x y
        then merge_loop a' b (result ++ [x])
        else consume_b b' (result ++ [y])
    | _ :: _, [] => result ++ a
    | [], _ => result ++ b
    end.

Definition merge (a b : list A) : list A := merge_loop a b [].

Fixpoint mergesort (fuel : nat) (l : list A) : result (list A) :=
  match fuel with
  | O => OutOfFuel
  | S fuel' =>
      if length l =? 1 then Return l
      else
        let mid := length l / 2 in
        let a := slice_to mid l in
        let b := slice_from mid l in
        a <- mergesort fuel' a ;;
        b <- mergesort fuel' b ;;
        Return (merge a b)
  end.

(** Non-decreasing order, and the elements whose key equals that of [k]. *)
Definition le (x y : A) : Prop := leb x y = true.
Definition sorted (l : list A) : Prop := Sorted le l.
Definition same_key (k x : A) : bool := leb k x && leb x k.

End Sorting.

End Mergesort.

(** ** karatsuba.py *)

Module Karatsuba.

Local Open Scope Z_scope.

(** [int.bit_length]: the number of bits of the absolute value. *)
Definition bit_length (x : Z) : Z :=
  if x =? 0 then 0 else Z.log2 (Z.abs x) + 1.

(** [n >> l] refuses a negative shift count. *)
Definition _split_int (n l : Z) : result (Z * Z) :=
  if l <? 0 then Raise (ValueError "negative shift count")
  else
    let a := Z.shiftr n l in
    let b := Z.land (2 ^ l - 1) n in
    Return (a, b).

Fixpoint _karatsuba (fuel : nat) (x y : Z) : result Z :=
  match fuel with
  | O => OutOfFuel
  | S fuel' =>
      let x_l := bit_length x in
      let y_l := bit_length y in
      if (x_l =? 0) || (y_l =? 0) then Return 0
      else if x_l =? 1 then Return y
      else if y_l =? 1 then Return x
      else
        let n := Z.max x_l y_l in
        let half_n := n / 2 in
        '(a, b) <- _split_int x half_n ;;
        '(c, d) <- _split_int y half_n ;;
        ac <- _karatsuba fuel' a c ;;
        bd <- _karatsuba fuel' b d ;;
        abcd <- _karatsuba fuel' (a + b) (c + d) ;;
        let zz := abcd - ac - bd in
        Return (Z.shiftl ac (Z.shiftl half_n 1) + Z.shiftl zz half_n + bd)
  end.

(** The operands are Python integers, so [x == int(x)] and [y == int(y)]
    hold; the two sign assertions carry no message. *)
Definition karatsuba (fuel : nat) (x y : Z) : result Z :=
  _ <- assert (x >=? 0) EmptyString ;;
  _ <- assert (y >=? 0) EmptyString ;;
  _karatsuba fuel x y.

(** *** Vocabulary of the further properties *)

(** The products of all operands of at most four bits, at depth 5, checked
    by enumeration. *)
Definition four_bits_checked : bool :=
  forallb
    (fun i =>
       forallb
         (fun j =>
            match _karatsuba 5 (Z.of_nat i) (Z.of_nat j) with
            | Return r => r =? Z.of_nat i * Z.of_nat j
            | _ => false
            end)
         (seq 0 16))
    (seq 0 16).

End Karatsuba.

(** ** closestpoints.py *)

Module ClosestPoints.

Local Open Scope Z_scope.

(** A point is a pair of integer coordinates; [p[0]] and [p[1]]. *)
Definition point : Type := (Z * Z)%type.
Definition px (p : point) : Z := fst p.
Definition py (p : point) : Z := snd p.

(** The squared Euclidean distance. *)
Definition distance (p q : point) : Z :=
  (px p - px q) ^ 2 + (py p - py q) ^ 2.

(** A distance, or [math.inf]. *)
Inductive dist : Type :=
| Finite (d : Z)
| Inf.

(** [a <= b], [d < best_d], and [median - best_d <= x <= median + best_d]
    where [best_d] may be [math.inf]. *)
Definition dist_leb (a b : dist) : bool :=
  match a, b with
  | Finite x, Finite y => x <=? y
  | Finite _, Inf => true
  | Inf, Finite _ => false
  | Inf, Inf => true
  end.

Definition lt_dist (d : Z) (best_d : dist) : bool :=
  match best_d with
  | Finite b => d <? b
  | Inf => true
  end.

Definition within (median : Z) (best_d : dist) (x : Z) : bool :=
  match best_d with
  | Finite b => (median - b <=? x) && (x <=? median + b)
  | Inf => true
  end.

(** [sorted(points, key=key)]: Python's sort is stable, and a list has one
    stable sorted arrangement; insertion from the right computes it. *)
Fixpoint insert_by (key : point -> Z) (p : point) (l : list point) : list point :=
  match l with
  | [] => [p]
  | q :: l' => if key p <=? key q then p :: l else q :: insert_by key p l'
  end.

Fixpoint sorted_by (key : point -> Z) (l : list point) : list point :=
  match l with
  | [] => []
  | p :: l' => insert_by key p (sorted_by key l')
  end.

(** [merge], the copy of mergesort's that compares second coordinates. *)
Fixpoint merge_loop (a : list point) : list point -> list point -> list point :=
  fix consume_b (b result : list point) {struct b} : list point :=
    match a, b with
    | x :: a', y :: b' =>
        if py x <=? py y
        then merge_loop a' b (result ++ [x])
        else consume_b b' (result ++ [y])
    | _ :: _, [] => result ++ a
    | [], _ => result ++ b
    end.

Definition merge (a b : list point) : list point := merge_loop a b [].

(** [best_p] and [best_q] are assigned together everywhere, so the two are
    one optional pair: [None] stands for [(None, None)]. *)
Definition best : Type := (dist * option (point * point))%type.

(** The body of the inner strip loop. *)
Definition update_best (bst : best) (q1 q2 : point) : best :=
  let d := distance q1 q2 in
  if lt_dist d (fst bst)
  then (Finite d, Some (if px q1 <=? px q2 then (q1, q2) else (q2, q1)))
  else bst.

(** [for q2 in window], and [for idx, q1 in enumerate(strip)] with the
    window [strip[idx+1:idx+8]]. *)
Definition scan_window (bst : best) (q1 : point) (window : list point) : best :=
  fold_left (fun b q2 => update_best b q1 q2) window bst.

Definition enumerate (l : list point) : list (nat * point) :=
  combine (seq 0 (length l)) l.

Definition scan_strip (strip : list point) (bst : best) : best :=
  fold_left
    (fun b iq => scan_window b (snd iq) (slice (fst iq + 1) (fst iq + 8) strip))
    (enumerate strip) bst.

(** The distance of an optional pair: [math.inf] for the sentinel. *)
Definition pair_dist (pq : option (point * point)) : dist :=
  match pq with
  | None => Inf
  | Some (p, q) => Finite (distance p q)
  end.

Fixpoint _closest_pair (fuel : nat) (points : list point)
  : result (option (point * point) * list point) :=
  match fuel with
  | O => OutOfFuel
  | S fuel' =>
      match points with
      | [p; q] => Return (Some (p, q), sorted_by py points)
      | [_] => Return (None, points)
      | _ =>
          let midpoint := (length points / 2)%nat in
          let left_points := slice_to midpoint points in
          let right_points := slice_from midpoint points in
          '(pq_left, y_sorted_left) <- _closest_pair fuel' left_points ;;
          '(pq_right, y_sorted_right) <- _closest_pair fuel' right_points ;;
          let d_left := pair_dist pq_left in
          let d_right := pair_dist pq_right in
          let bst :=
            if dist_leb d_left d_right then (d_left, pq_left)
            else (d_right, pq_right) in
          let y_sorted := merge y_sorted_left y_sorted_right in
          match nth_error points midpoint with
          | None => Raise (IndexError "list index out of range")
          | Some m =>
              let median := px m in
              let strip :=
                filter (fun p => within median (fst bst) (px p)) y_sorted in
              Return (snd (scan_strip strip bst), y_sorted)
          end
      end
  end.

(** A list of points holds no [None], so only the length is asserted. *)
Definition closest_pair (fuel : nat) (points : list point)
  : result (option (point * point)) :=
  _ <- assert (2 <=? length points)%nat
         "Finding a closest pair requires 2 or more elements!" ;;
  '(pq, _) <- _closest_pair fuel (sorted_by px points) ;;
  Return pq.

(** The reference of [test_random]: the least distance over all pairs, by
    two nested loops.  (The test sorts the points before its loops; the least
    distance is that of the list in any order.) *)
Definition brute_force (points : list point) : dist :=
  fold_left
    (fun best_d ip =>
       fold_left
         (fun best_d q =>
            if lt_dist (distance (snd ip) q) best_d
            then Finite (distance (snd ip) q) else best_d)
         (slice_from (fst ip + 1) points) best_d)
    (enumerate points) Inf.

(** *** Vocabulary of the properties *)

(** The comparison that [merge] makes. *)
Definition leb_y (p q : point) : bool := py p <=? py q.

(** In non-decreasing order of the first coordinate. *)
Definition x_sorted (l : list point) : Prop :=
  Sorted (fun p q => px p <= px q) l.

(** A pair, if there is one, has its left point first. *)
Definition normalized (pq : option (point * point)) : Prop :=
  match pq with
  | Some (p, q) => px p <= px q
  | None => True
  end.

(** A best pair that is present and has its left point first. *)
Definition settled (bst : best) : Prop :=
  exists p q, snd bst = Some (p, q) /\ px p <= px q.

(** Nine points: the closest two, [(-1, 0)] and [(1, 5)], lie on either side
    of the median, and seven other points of the strip come between them in
    y-order. *)
Definition far_apart_in_strip : list point :=
  [(-60, 2); (-40, 2); (-20, 2); (-1, 0); (1, 5);
   (20, 2); (40, 2); (60, 2); (80, 2)].

(** *** Vocabulary of the further properties *)

(** Two entries of a list, at different positions. *)
Definition two_of (l : list point) (p q : point) : Prop :=
  exists rest, Permutation l (p :: q :: rest).

(** In non-decreasing order of the second coordinate. *)
Definition y_sorted (l : list point) : Prop := Mergesort.sorted leb_y l.

(** A loop over the entries of a list, each with the entries after it. *)
Fixpoint fold_suffix (S : Type) (g : S -> point -> list point -> S)
  (l : list point) (s : S) : S :=
  match l with
  | [] => s
  | q :: rest => fold_suffix g rest (g s q rest)
  end.

(** The pair as the strip loop stores it. *)
Definition ordered (q1 q2 : point) : point * point :=
  if px q1 <=? px q2 then (q1, q2) else (q2, q1).

(** The stored distance is that of the stored pair. *)
Definition coherent (bst : best) : Prop := fst bst = pair_dist (snd bst).

(** [q1] is an entry and [q2] is in the window of the entries after it. *)
Definition visited (win : list point -> list point) (strip : list point)
  (q1 q2 : point) : Prop :=
  exists l1 l2, strip = l1 ++ q1 :: l2 /\ In q2 (win l2).

End ClosestPoints.

(** ** strassen.py *)

Module Strassen.

(** *** numpy arrays *)

(** An operand is a numpy array of [int64] cells: its [shape] and its cells
    in row-major order. *)
Record ndarray : Type := { shape : list nat; buffer : list Z }.

Definition ndim (X : ndarray) : nat := length (shape X).

(** [len(X)] is the first entry of the shape. *)
Definition len (X : ndarray) : nat := hd 0%nat (shape X).

(** A two-dimensional array as the list of its rows. *)
Definition matrix : Type := list (list Z).

Definition rows_of (X : ndarray) : matrix :=
  match shape X with
  | [h; w] => map (fun i => slice (i * w) (i * w + w) (buffer X)) (seq 0 h)
  | _ => []
  end.

Definition cell (X : matrix) (i j : nat) : Z := nth j (nth i X []) 0%Z.

Inductive dtype : Type := int64 | float64.

(** [int64] arithmetic wraps around. *)
Definition wrap64 (z : Z) : Z := ((z + 2 ^ 63) mod 2 ^ 64 - 2 ^ 63)%Z.

(** A [float64] that holds an integer: the integer rounded to 53 significant
    bits, ties to even.  (Overflow to infinity needs a magnitude of [2^1024],
    which sums of wrapped [int64] products reach only beyond any side length
    that fits a machine.) *)
Definition round_f64 (z : Z) : Z :=
  let m := Z.abs z in
  if (m <? 2 ^ 53)%Z then z
  else
    let e := (Z.log2 m - 52)%Z in
    let q := (m / 2 ^ e)%Z in
    let r := (m mod 2 ^ e)%Z in
    let half := (2 ^ (e - 1))%Z in
    let q' :=
      if (r <? half)%Z then q
      else if (half <? r)%Z then (q + 1)%Z
      else if Z.even q then q else (q + 1)%Z in
    (Z.sgn z * (q' * 2 ^ e))%Z.

(** The result of an arithmetic operation in a given type, and the
    conversion of a cell from one type to another. *)
Definition arith (dt : dtype) (z : Z) : Z :=
  match dt with
  | int64 => wrap64 z
  | float64 => round_f64 z
  end.

Definition astype (to from : dtype) (z : Z) : Z :=
  match from, to with
  | int64, float64 => round_f64 z
  | _, _ => z
  end.

Definition promote (s t : dtype) : dtype :=
  match s, t with
  | int64, int64 => int64
  | _, _ => float64
  end.

(** An array that [_strassen] returns, with its type. *)
Record array : Type := { dtype_of : dtype; cells : matrix }.

(** Cell-by-cell operations.  numpy applies them to arrays of one shape; it
    broadcasts or refuses other pairs, which no call made by [strassen]
    produces: all its operands are square with one power-of-two side. *)
Fixpoint zip_with {A B C : Type} (f : A -> B -> C) (l1 : list A) (l2 : list B)
  : list C :=
  match l1, l2 with
  | x :: l1', y :: l2' => f x y :: zip_with f l1' l2'
  | _, _ => []
  end.

Definition add64 (X Y : matrix) : matrix :=
  zip_with (zip_with (fun x y => wrap64 (x + y))) X Y.

Definition sub64 (X Y : matrix) : matrix :=
  zip_with (zip_with (fun x y => wrap64 (x - y))) X Y.

Definition arr_op (op : Z -> Z -> Z) (X Y : array) : array :=
  let dt := promote (dtype_of X) (dtype_of Y) in
  {| dtype_of := dt;
     cells :=
       zip_with
         (zip_with
            (fun x y =>
               arith dt (op (astype dt (dtype_of X) x) (astype dt (dtype_of Y) y))))
         (cells X) (cells Y) |}.

Definition arr_add : array -> array -> array := arr_op Z.add.
Definition arr_sub : array -> array -> array := arr_op Z.sub.

Declare Scope array_scope.
Delimit Scope array_scope with arr.
Infix "+" := arr_add : array_scope.
Infix "-" := arr_sub : array_scope.

(** [np.full((n, n), value)] with an integer value and [np.zeros((n, n))]
    hold the same cells; the first is [int64], the second [float64]. *)
Definition full (n : nat) (value : Z) : matrix := repeat (repeat value n) n.
Definition zeros (n : nat) : matrix := full n 0%Z.

(** [row[c0:c0+len(v)] = v] and [X[r0:r0+len(V), c0:c0+width(V)] = V]: the
    assignment to a slice of the shape of the value, which is the case of
    every assignment that [strassen] makes. *)
Definition set_slice (c0 : nat) (v row : list Z) : list Z :=
  firstn c0 row ++ v ++ skipn (c0 + length v) row.

Definition set_block (r0 c0 : nat) (V X : matrix) : matrix :=
  firstn r0 X
  ++ zip_with (set_slice c0) V (slice r0 (r0 + length V) X)
  ++ skipn (r0 + length V) X.

(** Storing an array into a block of a [float64] array converts its cells. *)
Definition store (r0 c0 : nat) (V : array) (X : matrix) : matrix :=
  set_block r0 c0 (map (map (astype float64 (dtype_of V))) (cells V)) X.

(** *** The functions of the module *)

Definition _assert_is_square_matrix (X : ndarray) : result unit :=
  _ <- assert (ndim X =? 2) "Inputs must be matrices" ;;
  match shape X with
  | [height; width] => assert (height =? width) "Inputs must be square"
  | _ => Raise (ValueError "not enough values to unpack")
  end.

(** [2 ** math.ceil(math.log2(n))]; [math.log2(0)] is a domain error.  The
    float logarithm is exact at the powers of two, and up to [2^48] that of
    any other [n] lies above the exponent of the power of two below [n] by
    more than a unit in the last place, so the exponent is the integer
    [Nat.log2_up n].  (From [2^49 + 1] on the float logarithm can round down
    to that exponent; no array has such a side.) *)
Definition _next_power_of_two (n : nat) : result nat :=
  if n =? 0 then Raise (ValueError "math domain error")
  else Return (2 ^ Nat.log2_up n).

(** The message of an assignment that numpy cannot broadcast, with the two
    shapes as numpy prints them. *)
Definition shape_string (h w : nat) : string :=
  ("("
   ++ DecimalString.NilEmpty.string_of_uint (Nat.to_uint h) ++ ","
   ++ DecimalString.NilEmpty.string_of_uint (Nat.to_uint w) ++ ")")%string.

Definition could_not_broadcast (n side : nat) : string :=
  ("could not broadcast input array from shape " ++ shape_string n n
   ++ " into shape " ++ shape_string side side)%string.

(** [value] is left at its default [0], so the padded array is [int64].
    When [side_length] is below the side of [X] the slice
    [result[:X.shape[0], :X.shape[1]]] is all of [result], and [X] is
    assigned to it by broadcasting: numpy refuses that, except for a 1 x 1
    array [X], which it broadcasts into the empty slice, assigning nothing. *)
Definition _pad (X : ndarray) (side_length : nat) : result matrix :=
  _ <- _assert_is_square_matrix X ;;
  let result := full side_length 0%Z in
  if side_length <? len X
  then
    if len X =? 1 then Return result
    else Raise (ValueError (could_not_broadcast (len X) side_length))
  else Return (set_block 0 0 (rows_of X) result).

Definition _quadrants (X : matrix) : matrix * matrix * matrix * matrix :=
  let k := length X / 2 in
  (map (slice_to k) (slice_to k X), map (slice_from k) (slice_to k X),
   map (slice_to k) (slice_from k X), map (slice_from k) (slice_from k X)).

Fixpoint _strassen (fuel : nat) (A B : matrix) : result array :=
  match fuel with
  | O => OutOfFuel
  | S fuel' =>
      let n := length A in
      if n =? 1
      then Return {| dtype_of := int64;
                     cells := [[wrap64 (cell A 0 0 * cell B 0 0)]] |}
      else
        let '(a, b, c, d) := _quadrants A in
        let '(e, f, g, h) := _quadrants B in
        p1 <- _strassen fuel' a (sub64 f h) ;;
        p2 <- _strassen fuel' (add64 a b) h ;;
        p3 <- _strassen fuel' (add64 c d) e ;;
        p4 <- _strassen fuel' d (sub64 g e) ;;
        p5 <- _strassen fuel' (add64 a d) (add64 e h) ;;
        p6 <- _strassen fuel' (sub64 b d) (add64 g h) ;;
        p7 <- _strassen fuel' (sub64 a c) (add64 e f) ;;
        let k := n / 2 in
        let result := zeros n in
        let result := store 0 0 (p5 + p4 - p2 + p6)%arr result in
        let result := store 0 k (p1 + p2)%arr result in
        let result := store k 0 (p3 + p4)%arr result in
        let result := store k k (p1 + p5 - p3 - p7)%arr result in
        Return {| dtype_of := float64; cells := result |}
  end.

Definition strassen (fuel : nat) (A B : ndarray) : result array :=
  _ <- _assert_is_square_matrix A ;;
  _ <- _assert_is_square_matrix B ;;
  _ <- assert (len A =? len B) "Inputs must be of the same dimension" ;;
  let n_orig := len A in
  n_new <- _next_power_of_two n_orig ;;
  A <- _pad A n_new ;;
  B <- _pad B n_new ;;
  C <- _strassen fuel A B ;;
  Return {| dtype_of := dtype_of C;
            cells := map (slice_to n_orig) (slice_to n_orig (cells C)) |}.

(** *** The reference: the product by three nested loops, in exact integers *)

Fixpoint sum_upto (n : nat) (f : nat -> Z) : Z :=
  match n with
  | O => 0%Z
  | S m => (sum_upto m f + f m)%Z
  end.

Definition naive_product (n : nat) (A B : matrix) : matrix :=
  map (fun i =>
         map (fun j => sum_upto n (fun k => (cell A i k * cell B k j)%Z))
             (seq 0 n))
      (seq 0 n).

(** A two-dimensional array of the given shape, from its rows. *)
Definition of_rows (h w : nat) (rows : matrix) : ndarray :=
  {| shape := [h; w]; buffer := concat rows |}.

(** *** Vocabulary of the properties *)

(** What [strassen] asserts of its operands, and the messages of its three
    assertions. *)
Definition two_dimensional (X : ndarray) : Prop := ndim X = 2.

Definition square (X : ndarray) : Prop :=
  match shape X with
  | [height; width] => height = width
  | _ => False
  end.

Definition valid_operands (A B : ndarray) : Prop :=
  two_dimensional A /\ square A /\ two_dimensional B /\ square B /\ len A = len B.

Definition assertion_messages : list string :=
  ["Inputs must be matrices"; "Inputs must be square";
   "Inputs must be of the same dimension"]%string.

(** [r] rows of [c] cells each. *)
Definition is_matrix (r c : nat) (X : matrix) : Prop :=
  length X = r /\ forall i, i < r -> length (nth i X []) = c.

(** [X] is a square matrix of side [n] whose cell [(i, j)] is [f i j]. *)
Definition denotes (n : nat) (X : matrix) (f : nat -> nat -> Z) : Prop :=
  is_matrix n n X /\ forall i j, i < n -> j < n -> cell X i j = f i j.

(** The cells of the block assignment [X[r0:r0+m, c0:c0+m] = V]. *)
Definition in_block (r0 c0 m i j : nat) : bool :=
  (r0 <=? i) && (i <? r0 + m) && ((c0 <=? j) && (j <? c0 + m)).

(** An integer that [int64] and [float64] both hold exactly. *)
Definition small (z : Z) : Prop := (Z.abs z < 2 ^ 53)%Z.

(** The product of two matrices given by their cells. *)
Definition mmul (n : nat) (fa fb : nat -> nat -> Z) (i j : nat) : Z :=
  sum_upto n (fun t => (fa i t * fb t j)%Z).

Definition bounded (n : nat) (M : Z) (f : nat -> nat -> Z) : Prop :=
  forall i j, i < n -> j < n -> (Z.abs (f i j) <= M)%Z.

(** A matrix with known cells, all within a bound. *)
Definition holds (n : nat) (M : Z) (X : matrix) (f : nat -> nat -> Z) : Prop :=
  denotes n X f /\ bounded n M f.

(** A 2 x 2 operand whose square has a cell of 55 bits; the empty 0 x 0
    matrix; the operands of [test_2x2_arbitrary]; a 2 x 3 array; two operands
    of side 3, which is padded to 4. *)
Definition wide_cell : ndarray := of_rows 2 2 [[134217729; 0]; [0; 0]]%Z.
Definition empty_matrix : ndarray := of_rows 0 0 [].
Definition test_2x2_A : ndarray := of_rows 2 2 [[7; 11]; [14; 2]]%Z.
Definition test_2x2_B : ndarray := of_rows 2 2 [[12; 2]; [19; 2]]%Z.
Definition two_by_three : ndarray := of_rows 2 3 [[1; 2; 3]; [4; 5; 6]]%Z.
Definition side_three_A : ndarray :=
  of_rows 3 3 [[1; 2; 3]; [4; 5; 6]; [7; 8; 9]]%Z.
Definition side_three_B : ndarray :=
  of_rows 3 3 [[1; 0; 2]; [0; 1; 3]; [5; 5; 5]]%Z.

End Strassen.

(** ** Tactics *)

(** Case analysis on the index tests [<=?] and [<?] of a goal. *)
Ltac decide_tests :=
  repeat match goal with
         | |- context [Nat.leb ?x ?y] => destruct (Nat.leb_spec x y); try lia
         | |- context [Nat.ltb ?x ?y] => destruct (Nat.ltb_spec x y); try lia
         end;
  cbn [andb].

(** * Properties *)

(** ** Facts shared by the four modules *)

Lemma Zleb_total (x y : Z) : (x <=? y)%Z = true \/ (y <=? x)%Z = true.
Proof. destruct (Z.leb_spec x y); [left; reflexivity | right; apply Z.leb_le; lia]. Qed.

Lemma Zleb_trans (x y z : Z) :
  (x <=? y)%Z = true -> (y <=? z)%Z = true -> (x <=? z)%Z = true.
Proof. rewrite !Z.leb_le. lia. Qed.

Lemma half_bounds (n : nat) : 2 <= n -> 1 <= n / 2 /\ n / 2 < n /\ n / 2 <= n - n / 2.
Proof.
  intros Hn.
  pose proof (Nat.div_mod_eq n 2) as E.
  pose proof (Nat.mod_upper_bound n 2 ltac:(lia)) as U.
  lia.
Qed.

(** ** mergesort.py *)

Module MergesortProofs.

Import Mergesort.

Section Merge.

Variable A : Type.
Variable leb : A -> A -> bool.

Local Abbreviation merge := (merge leb).
Local Abbreviation merge_loop := (merge_loop leb).
Local Abbreviation mergesort := (mergesort leb).
Local Abbreviation sorted := (sorted leb).
Local Abbreviation le := (le leb).

(** *** The loop and its accumulator *)

Lemma merge_loop_acc (a b result : list A) :
  merge_loop a b result = result ++ merge a b.
Proof.
  unfold Mergesort.merge.
  revert b result.
  induction a as [|x a' IHa]; intros b result.
  - destruct b; simpl; reflexivity.
  - induction b as [|y b' IHb] in result |- *.
    + simpl. reflexivity.
    + simpl. destruct (leb x y).
      * rewrite (IHa (y :: b') (result ++ [x])), (IHa (y :: b') [x]).
        rewrite <- app_assoc. reflexivity.
      * change (merge_loop (x :: a') b' (result ++ [y])
                = result ++ merge_loop (x :: a') b' [y]).
        rewrite (IHb (result ++ [y])), (IHb [y]).
        rewrite <- app_assoc. reflexivity.
Qed.

Lemma merge_nil_l (b : list A) : merge [] b = b.
Proof. destruct b; reflexivity. Qed.

Lemma merge_nil_r (a : list A) : merge a [] = a.
Proof. destruct a; reflexivity. Qed.

Lemma merge_cons (x y : A) (a b : list A) :
  merge (x :: a) (y :: b) =
  if leb x y then x :: merge a (y :: b) else y :: merge (x :: a) b.
Proof.
  unfold Mergesort.merge at 1. simpl.
  destruct (leb x y).
  - apply (merge_loop_acc a (y :: b) [x]).
  - apply (merge_loop_acc (x :: a) b [y]).
Qed.

(** Induction along the two cursors of the loop. *)
Lemma merge_ind (P : list A -> list A -> Prop) :
  (forall b, P [] b) ->
  (forall a, P a []) ->
  (forall x a y b, leb x y = true -> P a (y :: b) -> P (x :: a) (y :: b)) ->
  (forall x a y b, leb x y = false -> P (x :: a) b -> P (x :: a) (y :: b)) ->
  forall a b, P a b.
Proof.
  intros Hl Hr Htake_a Htake_b.
  induction a as [|x a IHa]; [exact Hl|].
  induction b as [|y b IHb]; [apply Hr|].
  destruct (leb x y) eqn:E; [apply Htake_a | apply Htake_b]; auto.
Qed.

(** *** The merged list holds exactly the elements of both *)

Lemma merge_permutation (a b : list A) : Permutation (a ++ b) (merge a b).
Proof.
  revert a b. apply merge_ind.
  - intros b. rewrite merge_nil_l. reflexivity.
  - intros a. rewrite merge_nil_r, app_nil_r. reflexivity.
  - intros x a y b E IH. rewrite merge_cons, E. simpl. constructor. exact IH.
  - intros x a y b E IH. rewrite merge_cons, E.
    rewrite <- IH. symmetry. apply (Permutation_middle (x :: a) b y).
Qed.

Lemma merge_length (a b : list A) : length (merge a b) = length a + length b.
Proof.
  rewrite <- (Permutation_length (merge_permutation a b)). apply length_app.
Qed.

(** *** Termination of [mergesort] on a non-empty list *)

Lemma mergesort_S (fuel : nat) (l : list A) :
  mergesort (S fuel) l =
  if length l =? 1 then Return l
  else
    a <- mergesort fuel (slice_to (length l / 2) l) ;;
    b <- mergesort fuel (slice_from (length l / 2) l) ;;
    Return (merge a b).
Proof. reflexivity. Qed.

Lemma mergesort_fuel_needed (l : list A) (fuel : nat) :
  l <> [] -> length l <= fuel ->
  exists r, mergesort fuel l = Return r /\ Permutation l r.
Proof.
  revert l. induction fuel as [|fuel IH]; intros l Hne Hlen.
  - destruct l; [congruence | simpl in Hlen; lia].
  - rewrite mergesort_S. destruct (Nat.eqb_spec (length l) 1) as [E1|E1].
    + exists l. split; reflexivity.
    + assert (Hge : 2 <= length l).
      { destruct l as [|? [|? ?]]; simpl in *; try congruence; lia. }
      destruct (half_bounds Hge) as (H1 & H2 & _).
      unfold slice_to, slice_from.
      set (mid := length l / 2) in *.
      destruct (IH (firstn mid l)) as (ra & Ea & Pa).
      { intros E. apply (f_equal (@length A)) in E.
        rewrite length_firstn in E. simpl in E. lia. }
      { rewrite length_firstn. lia. }
      destruct (IH (skipn mid l)) as (rb & Eb & Pb).
      { intros E. apply (f_equal (@length A)) in E.
        rewrite length_skipn in E. simpl in E. lia. }
      { rewrite length_skipn. lia. }
      rewrite Ea, Eb. simpl.
      exists (merge ra rb). split; [reflexivity|].
      rewrite <- merge_permutation, <- Pa, <- Pb, firstn_skipn. reflexivity.
Qed.

Lemma mergesort_nil (fuel : nat) : mergesort fuel [] = OutOfFuel.
Proof.
  induction fuel as [|fuel IH]; [reflexivity|].
  rewrite mergesort_S. unfold slice_to. simpl. rewrite IH. reflexivity.
Qed.

(** C9: [mergesort] on the empty list never returns.  The empty list fails
    the test [len(l) == 1], both halves [l[:0]] and [l[0:]] are empty again,
    and the recursive call receives the same empty argument: no depth of
    recursion suffices.  A list returns a result (given enough depth) exactly
    when it has at least one element. *)
Theorem mergesort_empty_diverges :
  (forall fuel, mergesort fuel [] = OutOfFuel)
  /\ slice_to (length (@nil A) / 2) (@nil A) = []
  /\ slice_from (length (@nil A) / 2) (@nil A) = []
  /\ (forall l, (exists fuel r, mergesort fuel l = Return r) <-> l <> []).
Proof.
  split; [exact mergesort_nil|].
  split; [reflexivity|]. split; [reflexivity|].
  intros l. split.
  - intros (fuel & r & E) ->. rewrite mergesort_nil in E. discriminate.
  - intros Hne. exists (length l).
    destruct (@mergesort_fuel_needed l (length l) Hne (Nat.le_refl _)) as (r & E & _).
    exists r. exact E.
Qed.

End Merge.

Section Order.

Variable A : Type.
Variable leb : A -> A -> bool.

Local Abbreviation merge := (merge leb).
Local Abbreviation mergesort := (mergesort leb).
Local Abbreviation sorted := (sorted leb).
Local Abbreviation le := (le leb).
Local Abbreviation same_key := (same_key leb).

(** The comparison is a total order on the elements being sorted. *)
Hypothesis leb_total : forall x y, leb x y = true \/ leb y x = true.

Lemma leb_false_flip (x y : A) : leb x y = false -> leb y x = true.
Proof. intros E. destruct (leb_total x y); congruence. Qed.

(** *** Merging sorted lists gives a sorted list *)

Lemma merge_HdRel (z : A) (a b : list A) :
  HdRel le z a -> HdRel le z b -> HdRel le z (merge a b).
Proof.
  intros Ha Hb.
  destruct a as [|x a]; [rewrite merge_nil_l; exact Hb|].
  destruct b as [|y b]; [rewrite merge_nil_r; exact Ha|].
  rewrite merge_cons. inversion Ha; inversion Hb; subst.
  destruct (leb x y); constructor; assumption.
Qed.

Lemma merge_sorted (a b : list A) : sorted a -> sorted b -> sorted (merge a b).
Proof.
  revert a b.
  apply (merge_ind leb (fun a b => sorted a -> sorted b -> sorted (merge a b))).
  - intros b _ Hb. rewrite merge_nil_l. exact Hb.
  - intros a Ha _. rewrite merge_nil_r. exact Ha.
  - intros x a y b E IH Ha Hb. rewrite merge_cons, E.
    inversion Ha; subst.
    constructor; [apply IH; assumption|].
    apply merge_HdRel; [assumption | constructor; exact E].
  - intros x a y b E IH Ha Hb. rewrite merge_cons, E.
    inversion Hb; subst.
    constructor; [apply IH; assumption|].
    apply merge_HdRel; [constructor; apply leb_false_flip; exact E | assumption].
Qed.

(** C5: merging two sorted lists gives a sorted list that holds exactly the
    elements of both (as multisets); merging with the empty list on either
    side gives the other list back. *)
Theorem merge_sorted_union (a b : list A) :
  sorted a -> sorted b ->
  sorted (merge a b)
  /\ Permutation (a ++ b) (merge a b)
  /\ merge a [] = a
  /\ merge [] b = b.
Proof.
  intros Ha Hb.
  split; [apply merge_sorted; assumption|].
  split; [apply merge_permutation|].
  split; [apply merge_nil_r | apply merge_nil_l].
Qed.

(** *** [mergesort] sorts *)

Lemma mergesort_sorted (fuel : nat) (l r : list A) :
  mergesort fuel l = Return r -> sorted r.
Proof.
  revert l r. induction fuel as [|fuel IH]; intros l r; [discriminate|].
  rewrite mergesort_S. destruct (Nat.eqb_spec (length l) 1) as [E1|E1].
  - intros [= <-]. destruct l as [|x [|? ?]]; try discriminate.
    repeat constructor.
  - destruct (Mergesort.mergesort leb fuel (slice_to (length l / 2) l)) as [ra| |] eqn:Ea;
      try discriminate.
    destruct (Mergesort.mergesort leb fuel (slice_from (length l / 2) l)) as [rb| |] eqn:Eb;
      try discriminate.
    simpl. intros [= <-].
    apply merge_sorted; [apply (IH _ _ Ea) | apply (IH _ _ Eb)].
Qed.

(** C4: on a list of at least one element, [mergesort] returns (a recursion
    depth of the list's length is enough), and what it returns is a
    permutation of the input in non-decreasing order. *)
Theorem mergesort_sorted_permutation (l : list A) (fuel : nat) :
  l <> [] -> length l <= fuel ->
  exists r, mergesort fuel l = Return r /\ Permutation l r /\ sorted r.
Proof.
  intros Hne Hlen.
  destruct (mergesort_fuel_needed leb Hne Hlen) as (r & E & P).
  exists r. split; [exact E|]. split; [exact P|].
  apply (mergesort_sorted _ _ E).
Qed.

(** *** Stability of [merge] *)

Hypothesis leb_trans :
  forall x y z, leb x y = true -> leb y z = true -> leb x z = true.

Lemma sorted_head_least (x : A) (a : list A) :
  sorted (x :: a) -> Forall (le x) a.
Proof.
  intros H. apply Sorted_StronglySorted in H.
  - inversion H; assumption.
  - intros u v w. apply leb_trans.
Qed.

Lemma filter_none (f : A -> bool) (l : list A) :
  Forall (fun z => f z = false) l -> filter f l = [].
Proof.
  induction 1 as [|z l Hz _ IH]; simpl; [reflexivity|].
  rewrite Hz. exact IH.
Qed.

Lemma filter_cons (f : A -> bool) (y : A) (l : list A) :
  filter f (y :: l) = if f y then y :: filter f l else filter f l.
Proof. reflexivity. Qed.

(** When [y] is taken from the right list ahead of [x], nothing left in the
    left list has the key of [y]. *)
Lemma no_equal_key_left (k x y : A) (a : list A) :
  sorted (x :: a) -> leb x y = false -> same_key k y = true ->
  filter (same_key k) (x :: a) = [].
Proof.
  intros Hs Exy Hk. apply filter_none.
  apply andb_prop in Hk. destruct Hk as [Hky Hyk].
  assert (Hx : forall z, le x z -> same_key k z = false).
  { intros z Hxz. unfold Mergesort.same_key.
    destruct (leb k z) eqn:Ekz; [|reflexivity].
    destruct (leb z k) eqn:Ezk; [|reflexivity].
    rewrite (leb_trans Hxz (leb_trans Ezk Hky)) in Exy. discriminate. }
  constructor.
  - apply Hx. destruct (leb_total x x); assumption.
  - apply Forall_impl with (P := le x); [exact Hx|].
    apply sorted_head_least. exact Hs.
Qed.

Lemma merge_keeps_left_first (k : A) (a b : list A) :
  sorted a ->
  filter (same_key k) (merge a b)
  = filter (same_key k) a ++ filter (same_key k) b.
Proof.
  revert a b.
  apply (merge_ind leb
           (fun a b => sorted a ->
                       filter (same_key k) (merge a b)
                       = filter (same_key k) a ++ filter (same_key k) b)).
  - intros b _. rewrite merge_nil_l. reflexivity.
  - intros a _. rewrite merge_nil_r, app_nil_r. reflexivity.
  - intros x a y b E IH Ha. rewrite merge_cons, E.
    inversion Ha; subst. cbn [filter].
    rewrite IH by assumption.
    destruct (same_key k x); reflexivity.
  - intros x a y b E IH Ha. rewrite merge_cons, E.
    rewrite (filter_cons (same_key k) y (merge (x :: a) b)).
    rewrite (filter_cons (same_key k) y b).
    rewrite IH by assumption.
    destruct (same_key k y) eqn:K; [|reflexivity].
    rewrite (@no_equal_key_left k x y a Ha E K). reflexivity.
Qed.

End Order.

End MergesortProofs.

(** ** karatsuba.py *)

Module KaratsubaProofs.

Import Karatsuba.

Local Open Scope Z_scope.

(** *** Bit lengths *)

Lemma bit_length_zero (x : Z) : bit_length x = 0 <-> x = 0.
Proof.
  unfold bit_length. destruct (Z.eqb_spec x 0) as [E|E].
  - tauto.
  - pose proof (Z.log2_nonneg (Z.abs x)). split; intros; [lia | contradiction].
Qed.

Lemma bit_length_one (x : Z) : 0 <= x -> bit_length x = 1 -> x = 1.
Proof.
  unfold bit_length. intros Hx.
  destruct (Z.eqb_spec x 0) as [E|E]; [discriminate|].
  intros H. assert (L : Z.log2 (Z.abs x) = 0) by lia.
  apply Z.log2_null in L. lia.
Qed.

Lemma bit_length_bounds (x : Z) :
  0 < x -> 2 ^ (bit_length x - 1) <= x < 2 ^ bit_length x.
Proof.
  intros Hx. unfold bit_length.
  destruct (Z.eqb_spec x 0) as [E|E]; [lia|].
  rewrite Z.abs_eq by lia.
  replace (Z.log2 x + 1 - 1) with (Z.log2 x) by lia.
  replace (Z.log2 x + 1) with (Z.succ (Z.log2 x)) by lia.
  apply Z.log2_spec. exact Hx.
Qed.

Lemma bit_length_nonneg (x : Z) : 0 <= bit_length x.
Proof.
  unfold bit_length. destruct (x =? 0); [lia|].
  pose proof (Z.log2_nonneg (Z.abs x)). lia.
Qed.

(** *** Splitting at a bit position *)

Lemma split_int_spec (n l : Z) :
  0 <= n -> 0 <= l ->
  _split_int n l = Return (n / 2 ^ l, n mod 2 ^ l).
Proof.
  intros Hn Hl. unfold _split_int.
  destruct (Z.ltb_spec l 0) as [Hneg|_]; [lia|].
  rewrite Z.shiftr_div_pow2 by exact Hl.
  replace (2 ^ l - 1) with (Z.ones l) by (rewrite Z.ones_equiv; lia).
  rewrite Z.land_comm, Z.land_ones by exact Hl.
  reflexivity.
Qed.

Lemma recombine (a b c d h : Z) :
  0 <= h ->
  Z.shiftl (a * c) (Z.shiftl h 1)
  + Z.shiftl ((a + b) * (c + d) - a * c - b * d) h + b * d
  = (a * 2 ^ h + b) * (c * 2 ^ h + d).
Proof.
  intros Hh.
  rewrite (Z.shiftl_mul_pow2 h 1) by lia.
  rewrite !Z.shiftl_mul_pow2 by lia.
  replace (h * 2 ^ 1) with (h + h) by lia.
  rewrite Z.pow_add_r by lia.
  ring.
Qed.

(** C10: for non-negative [n] and [l], [_split_int(n, l)] returns a pair
    [(a, b)] with [n = a * 2^l + b] and [0 <= b < 2^l]; and with both
    operands split in this way at [h], the recombination of the three
    products is the product of the operands. *)
Theorem split_int_reconstructs :
  (forall n l, 0 <= n -> 0 <= l ->
     exists a b, _split_int n l = Return (a, b)
                 /\ n = a * 2 ^ l + b /\ 0 <= b < 2 ^ l)
  /\ (forall a b c d h, 0 <= h ->
        Z.shiftl (a * c) (Z.shiftl h 1)
        + Z.shiftl ((a + b) * (c + d) - a * c - b * d) h + b * d
        = (a * 2 ^ h + b) * (c * 2 ^ h + d)).
Proof.
  split; [|exact recombine].
  intros n l Hn Hl.
  exists (n / 2 ^ l), (n mod 2 ^ l).
  assert (Hp : 0 < 2 ^ l) by (apply Z.pow_pos_nonneg; lia).
  split; [apply split_int_spec; assumption|].
  split.
  - rewrite (Z.mul_comm (n / 2 ^ l)). apply Z.div_mod. lia.
  - apply Z.mod_pos_bound. exact Hp.
Qed.

(** *** The recursion *)

Lemma _karatsuba_S (fuel : nat) (x y : Z) :
  _karatsuba (S fuel) x y =
  if (bit_length x =? 0) || (bit_length y =? 0) then Return 0
  else if bit_length x =? 1 then Return y
  else if bit_length y =? 1 then Return x
  else
    let half_n := Z.max (bit_length x) (bit_length y) / 2 in
    '(a, b) <- _split_int x half_n ;;
    '(c, d) <- _split_int y half_n ;;
    ac <- _karatsuba fuel a c ;;
    bd <- _karatsuba fuel b d ;;
    abcd <- _karatsuba fuel (a + b) (c + d) ;;
    Return (Z.shiftl ac (Z.shiftl half_n 1)
            + Z.shiftl (abcd - ac - bd) half_n + bd).
Proof. reflexivity. Qed.

(** The high part of the longer operand is not zero. *)
Lemma high_part_positive (x h : Z) :
  0 < x -> 0 <= h -> h < bit_length x -> 1 <= x / 2 ^ h.
Proof.
  intros Hx Hh Hlt.
  destruct (bit_length_bounds Hx) as [Hlow _].
  assert (Hp : 0 < 2 ^ h) by (apply Z.pow_pos_nonneg; lia).
  assert (Hle : 2 ^ h <= x).
  { apply Z.le_trans with (2 ^ (bit_length x - 1)); [|exact Hlow].
    apply Z.pow_le_mono_r; lia. }
  apply Z.div_le_lower_bound; lia.
Qed.

Lemma parts_shrink (x h : Z) :
  0 <= x -> 1 <= h ->
  0 <= x / 2 ^ h /\ 0 <= x mod 2 ^ h
  /\ x / 2 ^ h + x mod 2 ^ h + x / 2 ^ h <= x.
Proof.
  intros Hx Hh.
  assert (Hp : 2 <= 2 ^ h).
  { change 2 with (2 ^ 1) at 1. apply Z.pow_le_mono_r; lia. }
  pose proof (Z.div_mod x (2 ^ h) ltac:(lia)) as E.
  pose proof (Z.mod_pos_bound x (2 ^ h) ltac:(lia)) as B.
  pose proof (Z.div_pos x (2 ^ h) Hx ltac:(lia)) as D.
  nia.
Qed.

Lemma _karatsuba_correct (fuel : nat) (x y : Z) :
  0 <= x -> 0 <= y -> x + y < Z.of_nat fuel ->
  _karatsuba fuel x y = Return (x * y).
Proof.
  revert x y. induction fuel as [|fuel IH]; intros x y Hx Hy Hfuel; [lia|].
  rewrite _karatsuba_S.
  destruct (Z.eqb_spec (bit_length x) 0) as [X0|X0].
  { apply (proj1 (bit_length_zero x)) in X0. subst x. reflexivity. }
  destruct (Z.eqb_spec (bit_length y) 0) as [Y0|Y0].
  { apply (proj1 (bit_length_zero y)) in Y0. subst y. simpl. f_equal. lia. }
  simpl orb. cbv iota.
  destruct (Z.eqb_spec (bit_length x) 1) as [X1|X1].
  { apply bit_length_one in X1; [|exact Hx]. subst x. f_equal. lia. }
  destruct (Z.eqb_spec (bit_length y) 1) as [Y1|Y1].
  { apply bit_length_one in Y1; [|exact Hy]. subst y. f_equal. lia. }
  pose proof (bit_length_nonneg x) as Lx.
  pose proof (bit_length_nonneg y) as Ly.
  assert (Hxpos : 0 < x).
  { destruct (Z.eq_dec x 0) as [E|E]; [|lia].
    apply (proj2 (bit_length_zero x)) in E. contradiction. }
  assert (Hypos : 0 < y).
  { destruct (Z.eq_dec y 0) as [E|E]; [|lia].
    apply (proj2 (bit_length_zero y)) in E. contradiction. }
  cbv zeta.
  set (n := Z.max (bit_length x) (bit_length y)).
  set (h := n / 2).
  assert (Hn : 2 <= n) by (unfold n; lia).
  assert (Hh : 1 <= h /\ h < n).
  { unfold h. split.
    - apply Z.div_le_lower_bound; lia.
    - apply Z.div_lt; lia. }
  rewrite (split_int_spec Hx) by lia.
  rewrite (split_int_spec Hy) by lia.
  cbn [bind].
  set (a := x / 2 ^ h). set (b := x mod 2 ^ h).
  set (c := y / 2 ^ h). set (d := y mod 2 ^ h).
  destruct (parts_shrink Hx (proj1 Hh)) as (Ha & Hb & Sx).
  destruct (parts_shrink Hy (proj1 Hh)) as (Hc & Hd & Sy).
  fold a b in Ha, Hb, Sx. fold c d in Hc, Hd, Sy.
  assert (Hhigh : 1 <= a + c).
  { destruct (Z.max_spec (bit_length x) (bit_length y)) as [[_ E]|[_ E]];
      fold n in E.
    - pose proof (@high_part_positive y h Hypos ltac:(lia) ltac:(lia)).
      fold c in H. lia.
    - pose proof (@high_part_positive x h Hxpos ltac:(lia) ltac:(lia)).
      fold a in H. lia. }
  rewrite (IH a c) by lia.
  rewrite (IH b d) by lia.
  rewrite (IH (a + b) (c + d)) by lia.
  cbn [bind]. f_equal.
  rewrite recombine by lia.
  assert (Hp : 0 < 2 ^ h) by (apply Z.pow_pos_nonneg; lia).
  assert (Ex : a * 2 ^ h + b = x).
  { unfold a, b. rewrite Z.mul_comm. symmetry. apply Z.div_mod. lia. }
  assert (Ey : c * 2 ^ h + d = y).
  { unfold c, d. rewrite Z.mul_comm. symmetry. apply Z.div_mod. lia. }
  rewrite Ex, Ey. reflexivity.
Qed.

(** C3: for non-negative [x] and [y], [karatsuba(x, y)] returns [x * y]
    (a recursion depth above [x + y] is enough); in particular
    [karatsuba(x, 0)] is [0] and [karatsuba(x, 1)] is [x]. *)
Theorem karatsuba_is_product (fuel : nat) (x y : Z) :
  0 <= x -> 0 <= y -> x + y < Z.of_nat fuel ->
  karatsuba fuel x y = Return (x * y)
  /\ karatsuba fuel x 0 = Return 0
  /\ karatsuba fuel x 1 = Return x.
Proof.
  intros Hx Hy Hfuel.
  assert (G : forall z, 0 <= z -> x + z < Z.of_nat fuel ->
                        karatsuba fuel x z = Return (x * z)).
  { intros z Hz Hf. unfold karatsuba, assert.
    destruct (Z.geb_spec x 0) as [_|C]; [|lia].
    destruct (Z.geb_spec z 0) as [_|C]; [|lia].
    cbn [bind]. apply _karatsuba_correct; assumption. }
  split; [apply G; assumption|].
  split.
  - rewrite (G 0) by lia. f_equal. lia.
  - destruct (Z.eq_dec y 0) as [->|Hy0].
    + (* the depth at hand may be just one call *)
      destruct fuel as [|fuel]; [lia|].
      unfold karatsuba, assert.
      destruct (Z.geb_spec x 0) as [_|C]; [|lia].
      cbn [bind Z.geb Z.compare]. rewrite _karatsuba_S.
      destruct (Z.eqb_spec (bit_length x) 0) as [X0|X0].
      { apply (proj1 (bit_length_zero x)) in X0. subst x. reflexivity. }
      change (bit_length 1) with 1. cbn [orb Z.eqb].
      destruct (Z.eqb_spec (bit_length x) 1) as [X1|X1].
      { apply bit_length_one in X1; [|exact Hx]. subst x. reflexivity. }
      reflexivity.
    + rewrite (G 1) by lia. f_equal. lia.
Qed.

End KaratsubaProofs.

(** ** closestpoints.py *)

Module ClosestPointsProofs.

Import ClosestPoints.

Local Open Scope Z_scope.

(** *** [merge] is mergesort's, comparing second coordinates *)

Lemma merge_loop_eq (a b result : list point) :
  merge_loop a b result = Mergesort.merge_loop leb_y a b result.
Proof.
  revert b result. induction a as [|x a IHa]; intros b result.
  - destruct b; reflexivity.
  - revert result. induction b as [|y b IHb]; intros result.
    + reflexivity.
    + simpl. unfold leb_y at 1. destruct (py x <=? py y).
      * apply IHa.
      * apply IHb.
Qed.

Lemma merge_eq (a b : list point) : merge a b = Mergesort.merge leb_y a b.
Proof. apply merge_loop_eq. Qed.

Lemma leb_y_total (p q : point) : leb_y p q = true \/ leb_y q p = true.
Proof. apply Zleb_total. Qed.

Lemma leb_y_trans (p q r : point) :
  leb_y p q = true -> leb_y q r = true -> leb_y p r = true.
Proof. apply Zleb_trans. Qed.

Lemma same_key_y (k p : point) : Mergesort.same_key leb_y k p = (py p =? py k).
Proof.
  unfold Mergesort.same_key, leb_y.
  destruct (Z.leb_spec (py k) (py p)), (Z.leb_spec (py p) (py k)),
    (Z.eqb_spec (py p) (py k)); simpl; try reflexivity; lia.
Qed.

(** C6: [merge] is stable, in mergesort.py and in its copy in
    closestpoints.py.  When the heads of the two lists have equal keys the
    left head is emitted first; and for sorted inputs the elements of any one
    key appear in the output as those of the left input, in their order,
    followed by those of the right input, in their order. *)
Theorem merge_is_stable :
  (forall (A : Type) (leb : A -> A -> bool),
      (forall x y, leb x y = true \/ leb y x = true) ->
      (forall x y z, leb x y = true -> leb y z = true -> leb x z = true) ->
      forall a b : list A,
        Mergesort.sorted leb a -> Mergesort.sorted leb b ->
        (forall x a' y b',
            a = x :: a' -> b = y :: b' -> Mergesort.same_key leb x y = true ->
            Mergesort.merge leb a b = x :: Mergesort.merge leb a' b)
        /\ (forall k,
               filter (Mergesort.same_key leb k) (Mergesort.merge leb a b)
               = filter (Mergesort.same_key leb k) a
                 ++ filter (Mergesort.same_key leb k) b))
  /\ (forall a b : list point,
         Mergesort.sorted leb_y a -> Mergesort.sorted leb_y b ->
         (forall x a' y b',
             a = x :: a' -> b = y :: b' -> py x = py y ->
             merge a b = x :: merge a' b)
         /\ (forall k : Z,
                filter (fun p => py p =? k) (merge a b)
                = filter (fun p => py p =? k) a
                  ++ filter (fun p => py p =? k) b)).
Proof.
  split.
  - intros A leb Htotal Htrans a b Ha Hb. split.
    + intros x a' y b' -> -> K.
      apply andb_prop in K. destruct K as [K _].
      rewrite MergesortProofs.merge_cons, K. reflexivity.
    + intros k. apply MergesortProofs.merge_keeps_left_first; assumption.
  - intros a b Ha Hb. split.
    + intros x a' y b' -> -> K.
      rewrite !merge_eq, MergesortProofs.merge_cons.
      unfold leb_y at 1. rewrite K, Z.leb_refl. reflexivity.
    + intros k.
      assert (F : forall l : list point,
                 filter (fun p => py p =? k) l
                 = filter (Mergesort.same_key leb_y (0, k)) l).
      { intros l. apply filter_ext. intros p. rewrite same_key_y. reflexivity. }
      rewrite !F, merge_eq.
      apply MergesortProofs.merge_keeps_left_first;
        [exact leb_y_total | exact leb_y_trans | exact Ha].
Qed.

(** *** Sorting by a coordinate *)

Lemma insert_by_length (key : point -> Z) (p : point) (l : list point) :
  length (insert_by key p l) = S (length l).
Proof.
  induction l as [|q l IH]; simpl; [reflexivity|].
  destruct (key p <=? key q); simpl; [reflexivity | rewrite IH; reflexivity].
Qed.

Lemma sorted_by_length (key : point -> Z) (l : list point) :
  length (sorted_by key l) = length l.
Proof.
  induction l as [|p l IH]; simpl; [reflexivity|].
  rewrite insert_by_length, IH. reflexivity.
Qed.

Lemma insert_by_x_sorted (p : point) (l : list point) :
  x_sorted l -> x_sorted (insert_by px p l).
Proof.
  unfold x_sorted. induction l as [|q l IH]; simpl; intros Hs.
  - repeat constructor.
  - destruct (Z.leb_spec (px p) (px q)) as [Hle|Hgt].
    + constructor; [exact Hs | constructor; exact Hle].
    + inversion Hs as [|? ? Hl Hhd]; subst.
      constructor; [apply IH; exact Hl|].
      destruct l as [|r l]; simpl.
      * constructor. lia.
      * inversion Hhd; subst.
        destruct (px p <=? px r); constructor; lia.
Qed.

Lemma sorted_by_x_sorted (l : list point) : x_sorted (sorted_by px l).
Proof.
  induction l as [|p l IH]; simpl.
  - constructor.
  - apply insert_by_x_sorted. exact IH.
Qed.

Lemma x_sorted_firstn (n : nat) (l : list point) :
  x_sorted l -> x_sorted (firstn n l).
Proof.
  unfold x_sorted. revert l. induction n as [|n IH]; intros l Hs; simpl.
  - constructor.
  - destruct l as [|p l]; [constructor|].
    inversion Hs as [|? ? Hl Hhd]; subst.
    constructor; [apply IH; exact Hl|].
    destruct l as [|q l]; [rewrite firstn_nil; constructor|].
    destruct n; simpl; [constructor|].
    inversion Hhd; subst. constructor. assumption.
Qed.

Lemma x_sorted_skipn (n : nat) (l : list point) :
  x_sorted l -> x_sorted (skipn n l).
Proof.
  unfold x_sorted. revert l. induction n as [|n IH]; intros l Hs; simpl.
  - exact Hs.
  - destruct l as [|p l]; [constructor|].
    inversion Hs; subst. apply IH. assumption.
Qed.

(** *** The pair that is returned has its left point first *)

Lemma update_best_unchanged (bst : best) (q1 q2 : point) :
  lt_dist (distance q1 q2) (fst bst) = false -> update_best bst q1 q2 = bst.
Proof. intros H. unfold update_best. rewrite H. reflexivity. Qed.

Lemma update_best_settled (bst : best) (q1 q2 : point) :
  settled bst -> settled (update_best bst q1 q2).
Proof.
  intros Hs. unfold update_best.
  destruct (lt_dist (distance q1 q2) (fst bst)); [|exact Hs].
  destruct (Z.leb_spec (px q1) (px q2)).
  - exists q1, q2. split; [reflexivity | lia].
  - exists q2, q1. split; [reflexivity | lia].
Qed.

Lemma fold_left_preserves (S X : Type) (P : S -> Prop) (f : S -> X -> S)
      (l : list X) (s : S) :
  (forall s x, P s -> P (f s x)) -> P s -> P (fold_left f l s).
Proof.
  intros Hf. revert s. induction l as [|x l IH]; simpl; intros s Hs.
  - exact Hs.
  - apply IH, Hf, Hs.
Qed.

Lemma scan_strip_settled (strip : list point) (bst : best) :
  settled bst -> settled (scan_strip strip bst).
Proof.
  unfold scan_strip. apply fold_left_preserves.
  intros s iq Hs. unfold scan_window.
  apply fold_left_preserves; [|exact Hs].
  intros s' q2. apply update_best_settled.
Qed.

Lemma _closest_pair_S (fuel : nat) (points : list point) :
  (3 <= length points)%nat ->
  _closest_pair (S fuel) points =
  let midpoint := (length points / 2)%nat in
  '(pq_left, y_sorted_left) <- _closest_pair fuel (slice_to midpoint points) ;;
  '(pq_right, y_sorted_right) <- _closest_pair fuel (slice_from midpoint points) ;;
  let bst :=
    if dist_leb (pair_dist pq_left) (pair_dist pq_right)
    then (pair_dist pq_left, pq_left)
    else (pair_dist pq_right, pq_right) in
  let y_sorted := merge y_sorted_left y_sorted_right in
  match nth_error points midpoint with
  | None => Raise (IndexError "list index out of range")
  | Some m =>
      let strip := filter (fun p => within (px m) (fst bst) (px p)) y_sorted in
      Return (snd (scan_strip strip bst), y_sorted)
  end.
Proof.
  intros H. destruct points as [|p [|q [|r rest]]]; simpl in H; try lia.
  reflexivity.
Qed.

Lemma _closest_pair_returns (fuel : nat) (points : list point) :
  x_sorted points ->
  (1 <= length points)%nat -> (length points <= fuel)%nat ->
  exists pq ys,
    _closest_pair fuel points = Return (pq, ys)
    /\ normalized pq
    /\ ((2 <= length points)%nat -> pq <> None).
Proof.
  revert points. induction fuel as [|fuel IH]; intros points Hs H1 Hf; [lia|].
  destruct (le_lt_dec 3 (length points)) as [H3|H3].
  - rewrite _closest_pair_S by exact H3. cbv zeta.
    destruct (@half_bounds (length points) ltac:(lia)) as (M1 & M2 & M3).
    set (mid := (length points / 2)%nat) in *.
    unfold slice_to, slice_from.
    destruct (IH (firstn mid points)) as (pql & ysl & El & Nl & _).
    { apply x_sorted_firstn, Hs. }
    { rewrite length_firstn. lia. }
    { rewrite length_firstn. lia. }
    destruct (IH (skipn mid points)) as (pqr & ysr & Er & Nr & Sr).
    { apply x_sorted_skipn, Hs. }
    { rewrite length_skipn. lia. }
    { rewrite length_skipn. lia. }
    rewrite El, Er. cbn [bind].
    destruct (nth_error points mid) as [m|] eqn:Em.
    2:{ apply nth_error_None in Em. lia. }
    assert (Hright : pqr <> None).
    { apply Sr. rewrite length_skipn. lia. }
    match goal with
    | |- context [scan_strip ?s ?b] =>
        assert (Hset : settled b);
        [| destruct (@scan_strip_settled s b Hset) as (p & q & E & N) ]
    end.
    { destruct pqr as [[p q]|]; [|congruence].
      destruct pql as [[p' q']|]; simpl.
      - destruct (distance p' q' <=? distance p q);
          [exists p', q' | exists p, q]; split; (reflexivity || assumption).
      - exists p, q. split; [reflexivity | exact Nr]. }
    eexists _, _. split; [reflexivity|].
    rewrite E. split; [exact N | discriminate].
  - destruct points as [|p [|q [|r rest]]]; simpl in H1, H3; try lia.
    + exists None, [p]. split; [reflexivity|]. split; [exact I|].
      simpl. lia.
    + exists (Some (p, q)), (sorted_by py [p; q]).
      split; [reflexivity|]. split; [|discriminate].
      inversion Hs as [|? ? _ Hhd]; subst. inversion Hhd; subst. assumption.
Qed.

(** C7: for every list of at least two points, [closest_pair] returns a
    pair (a recursion depth of the number of points is enough) whose first
    point has the smaller or equal x-coordinate; and a candidate of the
    strip whose distance is not strictly smaller than the best distance
    leaves the best distance and the best pair as they are. *)
Theorem closest_pair_left_first (points : list point) (fuel : nat) :
  (2 <= length points)%nat -> (length points <= fuel)%nat ->
  (exists p q, closest_pair fuel points = Return (Some (p, q)) /\ px p <= px q)
  /\ (forall bst q1 q2,
         lt_dist (distance q1 q2) (fst bst) = false ->
         update_best bst q1 q2 = bst).
Proof.
  intros H2 Hf. split; [|exact update_best_unchanged].
  unfold closest_pair, assert.
  destruct (Nat.leb_spec 2 (length points)) as [_|C]; [|lia].
  cbn [bind].
  destruct (@_closest_pair_returns fuel (sorted_by px points))
    as (pq & ys & E & N & S).
  { apply sorted_by_x_sorted. }
  { rewrite sorted_by_length. lia. }
  { rewrite sorted_by_length. lia. }
  rewrite E. cbn [bind].
  destruct pq as [[p q]|].
  - exists p, q. split; [reflexivity | exact N].
  - exfalso. apply S; [rewrite sorted_by_length; lia | reflexivity].
Qed.

(** *** The strip is measured with the squared distance *)

(** C1 fails on the code: [best_d] holds the squared distance, and the strip
    takes the points within [best_d] of the median, not within its square
    root, so more than seven points of the strip can separate a closer pair
    in y-order.  On the nine points of [far_apart_in_strip], [closest_pair]
    returns a pair at squared distance 365, while the least squared distance
    is 29. *)
Theorem closest_pair_misses_closer_pair :
  closest_pair 9 far_apart_in_strip = Return (Some ((-20, 2), (-1, 0)))
  /\ distance (-20, 2) (-1, 0) = 365
  /\ brute_force far_apart_in_strip = Finite 29
  /\ distance (-1, 0) (1, 5) = 29.
Proof. vm_compute. repeat split. Qed.

End ClosestPointsProofs.

(** ** strassen.py *)

Module StrassenProofs.

Import Strassen.

(** *** Lists by index *)

Lemma nth_map_in (A B : Type) (f : A -> B) (l : list A) (i : nat) (d : A) (d' : B) :
  i < length l -> nth i (map f l) d' = f (nth i l d).
Proof.
  intros H. rewrite (nth_indep _ d' (f d)) by (rewrite length_map; exact H).
  apply map_nth.
Qed.

Lemma zip_with_length (A B C : Type) (f : A -> B -> C) (l1 : list A) (l2 : list B) :
  length (zip_with f l1 l2) = Nat.min (length l1) (length l2).
Proof.
  revert l2. induction l1 as [|x l1 IH]; intros [|y l2]; simpl; try reflexivity.
  rewrite IH. reflexivity.
Qed.

Lemma zip_with_nth (A B C : Type) (f : A -> B -> C) (l1 : list A) (l2 : list B)
      (i : nat) (d1 : A) (d2 : B) (d : C) :
  i < length l1 -> i < length l2 ->
  nth i (zip_with f l1 l2) d = f (nth i l1 d1) (nth i l2 d2).
Proof.
  revert l2 i. induction l1 as [|x l1 IH]; intros [|y l2] [|i]; simpl;
    intros H1 H2; try lia; try reflexivity.
  apply IH; lia.
Qed.

(** Overwriting a run of a list, as [set_slice] and [set_block] do. *)
Lemma splice_length (A : Type) (r0 : nat) (vs l : list A) :
  r0 + length vs <= length l ->
  length (firstn r0 l ++ vs ++ skipn (r0 + length vs) l) = length l.
Proof.
  intros H. rewrite !length_app, length_firstn, length_skipn. lia.
Qed.

Lemma splice_nth (A : Type) (r0 : nat) (vs l : list A) (i : nat) (d : A) :
  r0 + length vs <= length l ->
  nth i (firstn r0 l ++ vs ++ skipn (r0 + length vs) l) d =
  if (r0 <=? i) && (i <? r0 + length vs) then nth (i - r0) vs d else nth i l d.
Proof.
  intros H.
  assert (Lf : length (firstn r0 l) = r0) by (rewrite length_firstn; lia).
  destruct (Nat.leb_spec r0 i) as [H1|H1]; simpl.
  - rewrite app_nth2 by lia. rewrite Lf.
    destruct (Nat.ltb_spec i (r0 + length vs)) as [H2|H2].
    + rewrite app_nth1 by lia. reflexivity.
    + rewrite app_nth2 by lia. rewrite nth_skipn. f_equal. lia.
  - rewrite app_nth1 by lia. rewrite nth_firstn.
    destruct (Nat.ltb_spec i r0); [reflexivity | lia].
Qed.

(** *** Matrices by cell *)

Lemma denotes_cell (n : nat) (X : matrix) :
  is_matrix n n X -> denotes n X (cell X).
Proof. intros H. split; [exact H | reflexivity]. Qed.

Lemma denotes_ext (n : nat) (X : matrix) (f g : nat -> nat -> Z) :
  denotes n X f -> (forall i j, i < n -> j < n -> f i j = g i j) -> denotes n X g.
Proof.
  intros [Hm Hc] E. split; [exact Hm|].
  intros i j Hi Hj. rewrite Hc, E by assumption. reflexivity.
Qed.

Lemma matrix_ext (r c : nat) (X Y : matrix) :
  is_matrix r c X -> is_matrix r c Y ->
  (forall i j, i < r -> j < c -> cell X i j = cell Y i j) -> X = Y.
Proof.
  intros [LX RX] [LY RY] E.
  apply nth_ext with (d := []) (d' := []); [lia|].
  intros i Hi. rewrite LX in Hi.
  apply nth_ext with (d := 0%Z) (d' := 0%Z).
  - rewrite RX, RY by exact Hi. reflexivity.
  - intros j Hj. rewrite RX in Hj by exact Hi. apply E; assumption.
Qed.

Lemma denotes_unique (n : nat) (X Y : matrix) (f : nat -> nat -> Z) :
  denotes n X f -> denotes n Y f -> X = Y.
Proof.
  intros [MX CX] [MY CY]. apply (matrix_ext MX MY).
  intros i j Hi Hj. rewrite CX, CY by assumption. reflexivity.
Qed.

Lemma zip_cells_denotes (n : nat) (op : Z -> Z -> Z) (X Y : matrix)
      (f g : nat -> nat -> Z) :
  denotes n X f -> denotes n Y g ->
  denotes n (zip_with (zip_with op) X Y) (fun i j => op (f i j) (g i j)).
Proof.
  intros [[LX RX] CX] [[LY RY] CY].
  assert (R : forall i, i < n ->
              nth i (zip_with (zip_with op) X Y) []
              = zip_with op (nth i X []) (nth i Y [])).
  { intros i Hi. apply zip_with_nth; lia. }
  split; [split|].
  - rewrite zip_with_length. lia.
  - intros i Hi. rewrite R by exact Hi.
    rewrite zip_with_length, RX, RY by exact Hi. lia.
  - intros i j Hi Hj. unfold cell. rewrite R by exact Hi.
    rewrite (zip_with_nth op (nth i X []) (nth i Y []) 0%Z 0%Z)
      by (rewrite ?RX, ?RY by exact Hi; exact Hj).
    f_equal; [apply CX | apply CY]; assumption.
Qed.

Lemma map_cells_denotes (n : nat) (g : Z -> Z) (X : matrix) (f : nat -> nat -> Z) :
  denotes n X f -> denotes n (map (map g) X) (fun i j => g (f i j)).
Proof.
  intros [[LX RX] CX].
  assert (R : forall i, i < n -> nth i (map (map g) X) [] = map g (nth i X [])).
  { intros i Hi. apply nth_map_in. lia. }
  split; [split|].
  - rewrite length_map. exact LX.
  - intros i Hi. rewrite R, length_map by exact Hi. apply RX, Hi.
  - intros i j Hi Hj. unfold cell. rewrite R by exact Hi.
    rewrite (nth_map_in g (nth i X []) 0%Z) by (rewrite RX by exact Hi; exact Hj).
    f_equal. apply CX; assumption.
Qed.

Lemma full_denotes (n : nat) (v : Z) : denotes n (full n v) (fun _ _ => v).
Proof.
  unfold full. split; [split|].
  - apply repeat_length.
  - intros i Hi. rewrite nth_repeat_lt by exact Hi. apply repeat_length.
  - intros i j Hi Hj. unfold cell.
    rewrite nth_repeat_lt by exact Hi. apply nth_repeat_lt. exact Hj.
Qed.

(** Rows [r0..] and columns [c0..] of a matrix, [m] of each, however the
    slices select them. *)
Lemma block_denotes (n m r0 c0 : nat) (rows : matrix) (sel : list Z -> list Z)
      (X : matrix) (f : nat -> nat -> Z) :
  denotes n X f ->
  length rows = m ->
  (forall i, i < m -> nth i rows [] = nth (r0 + i) X []) ->
  (forall row, length row = n ->
     length (sel row) = m
     /\ forall j, j < m -> nth j (sel row) 0%Z = nth (c0 + j) row 0%Z) ->
  r0 + m <= n -> c0 + m <= n ->
  denotes m (map sel rows) (fun i j => f (r0 + i) (c0 + j)).
Proof.
  intros [[LX RX] CX] L Hrows Hsel Hr Hc.
  assert (R : forall i, i < m ->
              nth i (map sel rows) [] = sel (nth (r0 + i) X [])).
  { intros i Hi. rewrite (nth_map_in sel rows []) by lia.
    rewrite Hrows by exact Hi. reflexivity. }
  split; [split|].
  - rewrite length_map. exact L.
  - intros i Hi. rewrite R by exact Hi. apply Hsel, RX. lia.
  - intros i j Hi Hj. unfold cell. rewrite R by exact Hi.
    destruct (Hsel (nth (r0 + i) X [])) as [_ Hn]; [apply RX; lia|].
    rewrite Hn by exact Hj. apply CX; lia.
Qed.

Lemma firstn_rows (A : Type) (m : nat) (l : list A) (d : A) :
  m <= length l ->
  length (firstn m l) = m
  /\ forall i, i < m -> nth i (firstn m l) d = nth (0 + i) l d.
Proof.
  intros H. split; [rewrite length_firstn; lia|].
  intros i Hi. rewrite nth_firstn.
  destruct (Nat.ltb_spec i m); [reflexivity | lia].
Qed.

Lemma skipn_rows (A : Type) (k m : nat) (l : list A) (d : A) :
  length l = k + m ->
  length (skipn k l) = m
  /\ forall i, i < m -> nth i (skipn k l) d = nth (k + i) l d.
Proof.
  intros H. split; [rewrite length_skipn; lia|].
  intros i Hi. apply nth_skipn.
Qed.

Lemma double_half (k : nat) : (k + k) / 2 = k.
Proof.
  replace (k + k) with (k * 2) by lia. apply Nat.div_mul. discriminate.
Qed.

Lemma quadrants_denote (k : nat) (X : matrix) (f : nat -> nat -> Z) :
  denotes (k + k) X f ->
  denotes k (fst (fst (fst (_quadrants X)))) (fun i j => f i j)
  /\ denotes k (snd (fst (fst (_quadrants X)))) (fun i j => f i (k + j))
  /\ denotes k (snd (fst (_quadrants X))) (fun i j => f (k + i) j)
  /\ denotes k (snd (_quadrants X)) (fun i j => f (k + i) (k + j)).
Proof.
  intros H. pose proof H as [[LX RX] CX].
  unfold _quadrants, slice_to, slice_from. rewrite LX, double_half. cbn [fst snd].
  assert (Top : length (firstn k X) = k
                /\ forall i, i < k -> nth i (firstn k X) [] = nth (0 + i) X []).
  { apply firstn_rows. lia. }
  assert (Bottom : length (skipn k X) = k
                   /\ forall i, i < k -> nth i (skipn k X) [] = nth (k + i) X []).
  { apply skipn_rows. lia. }
  assert (Left : forall row : list Z, length row = k + k ->
             length (firstn k row) = k
             /\ forall j, j < k -> nth j (firstn k row) 0%Z = nth (0 + j) row 0%Z).
  { intros row Hrow. apply firstn_rows. lia. }
  assert (Right : forall row : list Z, length row = k + k ->
             length (skipn k row) = k
             /\ forall j, j < k -> nth j (skipn k row) 0%Z = nth (k + j) row 0%Z).
  { intros row Hrow. apply skipn_rows. lia. }
  split; [|split; [|split]].
  - change (denotes k (map (firstn k) (firstn k X)) (fun i j => f (0 + i) (0 + j))).
    apply (@block_denotes (k + k) k 0 0 (firstn k X) (firstn k) X f H);
      solve [apply Top | exact Left | lia].
  - change (denotes k (map (skipn k) (firstn k X)) (fun i j => f (0 + i) (k + j))).
    apply (@block_denotes (k + k) k 0 k (firstn k X) (skipn k) X f H);
      solve [apply Top | exact Right | lia].
  - change (denotes k (map (firstn k) (skipn k X)) (fun i j => f (k + i) (0 + j))).
    apply (@block_denotes (k + k) k k 0 (skipn k X) (firstn k) X f H);
      solve [apply Bottom | exact Left | lia].
  - apply (@block_denotes (k + k) k k k (skipn k X) (skipn k) X f H);
      solve [apply Bottom | exact Right | lia].
Qed.

Lemma set_block_denotes (n m r0 c0 : nat) (V X : matrix) (fv fx : nat -> nat -> Z) :
  denotes n X fx -> denotes m V fv -> r0 + m <= n -> c0 + m <= n ->
  denotes n (set_block r0 c0 V X)
          (fun i j => if in_block r0 c0 m i j then fv (i - r0) (j - c0) else fx i j).
Proof.
  intros [[LX RX] CX] [[LV RV] CV] Hr Hc.
  unfold set_block, slice.
  set (Z := zip_with (set_slice c0) V (firstn (r0 + length V - r0) (skipn r0 X))).
  assert (LS : length (firstn (r0 + length V - r0) (skipn r0 X)) = m).
  { rewrite length_firstn, length_skipn. lia. }
  assert (LZ : length Z = m).
  { unfold Z. rewrite zip_with_length. lia. }
  replace (r0 + length V) with (r0 + length Z) by lia.
  assert (Row : forall i, i < n ->
            nth i (firstn r0 X ++ Z ++ skipn (r0 + length Z) X) []
            = if (r0 <=? i) && (i <? r0 + m)
              then set_slice c0 (nth (i - r0) V []) (nth i X [])
              else nth i X []).
  { intros i Hi. rewrite splice_nth by lia. rewrite LZ.
    destruct ((r0 <=? i) && (i <? r0 + m)) eqn:E; [|reflexivity].
    apply andb_prop in E. destruct E as [E1 E2].
    apply Nat.leb_le in E1. apply Nat.ltb_lt in E2.
    unfold Z. rewrite (zip_with_nth (set_slice c0) V _ [] []) by lia.
    f_equal. rewrite nth_firstn, nth_skipn.
    destruct (Nat.ltb_spec (i - r0) (r0 + length V - r0)); [|lia].
    f_equal. lia. }
  split; [split|].
  - rewrite splice_length; lia.
  - intros i Hi. rewrite Row by exact Hi.
    destruct ((r0 <=? i) && (i <? r0 + m)) eqn:E; [|apply RX, Hi].
    apply andb_prop in E. destruct E as [E1 E2].
    apply Nat.leb_le in E1. apply Nat.ltb_lt in E2.
    unfold set_slice. rewrite splice_length; rewrite ?RV, ?RX by lia; lia.
  - intros i j Hi Hj. unfold cell, in_block. rewrite Row by exact Hi.
    destruct ((r0 <=? i) && (i <? r0 + m)) eqn:E; [|apply CX; assumption].
    apply andb_prop in E. destruct E as [E1 E2].
    apply Nat.leb_le in E1. apply Nat.ltb_lt in E2.
    unfold set_slice. rewrite splice_nth by (rewrite ?RV, ?RX by lia; lia).
    rewrite RV by lia. cbn [andb].
    destruct ((c0 <=? j) && (j <? c0 + m)) eqn:F.
    + apply andb_prop in F. destruct F as [F1 F2].
      apply Nat.leb_le in F1. apply Nat.ltb_lt in F2.
      apply CV; lia.
    + apply CX; assumption.
Qed.

(** *** Cells that every type holds exactly *)

Lemma wrap64_exact (z : Z) : (- 2 ^ 63 <= z < 2 ^ 63)%Z -> wrap64 z = z.
Proof.
  intros H. unfold wrap64. rewrite Z.mod_small; lia.
Qed.

Lemma round_f64_exact (z : Z) : small z -> round_f64 z = z.
Proof.
  unfold small, round_f64. intros H.
  destruct (Z.ltb_spec (Z.abs z) (2 ^ 53)); [reflexivity | lia].
Qed.

Lemma arith_exact (dt : dtype) (z : Z) : small z -> arith dt z = z.
Proof.
  intros H. destruct dt; simpl.
  - apply wrap64_exact. unfold small in H. lia.
  - apply round_f64_exact, H.
Qed.

Lemma astype_exact (to from : dtype) (z : Z) : small z -> astype to from z = z.
Proof.
  intros H. destruct to, from; simpl; try reflexivity.
  apply round_f64_exact, H.
Qed.

(** *** Sums *)

Local Open Scope Z_scope.

Lemma sum_upto_ext (n : nat) (f g : nat -> Z) :
  (forall t, (t < n)%nat -> f t = g t) -> sum_upto n f = sum_upto n g.
Proof.
  induction n as [|n IH]; intros E; simpl; [reflexivity|].
  rewrite IH, E by (intros; try apply E; lia). reflexivity.
Qed.

Lemma sum_upto_app (m k : nat) (f : nat -> Z) :
  sum_upto (m + k) f = sum_upto m f + sum_upto k (fun t => f (m + t)%nat).
Proof.
  induction k as [|k IH].
  - rewrite Nat.add_0_r. simpl. lia.
  - rewrite Nat.add_succ_r. simpl. rewrite IH. lia.
Qed.

Lemma sum_upto_zero (k : nat) (f : nat -> Z) :
  (forall t, (t < k)%nat -> f t = 0) -> sum_upto k f = 0.
Proof.
  induction k as [|k IH]; intros E; simpl; [reflexivity|].
  rewrite IH, E by (intros; try apply E; lia). reflexivity.
Qed.

Lemma sum_upto_bound (n : nat) (f : nat -> Z) (M : Z) :
  (forall t, (t < n)%nat -> Z.abs (f t) <= M) ->
  Z.abs (sum_upto n f) <= Z.of_nat n * M.
Proof.
  induction n as [|n IH]; intros E.
  - simpl. lia.
  - cbn [sum_upto].
    pose proof (IH ltac:(intros; apply E; lia)) as H1.
    pose proof (E n ltac:(lia)) as H2.
    rewrite Nat2Z.inj_succ. lia.
Qed.

(** The four combinations of Strassen's seven products, one row against one
    column. *)
Section Identities.

Variables a b c d e f g h : nat -> Z.

Lemma strassen_top_left (k : nat) :
  sum_upto k (fun t => (a t + d t) * (e t + h t))
  + sum_upto k (fun t => d t * (g t - e t))
  - sum_upto k (fun t => (a t + b t) * h t)
  + sum_upto k (fun t => (b t - d t) * (g t + h t))
  = sum_upto k (fun t => a t * e t) + sum_upto k (fun t => b t * g t).
Proof. induction k as [|k IH]; simpl; lia. Qed.

Lemma strassen_top_right (k : nat) :
  sum_upto k (fun t => a t * (f t - h t))
  + sum_upto k (fun t => (a t + b t) * h t)
  = sum_upto k (fun t => a t * f t) + sum_upto k (fun t => b t * h t).
Proof. induction k as [|k IH]; simpl; lia. Qed.

Lemma strassen_bottom_left (k : nat) :
  sum_upto k (fun t => (c t + d t) * e t)
  + sum_upto k (fun t => d t * (g t - e t))
  = sum_upto k (fun t => c t * e t) + sum_upto k (fun t => d t * g t).
Proof. induction k as [|k IH]; simpl; lia. Qed.

Lemma strassen_bottom_right (k : nat) :
  sum_upto k (fun t => a t * (f t - h t))
  + sum_upto k (fun t => (a t + d t) * (e t + h t))
  - sum_upto k (fun t => (c t + d t) * e t)
  - sum_upto k (fun t => (a t - c t) * (e t + f t))
  = sum_upto k (fun t => c t * f t) + sum_upto k (fun t => d t * h t).
Proof. induction k as [|k IH]; simpl; lia. Qed.

End Identities.

Lemma holds_weaken (n : nat) (M M' : Z) (X : matrix) (f : nat -> nat -> Z) :
  holds n M X f -> M <= M' -> holds n M' X f.
Proof.
  intros [D B] H. split; [exact D|]. intros i j Hi Hj.
  specialize (B i j Hi Hj). lia.
Qed.

Lemma mmul_bounded (n : nat) (M : Z) (fa fb : nat -> nat -> Z) :
  0 <= M -> bounded n M fa -> bounded n M fb ->
  bounded n (Z.of_nat n * (M * M)) (mmul n fa fb).
Proof.
  intros HM Ba Bb i j Hi Hj. unfold mmul. apply sum_upto_bound.
  intros t Ht. rewrite Z.abs_mul.
  specialize (Ba i t Hi Ht). specialize (Bb t j Ht Hj).
  pose proof (Z.abs_nonneg (fa i t)). pose proof (Z.abs_nonneg (fb t j)).
  nia.
Qed.

Lemma naive_product_denotes (n : nat) (A B : matrix) :
  denotes n (naive_product n A B) (mmul n (cell A) (cell B)).
Proof.
  unfold naive_product.
  assert (R : forall i, (i < n)%nat ->
              nth i (map (fun i => map (fun j => sum_upto n (fun k => cell A i k * cell B k j))
                                       (seq 0 n)) (seq 0 n)) []
              = map (fun j => sum_upto n (fun k => cell A i k * cell B k j)) (seq 0 n)).
  { intros i Hi.
    rewrite (nth_map_in _ (seq 0 n) O) by (rewrite length_seq; exact Hi).
    rewrite seq_nth by exact Hi. reflexivity. }
  split; [split|].
  - rewrite length_map, length_seq. reflexivity.
  - intros i Hi. rewrite R by exact Hi. rewrite length_map, length_seq. reflexivity.
  - intros i j Hi Hj. unfold cell at 1. rewrite R by exact Hi.
    rewrite (nth_map_in _ (seq 0 n) O) by (rewrite length_seq; exact Hj).
    rewrite seq_nth by exact Hj. reflexivity.
Qed.

(** *** Operations whose results are exact *)

Lemma add64_holds (n : nat) (X Y : matrix) (fx fy : nat -> nat -> Z) (M : Z) :
  holds n M X fx -> holds n M Y fy -> 2 * M < 2 ^ 63 ->
  holds n (2 * M) (add64 X Y) (fun i j => fx i j + fy i j).
Proof.
  intros [DX BX] [DY BY] HM. split.
  - apply denotes_ext with (f := fun i j => wrap64 (fx i j + fy i j)).
    + apply (zip_cells_denotes (fun x y => wrap64 (x + y)) DX DY).
    + intros i j Hi Hj. apply wrap64_exact.
      specialize (BX i j Hi Hj). specialize (BY i j Hi Hj). lia.
  - intros i j Hi Hj.
    specialize (BX i j Hi Hj). specialize (BY i j Hi Hj). lia.
Qed.

Lemma sub64_holds (n : nat) (X Y : matrix) (fx fy : nat -> nat -> Z) (M : Z) :
  holds n M X fx -> holds n M Y fy -> 2 * M < 2 ^ 63 ->
  holds n (2 * M) (sub64 X Y) (fun i j => fx i j - fy i j).
Proof.
  intros [DX BX] [DY BY] HM. split.
  - apply denotes_ext with (f := fun i j => wrap64 (fx i j - fy i j)).
    + apply (zip_cells_denotes (fun x y => wrap64 (x - y)) DX DY).
    + intros i j Hi Hj. apply wrap64_exact.
      specialize (BX i j Hi Hj). specialize (BY i j Hi Hj). lia.
  - intros i j Hi Hj.
    specialize (BX i j Hi Hj). specialize (BY i j Hi Hj). lia.
Qed.

Lemma arr_op_holds (n : nat) (op : Z -> Z -> Z) (X Y : array)
      (fx fy : nat -> nat -> Z) (Mx My : Z) :
  (forall x y, Z.abs (op x y) <= Z.abs x + Z.abs y) ->
  holds n Mx (cells X) fx -> holds n My (cells Y) fy ->
  0 <= Mx -> 0 <= My -> Mx + My < 2 ^ 53 ->
  holds n (Mx + My) (cells (arr_op op X Y)) (fun i j => op (fx i j) (fy i j)).
Proof.
  intros Hop [DX BX] [DY BY] H0x H0y HM. split.
  - unfold arr_op. cbn [cells].
    set (dt := promote (dtype_of X) (dtype_of Y)).
    apply denotes_ext
      with (f := fun i j => arith dt (op (astype dt (dtype_of X) (fx i j))
                                         (astype dt (dtype_of Y) (fy i j)))).
    + apply (zip_cells_denotes
               (fun x y => arith dt (op (astype dt (dtype_of X) x)
                                        (astype dt (dtype_of Y) y))) DX DY).
    + intros i j Hi Hj.
      specialize (BX i j Hi Hj). specialize (BY i j Hi Hj).
      rewrite !astype_exact by (unfold small; lia).
      apply arith_exact. unfold small.
      specialize (Hop (fx i j) (fy i j)). lia.
  - intros i j Hi Hj.
    specialize (BX i j Hi Hj). specialize (BY i j Hi Hj).
    specialize (Hop (fx i j) (fy i j)). lia.
Qed.

Lemma arr_add_holds (n : nat) (X Y : array) (fx fy : nat -> nat -> Z) (Mx My : Z) :
  holds n Mx (cells X) fx -> holds n My (cells Y) fy ->
  0 <= Mx -> 0 <= My -> Mx + My < 2 ^ 53 ->
  holds n (Mx + My) (cells (X + Y)%arr) (fun i j => fx i j + fy i j).
Proof. apply arr_op_holds. intros. lia. Qed.

Arguments arr_add_holds {n X Y fx fy Mx My}.

Lemma arr_sub_holds (n : nat) (X Y : array) (fx fy : nat -> nat -> Z) (Mx My : Z) :
  holds n Mx (cells X) fx -> holds n My (cells Y) fy ->
  0 <= Mx -> 0 <= My -> Mx + My < 2 ^ 53 ->
  holds n (Mx + My) (cells (X - Y)%arr) (fun i j => fx i j - fy i j).
Proof. apply arr_op_holds. intros. lia. Qed.

Arguments arr_sub_holds {n X Y fx fy Mx My}.

Lemma store_denotes (n m r0 c0 : nat) (V : array) (X : matrix)
      (fv fx : nat -> nat -> Z) (M : Z) :
  denotes n X fx -> holds m M (cells V) fv -> M < 2 ^ 53 ->
  (r0 + m <= n)%nat -> (c0 + m <= n)%nat ->
  denotes n (store r0 c0 V X)
          (fun i j => if in_block r0 c0 m i j then fv (i - r0)%nat (j - c0)%nat
                      else fx i j).
Proof.
  intros DX [DV BV] HM Hr Hc. unfold store.
  apply set_block_denotes; try assumption.
  apply denotes_ext with (f := fun i j => astype float64 (dtype_of V) (fv i j)).
  - apply map_cells_denotes, DV.
  - intros i j Hi Hj. apply astype_exact. unfold small.
    specialize (BV i j Hi Hj). lia.
Qed.

Arguments store_denotes {n m} r0 c0 {V X fv fx M}.

(** *** The recursion *)

Lemma _strassen_S (fuel : nat) (A B : matrix) :
  _strassen (S fuel) A B =
  if (length A =? 1)%nat
  then Return {| dtype_of := int64;
                 cells := [[wrap64 (cell A 0 0 * cell B 0 0)]] |}
  else
    let a := fst (fst (fst (_quadrants A))) in
    let b := snd (fst (fst (_quadrants A))) in
    let c := snd (fst (_quadrants A)) in
    let d := snd (_quadrants A) in
    let e := fst (fst (fst (_quadrants B))) in
    let f := snd (fst (fst (_quadrants B))) in
    let g := snd (fst (_quadrants B)) in
    let h := snd (_quadrants B) in
    p1 <- _strassen fuel a (sub64 f h) ;;
    p2 <- _strassen fuel (add64 a b) h ;;
    p3 <- _strassen fuel (add64 c d) e ;;
    p4 <- _strassen fuel d (sub64 g e) ;;
    p5 <- _strassen fuel (add64 a d) (add64 e h) ;;
    p6 <- _strassen fuel (sub64 b d) (add64 g h) ;;
    p7 <- _strassen fuel (sub64 a c) (add64 e f) ;;
    let k := (length A / 2)%nat in
    Return {| dtype_of := float64;
              cells :=
                store k k (p1 + p5 - p3 - p7)%arr
                  (store k 0 (p3 + p4)%arr
                     (store 0 k (p1 + p2)%arr
                        (store 0 0 (p5 + p4 - p2 + p6)%arr (zeros (length A))))) |}.
Proof. reflexivity. Qed.

Lemma quadrants_hold (k : nat) (M : Z) (X : matrix) (f : nat -> nat -> Z) :
  holds (k + k) M X f ->
  holds k M (fst (fst (fst (_quadrants X)))) (fun i j => f i j)
  /\ holds k M (snd (fst (fst (_quadrants X)))) (fun i j => f i (k + j)%nat)
  /\ holds k M (snd (fst (_quadrants X))) (fun i j => f (k + i)%nat j)
  /\ holds k M (snd (_quadrants X)) (fun i j => f (k + i)%nat (k + j)%nat).
Proof.
  intros [D Bd]. destruct (@quadrants_denote k X f D) as (Da & Db & Dc & Dd).
  unfold holds, bounded.
  repeat match goal with |- _ /\ _ => split end; try assumption;
    intros i j Hi Hj; apply Bd; lia.
Qed.

Lemma _strassen_exact (e : nat) :
  forall (fuel : nat) (A B : matrix) (fa fb : nat -> nat -> Z) (M : Z),
    holds (2 ^ e) M A fa -> holds (2 ^ e) M B fb -> 0 <= M ->
    4 * (Z.of_nat (2 ^ e) * Z.of_nat (2 ^ e)) * (M * M) < 2 ^ 53 ->
    (e < fuel)%nat ->
    exists C,
      _strassen fuel A B = Return C
      /\ holds (2 ^ e) (Z.of_nat (2 ^ e) * (M * M)) (cells C) (mmul (2 ^ e) fa fb).
Proof.
  induction e as [|e IH]; intros fuel A B fa fb M HA HB HM Hbound Hfuel;
    (destruct fuel as [|fuel]; [lia|]); rewrite _strassen_S.
  - (* side 1 *)
    change (2 ^ 0)%nat with 1%nat in *.
    destruct HA as [[[LA RA] CA] BA]. destruct HB as [[[LB RB] CB] BB].
    rewrite LA. cbn [Nat.eqb].
    eexists. split; [reflexivity|]. cbn [cells].
    split; [|apply mmul_bounded; assumption].
    split; [split; [reflexivity|]|].
    + intros i Hi. destruct i; [reflexivity | lia].
    + intros i j Hi Hj.
      assert (i = 0%nat) by lia. assert (j = 0%nat) by lia. subst i j.
      unfold mmul. cbn [sum_upto]. unfold cell at 1. cbn [nth].
      rewrite CA, CB by lia.
      specialize (BA 0%nat 0%nat Hi Hi). specialize (BB 0%nat 0%nat Hi Hi).
      rewrite wrap64_exact; [lia|].
      assert (Z.abs (fa 0%nat 0%nat * fb 0%nat 0%nat) <= M * M).
      { rewrite Z.abs_mul.
        pose proof (Z.abs_nonneg (fa 0%nat 0%nat)).
        pose proof (Z.abs_nonneg (fb 0%nat 0%nat)). nia. }
      change (Z.of_nat 1) with 1 in Hbound. lia.
  - (* side k + k *)
    set (k := (2 ^ e)%nat) in *.
    assert (Hk : (1 <= k)%nat).
    { unfold k. pose proof (Nat.pow_nonzero 2 e ltac:(discriminate)). lia. }
    replace (2 ^ S e)%nat with (k + k)%nat in * by (unfold k; simpl; lia).
    rewrite Nat2Z.inj_add in Hbound.
    set (K := Z.of_nat k) in *.
    assert (HK : 1 <= K) by (unfold K; lia).
    pose proof HA as [[[LA _] _] BA]. pose proof HB as [[[LB _] _] BB].
    rewrite LA, double_half.
    destruct (Nat.eqb_spec (k + k) 1) as [C|_]; [lia|].
    destruct (@quadrants_hold k M A fa HA) as (Ha & Hb & Hc & Hd).
    destruct (@quadrants_hold k M B fb HB) as (He & Hf & Hg & Hh).
    cbv zeta.
    set (a := fst (fst (fst (_quadrants A)))) in *.
    set (b := snd (fst (fst (_quadrants A)))) in *.
    set (c := snd (fst (_quadrants A))) in *.
    set (d := snd (_quadrants A)) in *.
    set (e' := fst (fst (fst (_quadrants B)))) in *.
    set (f := snd (fst (fst (_quadrants B)))) in *.
    set (g := snd (fst (_quadrants B))) in *.
    set (h := snd (_quadrants B)) in *.
    assert (HMM : 0 <= M * M) by nia.
    assert (H16 : 16 * (K * (M * M)) < 2 ^ 53) by nia.
    assert (H2M : 2 * M < 2 ^ 63) by nia.
    assert (Hsub : 4 * (K * K) * (2 * M * (2 * M)) < 2 ^ 53) by nia.
    assert (W : forall X fx, holds k M X fx -> holds k (2 * M) X fx).
    { intros X fx HX. apply (holds_weaken HX). lia. }
    destruct (IH fuel a (sub64 f h) _ _ (2 * M) (W _ _ Ha) (sub64_holds Hf Hh H2M))
      as (p1 & E1 & P1); [lia | exact Hsub | lia |].
    destruct (IH fuel (add64 a b) h _ _ (2 * M) (add64_holds Ha Hb H2M) (W _ _ Hh))
      as (p2 & E2 & P2); [lia | exact Hsub | lia |].
    destruct (IH fuel (add64 c d) e' _ _ (2 * M) (add64_holds Hc Hd H2M) (W _ _ He))
      as (p3 & E3 & P3); [lia | exact Hsub | lia |].
    destruct (IH fuel d (sub64 g e') _ _ (2 * M) (W _ _ Hd) (sub64_holds Hg He H2M))
      as (p4 & E4 & P4); [lia | exact Hsub | lia |].
    destruct (IH fuel (add64 a d) (add64 e' h) _ _ (2 * M)
                 (add64_holds Ha Hd H2M) (add64_holds He Hh H2M))
      as (p5 & E5 & P5); [lia | exact Hsub | lia |].
    destruct (IH fuel (sub64 b d) (add64 g h) _ _ (2 * M)
                 (sub64_holds Hb Hd H2M) (add64_holds Hg Hh H2M))
      as (p6 & E6 & P6); [lia | exact Hsub | lia |].
    destruct (IH fuel (sub64 a c) (add64 e' f) _ _ (2 * M)
                 (sub64_holds Ha Hc H2M) (add64_holds He Hf H2M))
      as (p7 & E7 & P7); [lia | exact Hsub | lia |].
    rewrite E1, E2, E3, E4, E5, E6, E7. cbn [bind].
    eexists. split; [reflexivity|]. cbn [cells].
    split; [|apply mmul_bounded; assumption].
    set (Bp := K * (2 * M * (2 * M))) in *.
    assert (HBp : 0 <= Bp) by (unfold Bp; nia).
    assert (H4 : Bp + Bp + Bp + Bp < 2 ^ 53) by (unfold Bp; nia).
    pose proof (arr_add_holds
                  (arr_sub_holds (arr_add_holds P5 P4 HBp HBp ltac:(lia)) P2
                     ltac:(lia) HBp ltac:(lia)) P6 ltac:(lia) HBp ltac:(lia)) as TL.
    pose proof (arr_add_holds P1 P2 HBp HBp ltac:(lia)) as TR.
    pose proof (arr_add_holds P3 P4 HBp HBp ltac:(lia)) as BL.
    pose proof (arr_sub_holds
                  (arr_sub_holds (arr_add_holds P1 P5 HBp HBp ltac:(lia)) P3
                     ltac:(lia) HBp ltac:(lia)) P7 ltac:(lia) HBp ltac:(lia)) as BR.
    pose proof (store_denotes 0 0 (full_denotes (k + k) 0) TL
                  ltac:(lia) ltac:(lia) ltac:(lia)) as S1.
    pose proof (store_denotes 0 k S1 TR
                  ltac:(lia) ltac:(lia) ltac:(lia)) as S2.
    pose proof (store_denotes k 0 S2 BL
                  ltac:(lia) ltac:(lia) ltac:(lia)) as S3.
    pose proof (store_denotes k k S3 BR
                  ltac:(lia) ltac:(lia) ltac:(lia)) as S4.
    apply denotes_ext with (1 := S4).
    intros i j Hi Hj. unfold mmul. rewrite sum_upto_app.
    destruct (Nat.lt_ge_cases i k) as [Hik|Hik];
      destruct (Nat.lt_ge_cases j k) as [Hjk|Hjk].
    + unfold in_block. decide_tests. rewrite !Nat.sub_0_r.
      exact (strassen_top_left
               (fun t => fa i t) (fun t => fa i (k + t)%nat)
               (fun t => fa (k + i)%nat (k + t)%nat)
               (fun t => fb t j) (fun t => fb (k + t)%nat j)
               (fun t => fb (k + t)%nat (k + j)%nat) k).
    + remember (j - k)%nat as j' eqn:Ej.
      assert (j = (k + j')%nat) by lia. subst j. clear Ej.
      unfold in_block. decide_tests. rewrite !Nat.sub_0_r.
      replace (k + j' - k)%nat with j' by lia.
      exact (strassen_top_right
               (fun t => fa i t) (fun t => fa i (k + t)%nat)
               (fun t => fb t (k + j')%nat)
               (fun t => fb (k + t)%nat (k + j')%nat) k).
    + remember (i - k)%nat as i' eqn:Ei.
      assert (i = (k + i')%nat) by lia. subst i. clear Ei.
      unfold in_block. decide_tests. rewrite !Nat.sub_0_r.
      replace (k + i' - k)%nat with i' by lia.
      exact (strassen_bottom_left
               (fun t => fa (k + i')%nat t) (fun t => fa (k + i')%nat (k + t)%nat)
               (fun t => fb t j) (fun t => fb (k + t)%nat j) k).
    + remember (i - k)%nat as i' eqn:Ei.
      assert (i = (k + i')%nat) by lia. subst i. clear Ei.
      remember (j - k)%nat as j' eqn:Ej.
      assert (j = (k + j')%nat) by lia. subst j. clear Ej.
      unfold in_block. decide_tests.
      replace (k + i' - k)%nat with i' by lia.
      replace (k + j' - k)%nat with j' by lia.
      exact (strassen_bottom_right
               (fun t => fa i' t)
               (fun t => fa (k + i')%nat t) (fun t => fa (k + i')%nat (k + t)%nat)
               (fun t => fb t j')
               (fun t => fb t (k + j')%nat)
               (fun t => fb (k + t)%nat (k + j')%nat) k).
Qed.

(** *** Termination, whatever the cells *)

Lemma quadrants_length (k : nat) (X : matrix) :
  length X = (k + k)%nat ->
  length (fst (fst (fst (_quadrants X)))) = k
  /\ length (snd (fst (fst (_quadrants X)))) = k
  /\ length (snd (fst (_quadrants X))) = k
  /\ length (snd (_quadrants X)) = k.
Proof.
  intros L. unfold _quadrants, slice_to, slice_from. rewrite L, double_half.
  cbn [fst snd]. rewrite !length_map, length_firstn, length_skipn. lia.
Qed.

Lemma _strassen_returns (e : nat) :
  forall (fuel : nat) (A B : matrix),
    length A = (2 ^ e)%nat -> (e < fuel)%nat ->
    exists C, _strassen fuel A B = Return C.
Proof.
  induction e as [|e IH]; intros fuel A B L Hfuel;
    (destruct fuel as [|fuel]; [lia|]); rewrite _strassen_S.
  - rewrite L. cbn [Nat.pow Nat.eqb]. eexists. reflexivity.
  - set (k := (2 ^ e)%nat) in *.
    assert (Hk : (1 <= k)%nat).
    { unfold k. pose proof (Nat.pow_nonzero 2 e ltac:(discriminate)). lia. }
    replace (2 ^ S e)%nat with (k + k)%nat in * by (unfold k; simpl; lia).
    rewrite L.
    destruct (Nat.eqb_spec (k + k) 1) as [C|_]; [lia|].
    destruct (@quadrants_length k A L) as (La & Lb & Lc & Ld).
    cbv zeta.
    assert (Z2 : forall (op : Z -> Z -> Z) (X Y : matrix),
               length X = k -> length Y = k ->
               length (zip_with (zip_with op) X Y) = k).
    { intros op X Y HX HY. rewrite zip_with_length. lia. }
    assert (R : forall X Y, length X = k ->
                exists C, _strassen fuel X Y = Return C).
    { intros X Y HX. apply IH; [exact HX | lia]. }
    destruct (R (fst (fst (fst (_quadrants A))))
                (sub64 (snd (fst (fst (_quadrants B)))) (snd (_quadrants B))))
      as [p1 E1]; [assumption|].
    destruct (R (add64 (fst (fst (fst (_quadrants A)))) (snd (fst (fst (_quadrants A)))))
                (snd (_quadrants B)))
      as [p2 E2]; [apply Z2; assumption|].
    destruct (R (add64 (snd (fst (_quadrants A))) (snd (_quadrants A)))
                (fst (fst (fst (_quadrants B)))))
      as [p3 E3]; [apply Z2; assumption|].
    destruct (R (snd (_quadrants A))
                (sub64 (snd (fst (_quadrants B))) (fst (fst (fst (_quadrants B))))))
      as [p4 E4]; [assumption|].
    destruct (R (add64 (fst (fst (fst (_quadrants A)))) (snd (_quadrants A)))
                (add64 (fst (fst (fst (_quadrants B)))) (snd (_quadrants B))))
      as [p5 E5]; [apply Z2; assumption|].
    destruct (R (sub64 (snd (fst (fst (_quadrants A)))) (snd (_quadrants A)))
                (add64 (snd (fst (_quadrants B))) (snd (_quadrants B))))
      as [p6 E6]; [apply Z2; assumption|].
    destruct (R (sub64 (fst (fst (fst (_quadrants A)))) (snd (fst (_quadrants A))))
                (add64 (fst (fst (fst (_quadrants B)))) (snd (fst (fst (_quadrants B))))))
      as [p7 E7]; [apply Z2; assumption|].
    rewrite E1, E2, E3, E4, E5, E6, E7. cbn [bind].
    eexists. reflexivity.
Qed.

Lemma bind_raises (A B : Type) (m : result A) (k : A -> result B) (e : exn) :
  bind m k = Raise e -> m = Raise e \/ exists a, m = Return a /\ k a = Raise e.
Proof.
  destruct m as [a|e'|]; simpl; intros H.
  - right. exists a. split; [reflexivity | exact H].
  - left. injection H as ->. reflexivity.
  - discriminate.
Qed.

Lemma _strassen_never_raises (fuel : nat) :
  forall (A B : matrix) (e : exn), _strassen fuel A B <> Raise e.
Proof.
  induction fuel as [|fuel IH]; intros A B e; [discriminate|].
  rewrite _strassen_S.
  destruct (length A =? 1)%nat; [discriminate|].
  cbv zeta. intros H.
  repeat (apply bind_raises in H;
          destruct H as [H | (? & _ & H)]; [exact (IH _ _ _ H)|]).
  discriminate.
Qed.

(** *** Operands, padding and the entry point *)

Lemma valid_operands_shape (A B : ndarray) :
  valid_operands A B <-> exists n, shape A = [n; n] /\ shape B = [n; n].
Proof.
  unfold valid_operands, two_dimensional, square, ndim, len. split.
  - intros (_ & SA & _ & SB & L).
    destruct (shape A) as [|h [|w [|? ?]]]; try contradiction.
    destruct (shape B) as [|h' [|w' [|? ?]]]; try contradiction.
    simpl in L. subst. eexists. split; reflexivity.
  - intros (n & -> & ->). simpl. repeat split; reflexivity.
Qed.

Lemma rows_of_length (n : nat) (X : ndarray) :
  shape X = [n; n] -> length (rows_of X) = n.
Proof.
  intros S. unfold rows_of. rewrite S, length_map, length_seq. reflexivity.
Qed.

Lemma set_block_length (V X : matrix) :
  (length V <= length X)%nat -> length (set_block 0 0 V X) = length X.
Proof.
  intros H. unfold set_block, slice.
  cbn [firstn skipn Nat.add app].
  rewrite length_app, zip_with_length, length_firstn, length_skipn. lia.
Qed.

Lemma power_of_two_covers (n : nat) : (1 <= n)%nat -> (n <= 2 ^ Nat.log2_up n)%nat.
Proof.
  intros H. destruct (Nat.eq_dec n 1) as [->|Hn]; [simpl; lia|].
  apply Nat.log2_up_spec. lia.
Qed.

Lemma strassen_unfold (fuel n : nat) (A B : ndarray) :
  (1 <= n)%nat -> shape A = [n; n] -> shape B = [n; n] ->
  strassen fuel A B =
  (C <- _strassen fuel
          (set_block 0 0 (rows_of A) (full (2 ^ Nat.log2_up n) 0))
          (set_block 0 0 (rows_of B) (full (2 ^ Nat.log2_up n) 0)) ;;
   Return {| dtype_of := dtype_of C;
             cells := map (slice_to n) (slice_to n (cells C)) |}).
Proof.
  intros Hn SA SB.
  pose proof (power_of_two_covers Hn) as Hcover.
  unfold strassen, _pad, _assert_is_square_matrix, _next_power_of_two, assert,
    ndim, len.
  rewrite SA, SB. cbn [length Nat.eqb hd bind].
  rewrite Nat.eqb_refl. cbn [bind].
  destruct (Nat.eqb_spec n 0) as [C|_]; [lia|]. cbn [bind].
  destruct (Nat.ltb_spec (2 ^ Nat.log2_up n) n) as [C|_]; [lia|]. cbn [bind].
  reflexivity.
Qed.

Lemma rows_of_denotes (n : nat) (X : ndarray) :
  shape X = [n; n] -> length (buffer X) = (n * n)%nat ->
  denotes n (rows_of X) (fun i j => nth (i * n + j) (buffer X) 0).
Proof.
  intros S L. unfold rows_of. rewrite S.
  assert (R : forall i, (i < n)%nat ->
              nth i (map (fun i => slice (i * n) (i * n + n) (buffer X)) (seq 0 n)) []
              = firstn n (skipn (i * n) (buffer X))).
  { intros i Hi.
    rewrite (nth_map_in _ (seq 0 n) O) by (rewrite length_seq; exact Hi).
    rewrite seq_nth by exact Hi. unfold slice. f_equal. lia. }
  split; [split|].
  - rewrite length_map, length_seq. reflexivity.
  - intros i Hi. rewrite R by exact Hi.
    rewrite length_firstn, length_skipn, L. nia.
  - intros i j Hi Hj. unfold cell. rewrite R by exact Hi.
    rewrite nth_firstn, nth_skipn.
    destruct (Nat.ltb_spec j n); [reflexivity | lia].
Qed.

Lemma padded_holds (n n' : nat) (M : Z) (X : ndarray) :
  shape X = [n; n] -> length (buffer X) = (n * n)%nat ->
  Forall (fun z => Z.abs z <= M) (buffer X) -> 0 <= M -> (n <= n')%nat ->
  holds n' M (set_block 0 0 (rows_of X) (full n' 0))
        (fun i j => if in_block 0 0 n i j
                    then nth ((i - 0) * n + (j - 0)) (buffer X) 0 else 0).
Proof.
  intros S L Hall HM Hn. split.
  - apply (@set_block_denotes n' n 0 0 (rows_of X) (full n' 0) _ _
             (full_denotes n' 0) (@rows_of_denotes n X S L)); lia.
  - intros i j Hi Hj. destruct (in_block 0 0 n i j) eqn:E; [|simpl; lia].
    unfold in_block in E. simpl in E.
    apply andb_prop in E. destruct E as [E1 E2].
    apply Nat.ltb_lt in E1. apply Nat.ltb_lt in E2.
    rewrite !Nat.sub_0_r.
    apply (proj1 (Forall_nth _ _) Hall). rewrite L. nia.
Qed.

(** *** Rounding in the result *)

(** [round_f64] against the machine's binary64: the conversion of
    [2^54 + 2^28 + 1] to a float has the significand [2^52 + 2^26] and the
    exponent 2, which is the integer that [round_f64] gives. *)
Example round_f64_is_binary64_conversion :
  FloatOps.Prim2SF (PrimFloat.of_uint63 (Uint63.of_Z 18014398777917441))
  = SpecFloat.S754_finite false 4503599694479360 2
  /\ round_f64 18014398777917441 = 4503599694479360 * 2 ^ 2.
Proof. split; vm_compute; reflexivity. Qed.

(** C2 fails on the code: [_strassen] assembles its result in
    [np.zeros((n, n))], an array of [float64], so a cell of the product that
    needs more than 53 bits is rounded, though the operands and the product
    are integers that [int64] holds.  With [2^27 + 1] in the top left corner
    of both operands the product has [2^54 + 2^28 + 1] there, and [strassen]
    returns [2^54 + 2^28]: not the product by three nested loops. *)
Theorem strassen_rounds_wide_cells :
  strassen 2 wide_cell wide_cell
  = Return {| dtype_of := float64;
              cells := [[18014398777917440; 0]; [0; 0]] |}
  /\ naive_product 2 (rows_of wide_cell) (rows_of wide_cell)
     = [[18014398777917441; 0]; [0; 0]]
  /\ ~ (exists C, strassen 2 wide_cell wide_cell = Return C
                  /\ cells C = naive_product 2 (rows_of wide_cell) (rows_of wide_cell)).
Proof.
  assert (E : strassen 2 wide_cell wide_cell
              = Return {| dtype_of := float64;
                          cells := [[18014398777917440; 0]; [0; 0]] |})
    by (vm_compute; reflexivity).
  split; [exact E|]. split; [vm_compute; reflexivity|].
  intros (C & EC & H). rewrite E in EC. injection EC as <-.
  vm_compute in H. discriminate.
Qed.

(** X20: for square [int64] operands of one side [n >= 1] whose cells are
    of magnitude at most [M], with [4 * n'^2 * M^2 < 2^53] for the
    padded side [n' = 2 ** ceil(log2(n))], [strassen] returns (a recursion
    depth above [log2(n')] is enough) the [n] x [n] matrix equal cell for
    cell to the product by three nested loops; the padding does not show. *)
Theorem strassen_exact_below_53_bits (n : nat) (A B : ndarray) (M : Z) (fuel : nat) :
  (1 <= n)%nat ->
  shape A = [n; n] -> shape B = [n; n] ->
  length (buffer A) = (n * n)%nat -> length (buffer B) = (n * n)%nat ->
  Forall (fun z => Z.abs z <= M) (buffer A) ->
  Forall (fun z => Z.abs z <= M) (buffer B) ->
  4 * (Z.of_nat (2 ^ Nat.log2_up n) * Z.of_nat (2 ^ Nat.log2_up n)) * (M * M)
  < 2 ^ 53 ->
  (Nat.log2_up n < fuel)%nat ->
  exists C,
    strassen fuel A B = Return C
    /\ cells C = naive_product n (rows_of A) (rows_of B)
    /\ is_matrix n n (cells C).
Proof.
  intros Hn SA SB LA LB BA BB Hbound Hfuel.
  pose proof (power_of_two_covers Hn) as Hcover.
  set (n' := (2 ^ Nat.log2_up n)%nat) in *.
  assert (HM : 0 <= M).
  { destruct (buffer A) as [|z l] eqn:E; [simpl in LA; nia|].
    inversion BA; subst. lia. }
  rewrite (@strassen_unfold fuel n A B Hn SA SB). fold n'.
  destruct (@_strassen_exact (Nat.log2_up n) fuel _ _ _ _ M
              (@padded_holds n n' M A SA LA BA HM Hcover)
              (@padded_holds n n' M B SB LB BB HM Hcover)
              HM Hbound Hfuel) as (C & EC & [DC _]).
  fold n' in EC, DC. rewrite EC. cbn [bind].
  eexists. split; [reflexivity|]. cbn [cells].
  pose proof DC as [[LC _] _].
  assert (D : denotes n (map (slice_to n) (slice_to n (cells C)))
                      (mmul n (cell (rows_of A)) (cell (rows_of B)))).
  { unfold slice_to.
    eapply denotes_ext.
    - apply (@block_denotes n' n 0 0 (firstn n (cells C)) (firstn n) (cells C) _ DC).
      + rewrite length_firstn. lia.
      + intros i Hi. rewrite nth_firstn.
        destruct (Nat.ltb_spec i n); [reflexivity | lia].
      + intros row Hrow. apply firstn_rows. lia.
      + lia.
      + lia.
    - intros i j Hi Hj. cbn beta.
      destruct (@rows_of_denotes n A SA LA) as [_ CA].
      destruct (@rows_of_denotes n B SB LB) as [_ CB].
      unfold mmul.
      assert (En : n' = (n + (n' - n))%nat) by lia.
      rewrite En, sum_upto_app.
      rewrite (@sum_upto_zero (n' - n)%nat).
      + rewrite Z.add_0_r. apply sum_upto_ext. intros t Ht.
        unfold in_block. cbn [Nat.add Nat.leb andb].
        repeat match goal with
               | |- context [Nat.ltb ?x ?y] => destruct (Nat.ltb_spec x y); try lia
               end.
        cbn [andb]. rewrite !Nat.sub_0_r, CA, CB by assumption. reflexivity.
      + intros t Ht. unfold in_block. cbn [Nat.add Nat.leb andb].
        destruct (Nat.ltb_spec (n + t) n); [lia|].
        rewrite !andb_false_r. lia. }
  split.
  - apply (denotes_unique D). apply naive_product_denotes.
  - apply D.
Qed.

(** *** Errors *)

(** C8 fails on the code as stated: two 0 x 0 operands are two-dimensional,
    square and of one side, and [strassen] raises for them all the same:
    [_next_power_of_two(0)] takes [math.log2(0)], a domain error. *)
Lemma strassen_raises_on_empty_matrices :
  valid_operands empty_matrix empty_matrix
  /\ (forall fuel,
         strassen fuel empty_matrix empty_matrix
         = Raise (ValueError "math domain error")).
Proof.
  split.
  - unfold valid_operands, two_dimensional, square. simpl. repeat split.
  - intros fuel. reflexivity.
Qed.

Lemma invalid_operands_raise (A B : ndarray) :
  ~ valid_operands A B ->
  exists msg, In msg assertion_messages
              /\ forall fuel, strassen fuel A B = Raise (AssertionError msg).
Proof.
  intros Hbad.
  unfold strassen, _assert_is_square_matrix, assert, ndim, assertion_messages.
  destruct (shape A) as [|h [|w [|x s]]] eqn:SA; cbn [length Nat.eqb bind];
    try (eexists; split; [left; reflexivity | reflexivity]).
  destruct (Nat.eqb_spec h w) as [->|Hhw]; cbn [bind].
  2:{ eexists. split; [right; left; reflexivity | reflexivity]. }
  destruct (shape B) as [|h' [|w' [|x s]]] eqn:SB; cbn [length Nat.eqb bind];
    try (eexists; split; [left; reflexivity | reflexivity]).
  destruct (Nat.eqb_spec h' w') as [->|Hhw]; cbn [bind].
  2:{ eexists. split; [right; left; reflexivity | reflexivity]. }
  unfold len. rewrite SA, SB. cbn [hd].
  destruct (Nat.eqb_spec w w') as [->|Hww]; cbn [bind].
  - exfalso. apply Hbad. apply valid_operands_shape.
    exists w'. split; assumption.
  - eexists. split; [right; right; left; reflexivity | reflexivity].
Qed.

(** Each failed check raises under its own message, in the order in which
    [strassen] makes the checks. *)
Lemma failed_check_message (A B : ndarray) (fuel : nat) :
  (~ two_dimensional A ->
   strassen fuel A B = Raise (AssertionError "Inputs must be matrices"))
  /\ (two_dimensional A -> ~ square A ->
      strassen fuel A B = Raise (AssertionError "Inputs must be square"))
  /\ (two_dimensional A -> square A -> ~ two_dimensional B ->
      strassen fuel A B = Raise (AssertionError "Inputs must be matrices"))
  /\ (two_dimensional A -> square A -> two_dimensional B -> ~ square B ->
      strassen fuel A B = Raise (AssertionError "Inputs must be square"))
  /\ (two_dimensional A -> square A -> two_dimensional B -> square B ->
      len A <> len B ->
      strassen fuel A B
      = Raise (AssertionError "Inputs must be of the same dimension")).
Proof.
  unfold two_dimensional, square, strassen, _assert_is_square_matrix, assert,
    ndim, len.
  destruct (shape A) as [|h [|w [|x s]]]; cbn [length Nat.eqb bind hd];
    try (repeat split; intros; solve [reflexivity | contradiction | lia]).
  destruct (Nat.eqb_spec h w) as [->|Hhw]; cbn [bind];
    [|repeat split; intros; solve [reflexivity | contradiction | lia]].
  destruct (shape B) as [|h' [|w' [|x s]]]; cbn [length Nat.eqb bind hd];
    try (repeat split; intros; solve [reflexivity | contradiction | lia]).
  destruct (Nat.eqb_spec h' w') as [->|Hhw]; cbn [bind];
    [|repeat split; intros; solve [reflexivity | contradiction | lia]].
  destruct (Nat.eqb_spec w w') as [->|Hww]; cbn [bind];
    repeat split; intros; solve [reflexivity | contradiction | lia].
Qed.

(** C8, amended: [strassen] raises an assertion error that names the failed
    precondition, before any recursion (at every recursion depth, none
    included) and with no output, when an operand is not two-dimensional or
    not square or the sides differ; for operands that pass the three checks
    and have a side of at least 1 it raises nothing, and returns once the
    recursion depth exceeds [log2] of the padded side. *)
Theorem strassen_errors (A B : ndarray) :
  (~ valid_operands A B ->
   exists msg, In msg assertion_messages
               /\ forall fuel, strassen fuel A B = Raise (AssertionError msg))
  /\ (forall fuel,
        (~ two_dimensional A ->
         strassen fuel A B = Raise (AssertionError "Inputs must be matrices"))
        /\ (two_dimensional A -> ~ square A ->
            strassen fuel A B = Raise (AssertionError "Inputs must be square"))
        /\ (two_dimensional A -> square A -> ~ two_dimensional B ->
            strassen fuel A B = Raise (AssertionError "Inputs must be matrices"))
        /\ (two_dimensional A -> square A -> two_dimensional B -> ~ square B ->
            strassen fuel A B = Raise (AssertionError "Inputs must be square"))
        /\ (two_dimensional A -> square A -> two_dimensional B -> square B ->
            len A <> len B ->
            strassen fuel A B
            = Raise (AssertionError "Inputs must be of the same dimension")))
  /\ (valid_operands A B -> (1 <= len A)%nat ->
      (forall fuel e, strassen fuel A B <> Raise e)
      /\ (forall fuel, (Nat.log2_up (len A) < fuel)%nat ->
                       exists C, strassen fuel A B = Return C)).
Proof.
  split; [apply invalid_operands_raise|].
  split; [intros fuel; apply failed_check_message|].
  intros Hvalid Hn.
  apply valid_operands_shape in Hvalid. destruct Hvalid as (n & SA & SB).
  unfold len in *. rewrite SA in *. cbn [hd] in *.
  split.
  - intros fuel e. rewrite (@strassen_unfold fuel n A B Hn SA SB). intros H.
    apply bind_raises in H. destruct H as [H | (C & _ & H)]; [|discriminate].
    exact (@_strassen_never_raises fuel _ _ e H).
  - intros fuel Hfuel. rewrite (@strassen_unfold fuel n A B Hn SA SB).
    destruct (@_strassen_returns (Nat.log2_up n) fuel
                (set_block 0 0 (rows_of A) (full (2 ^ Nat.log2_up n) 0))
                (set_block 0 0 (rows_of B) (full (2 ^ Nat.log2_up n) 0)))
      as [C EC].
    + rewrite set_block_length.
      * apply repeat_length.
      * rewrite (@rows_of_length n A SA). unfold full. rewrite repeat_length.
        apply power_of_two_covers, Hn.
    + exact Hfuel.
    + rewrite EC. cbn [bind]. eexists. reflexivity.
Qed.

End StrassenProofs.

(** * Further properties *)

(** ** mergesort.py *)

Module MergesortMore.

Import Mergesort.

Section Stable.

Variable A : Type.
Variable leb : A -> A -> bool.

Local Abbreviation merge := (merge leb).
Local Abbreviation mergesort := (mergesort leb).
Local Abbreviation sorted := (sorted leb).
Local Abbreviation le := (le leb).
Local Abbreviation same_key := (same_key leb).

(** *** Whatever is returned is a permutation of the input *)

Lemma mergesort_permutation (fuel : nat) (l r : list A) :
  mergesort fuel l = Return r -> Permutation l r.
Proof.
  revert l r. induction fuel as [|fuel IH]; intros l r; [discriminate|].
  rewrite MergesortProofs.mergesort_S.
  destruct (length l =? 1).
  - intros [= <-]. reflexivity.
  - destruct (Mergesort.mergesort leb fuel (slice_to (length l / 2) l))
      as [ra| |] eqn:Ea; try discriminate.
    destruct (Mergesort.mergesort leb fuel (slice_from (length l / 2) l))
      as [rb| |] eqn:Eb; try discriminate.
    simpl. intros [= <-].
    rewrite <- MergesortProofs.merge_permutation.
    rewrite <- (IH _ _ Ea), <- (IH _ _ Eb).
    unfold slice_to, slice_from. rewrite firstn_skipn. reflexivity.
Qed.

(** *** The recursion is of logarithmic depth *)

Lemma half_of_power (n k : nat) :
  2 <= n -> n <= 2 ^ S k -> n / 2 <= 2 ^ k /\ n - n / 2 <= 2 ^ k.
Proof.
  intros H2 Hn. rewrite Nat.pow_succ_r' in Hn.
  pose proof (Nat.div_mod_eq n 2) as E.
  pose proof (Nat.mod_upper_bound n 2 ltac:(lia)) as U.
  lia.
Qed.

Lemma mergesort_depth (k : nat) :
  forall (fuel : nat) (l : list A),
    l <> [] -> length l <= 2 ^ k -> k < fuel ->
    exists r, mergesort fuel l = Return r.
Proof.
  induction k as [|k IH]; intros fuel l Hne Hlen Hfuel;
    (destruct fuel as [|fuel]; [lia|]); rewrite MergesortProofs.mergesort_S.
  - assert (E : length l = 1).
    { destruct l; [congruence | simpl in *; lia]. }
    rewrite E. simpl. eexists. reflexivity.
  - destruct (Nat.eqb_spec (length l) 1) as [E1|E1]; [eexists; reflexivity|].
    assert (Hge : 2 <= length l).
    { destruct l as [|? [|? ?]]; simpl in *; try congruence; lia. }
    destruct (half_bounds Hge) as (H1 & H2 & _).
    destruct (@half_of_power (length l) k Hge Hlen) as (Hl & Hr).
    unfold slice_to, slice_from.
    set (mid := length l / 2) in *.
    destruct (IH fuel (firstn mid l)) as (ra & Ea).
    { intros E. apply (f_equal (@length A)) in E.
      rewrite length_firstn in E. simpl in E. lia. }
    { rewrite length_firstn. lia. }
    { lia. }
    destruct (IH fuel (skipn mid l)) as (rb & Eb).
    { intros E. apply (f_equal (@length A)) in E.
      rewrite length_skipn in E. simpl in E. lia. }
    { rewrite length_skipn. lia. }
    { lia. }
    rewrite Ea, Eb. simpl. eexists. reflexivity.
Qed.

Hypothesis leb_total : forall x y, leb x y = true \/ leb y x = true.

(** X3: a non-empty list of at most [2^k] elements is sorted within a
    recursion depth of [k + 1]: the call returns, and what it returns is a
    permutation of the input in non-decreasing order. *)
Theorem mergesort_logarithmic_depth (k fuel : nat) (l : list A) :
  l <> [] -> length l <= 2 ^ k -> k < fuel ->
  exists r, mergesort fuel l = Return r /\ Permutation l r /\ sorted r.
Proof.
  intros Hne Hlen Hfuel.
  destruct (@mergesort_depth k fuel l Hne Hlen Hfuel) as (r & E).
  exists r. split; [exact E|]. split.
  - apply mergesort_permutation with (1 := E).
  - apply (MergesortProofs.mergesort_sorted leb leb_total _ _ E).
Qed.

Hypothesis leb_trans :
  forall x y z, leb x y = true -> leb y z = true -> leb x z = true.

(** *** [mergesort] is a stable sort *)

Lemma mergesort_keeps_order_of_equals (fuel : nat) (l r : list A) (k : A) :
  mergesort fuel l = Return r ->
  filter (same_key k) r = filter (same_key k) l.
Proof.
  revert l r. induction fuel as [|fuel IH]; intros l r; [discriminate|].
  rewrite MergesortProofs.mergesort_S.
  destruct (length l =? 1).
  - intros [= <-]. reflexivity.
  - destruct (Mergesort.mergesort leb fuel (slice_to (length l / 2) l))
      as [ra| |] eqn:Ea; try discriminate.
    destruct (Mergesort.mergesort leb fuel (slice_from (length l / 2) l))
      as [rb| |] eqn:Eb; try discriminate.
    simpl. intros [= <-].
    rewrite (MergesortProofs.merge_keeps_left_first leb_total leb_trans k rb)
      by apply (MergesortProofs.mergesort_sorted leb leb_total _ _ Ea).
    rewrite (IH _ _ Ea), (IH _ _ Eb), <- filter_app.
    unfold slice_to, slice_from. rewrite firstn_skipn. reflexivity.
Qed.

(** X1: [mergesort] is stable.  On a non-empty list it returns a list in
    which the elements of any one key stand in the order they had in the
    input. *)
Theorem mergesort_is_stable (fuel : nat) (l : list A) :
  l <> [] -> length l <= fuel ->
  exists r, mergesort fuel l = Return r
            /\ forall k, filter (same_key k) r = filter (same_key k) l.
Proof.
  intros Hne Hlen.
  destruct (MergesortProofs.mergesort_fuel_needed leb Hne Hlen) as (r & E & _).
  exists r. split; [exact E|].
  intros k. apply mergesort_keeps_order_of_equals with (1 := E).
Qed.

(** *** A sorted list comes back as it is *)

Lemma sorted_app_inv (a b : list A) : sorted (a ++ b) -> sorted a /\ sorted b.
Proof.
  induction a as [|x a IH]; simpl; intros H.
  - split; [constructor | exact H].
  - inversion H as [|? ? Hs Hhd]; subst. destruct (IH Hs) as [Ha Hb].
    split; [|exact Hb]. constructor; [exact Ha|].
    destruct a; [constructor|]. inversion Hhd; subst. constructor. assumption.
Qed.

Lemma merge_of_sorted_halves (a b : list A) :
  sorted (a ++ b) -> merge a b = a ++ b.
Proof.
  induction a as [|x a IH]; intros H.
  - apply MergesortProofs.merge_nil_l.
  - destruct b as [|y b].
    + rewrite MergesortProofs.merge_nil_r, app_nil_r. reflexivity.
    + rewrite MergesortProofs.merge_cons.
      pose proof (MergesortProofs.sorted_head_least leb_trans H) as Hall.
      rewrite Forall_forall in Hall.
      rewrite (Hall y) by (apply in_or_app; right; left; reflexivity).
      simpl. f_equal. apply IH.
      simpl in H. inversion H; assumption.
Qed.

Lemma mergesort_of_sorted (fuel : nat) (l : list A) :
  sorted l -> l <> [] -> length l <= fuel -> mergesort fuel l = Return l.
Proof.
  revert l. induction fuel as [|fuel IH]; intros l Hs Hne Hlen.
  - destruct l; [congruence | simpl in Hlen; lia].
  - rewrite MergesortProofs.mergesort_S.
    destruct (Nat.eqb_spec (length l) 1) as [E1|E1]; [reflexivity|].
    assert (Hge : 2 <= length l).
    { destruct l as [|? [|? ?]]; simpl in *; try congruence; lia. }
    destruct (half_bounds Hge) as (H1 & H2 & _).
    unfold slice_to, slice_from.
    set (mid := length l / 2) in *.
    assert (Hsplit : sorted (firstn mid l ++ skipn mid l))
      by (rewrite firstn_skipn; exact Hs).
    destruct (sorted_app_inv _ _ Hsplit) as [Ha Hb].
    rewrite (IH (firstn mid l)); try assumption.
    2:{ intros E. apply (f_equal (@length A)) in E.
        rewrite length_firstn in E. simpl in E. lia. }
    2:{ rewrite length_firstn. lia. }
    rewrite (IH (skipn mid l)); try assumption.
    2:{ intros E. apply (f_equal (@length A)) in E.
        rewrite length_skipn in E. simpl in E. lia. }
    2:{ rewrite length_skipn. lia. }
    simpl. rewrite (merge_of_sorted_halves _ _ Hsplit), firstn_skipn.
    reflexivity.
Qed.

(** X2: [mergesort] returns a sorted non-empty list as it is, so that
    sorting a second time changes nothing. *)
Theorem mergesort_idempotent (fuel : nat) (l : list A) :
  l <> [] -> length l <= fuel ->
  (sorted l -> mergesort fuel l = Return l)
  /\ exists r, mergesort fuel l = Return r /\ mergesort fuel r = Return r.
Proof.
  intros Hne Hlen. split.
  - intros Hs. apply mergesort_of_sorted; assumption.
  - destruct (MergesortProofs.mergesort_fuel_needed leb Hne Hlen) as (r & E & P).
    exists r. split; [exact E|].
    apply mergesort_of_sorted.
    + apply (MergesortProofs.mergesort_sorted leb leb_total _ _ E).
    + intros ->. apply Permutation_sym, Permutation_nil in P. congruence.
    + rewrite <- (Permutation_length P). exact Hlen.
Qed.

End Stable.

End MergesortMore.

(** ** karatsuba.py *)

Module KaratsubaMore.

Import Karatsuba.

Local Open Scope Z_scope.

(** *** The two parts of [_split_int], bit by bit *)

Lemma split_int_returns (n l : Z) :
  0 <= l -> _split_int n l = Return (Z.shiftr n l, Z.land (2 ^ l - 1) n).
Proof.
  intros Hl. unfold _split_int.
  destruct (Z.ltb_spec l 0); [lia | reflexivity].
Qed.

Lemma low_mask_bit (l i : Z) :
  0 <= l -> 0 <= i -> Z.testbit (2 ^ l - 1) i = (i <? l).
Proof.
  intros Hl Hi.
  replace (2 ^ l - 1) with (Z.ones l) by (rewrite Z.ones_equiv; lia).
  rewrite Z.testbit_ones by exact Hl.
  destruct (Z.leb_spec 0 i); [reflexivity | lia].
Qed.

(** X6: for a split position [l >= 0], [_split_int(n, l)] returns [(a, b)]
    where [b] has the lowermost [l] bits of [n] and no other, and [a] has the
    remaining bits of [n], moved down by [l]; when [l] is at least the bit
    length of a non-negative [n], [a] is zero and [b] is [n]. *)
Theorem split_int_bits (n l : Z) :
  0 <= l ->
  exists a b,
    _split_int n l = Return (a, b)
    /\ (forall i, 0 <= i -> Z.testbit b i = (i <? l) && Z.testbit n i)
    /\ (forall i, 0 <= i -> Z.testbit a i = Z.testbit n (i + l))
    /\ (0 <= n -> bit_length n <= l -> a = 0 /\ b = n).
Proof.
  intros Hl. exists (Z.shiftr n l), (Z.land (2 ^ l - 1) n).
  split; [apply split_int_returns, Hl|]. split; [|split].
  - intros i Hi. rewrite Z.land_spec, low_mask_bit by assumption. reflexivity.
  - intros i Hi. apply Z.shiftr_spec, Hi.
  - intros Hn Hlen.
    assert (Hlt : n < 2 ^ l).
    { destruct (Z.eq_dec n 0) as [->|Hn0]; [apply Z.pow_pos_nonneg; lia|].
      destruct (@KaratsubaProofs.bit_length_bounds n ltac:(lia)) as [_ Hup].
      apply Z.lt_le_trans with (2 ^ bit_length n); [exact Hup|].
      apply Z.pow_le_mono_r; [lia | exact Hlen]. }
    rewrite Z.shiftr_div_pow2 by exact Hl.
    replace (2 ^ l - 1) with (Z.ones l) by (rewrite Z.ones_equiv; lia).
    rewrite Z.land_comm, Z.land_ones by exact Hl.
    split; [apply Z.div_small | apply Z.mod_small]; lia.
Qed.

(** *** Nothing but the assertions raises *)

Lemma _karatsuba_never_raises (fuel : nat) :
  forall (x y : Z) (e : exn), _karatsuba fuel x y <> Raise e.
Proof.
  induction fuel as [|fuel IH]; intros x y e; [discriminate|].
  rewrite KaratsubaProofs._karatsuba_S.
  destruct ((bit_length x =? 0) || (bit_length y =? 0)); [discriminate|].
  destruct (bit_length x =? 1); [discriminate|].
  destruct (bit_length y =? 1); [discriminate|].
  cbv zeta.
  assert (Hh : 0 <= Z.max (bit_length x) (bit_length y) / 2).
  { pose proof (KaratsubaProofs.bit_length_nonneg x).
    apply Z.div_pos; lia. }
  rewrite !split_int_returns by exact Hh. cbn [bind].
  intros H.
  repeat (apply StrassenProofs.bind_raises in H;
          destruct H as [H | (? & _ & H)]; [exact (IH _ _ _ H)|]).
  discriminate.
Qed.

(** X4: [karatsuba] raises its assertion error, at any recursion depth and
    so before any recursion, when an operand is negative; for non-negative
    operands it raises nothing. *)
Theorem karatsuba_rejects_negative (fuel : nat) (x y : Z) :
  (x < 0 \/ y < 0 -> karatsuba fuel x y = Raise (AssertionError EmptyString))
  /\ (0 <= x -> 0 <= y -> forall e, karatsuba fuel x y <> Raise e).
Proof.
  unfold karatsuba, assert. split.
  - intros H. destruct (Z.geb_spec x 0) as [Hx|Hx]; [|reflexivity].
    destruct (Z.geb_spec y 0) as [Hy|Hy]; [lia | reflexivity].
  - intros Hx Hy e.
    destruct (Z.geb_spec x 0) as [_|C]; [|lia].
    destruct (Z.geb_spec y 0) as [_|C]; [|lia].
    cbn [bind]. apply _karatsuba_never_raises.
Qed.

(** *** The recursion is of logarithmic depth *)

Lemma _karatsuba_more_fuel (fuel : nat) :
  forall (x y r : Z) (fuel' : nat),
    _karatsuba fuel x y = Return r -> (fuel <= fuel')%nat ->
    _karatsuba fuel' x y = Return r.
Proof.
  induction fuel as [|fuel IH]; intros x y r fuel' E Hle; [discriminate|].
  destruct fuel' as [|fuel']; [lia|].
  rewrite KaratsubaProofs._karatsuba_S in *.
  destruct ((bit_length x =? 0) || (bit_length y =? 0)); [exact E|].
  destruct (bit_length x =? 1); [exact E|].
  destruct (bit_length y =? 1); [exact E|].
  cbv zeta in *.
  destruct (_split_int x (Z.max (bit_length x) (bit_length y) / 2))
    as [[a b]| |]; try discriminate.
  destruct (_split_int y (Z.max (bit_length x) (bit_length y) / 2))
    as [[c d]| |]; try discriminate.
  cbn [bind] in *.
  destruct (_karatsuba fuel a c) as [ac| |] eqn:E1; try discriminate.
  destruct (_karatsuba fuel b d) as [bd| |] eqn:E2; try discriminate.
  destruct (_karatsuba fuel (a + b) (c + d)) as [abcd| |] eqn:E3;
    try discriminate.
  rewrite (IH _ _ _ fuel' E1), (IH _ _ _ fuel' E2), (IH _ _ _ fuel' E3) by lia.
  exact E.
Qed.

Lemma _karatsuba_four_bits (x y : Z) :
  0 <= x < 16 -> 0 <= y < 16 -> _karatsuba 5 x y = Return (x * y).
Proof.
  intros Hx Hy.
  assert (C : four_bits_checked = true) by (vm_compute; reflexivity).
  unfold four_bits_checked in C. rewrite forallb_forall in C.
  specialize (C (Z.to_nat x)). rewrite forallb_forall in C.
  specialize (C ltac:(apply in_seq; lia) (Z.to_nat y) ltac:(apply in_seq; lia)).
  rewrite !Z2Nat.id in C by lia.
  destruct (_karatsuba 5 x y) as [r| |]; try discriminate.
  apply Z.eqb_eq in C. subst r. reflexivity.
Qed.

Lemma below_power_bit_length (x N : Z) :
  0 <= x < 2 ^ N -> 0 <= N -> bit_length x <= N.
Proof.
  intros Hx HN. destruct (Z.eq_dec x 0) as [->|Hx0]; [exact HN|].
  destruct (@KaratsubaProofs.bit_length_bounds x ltac:(lia)) as [Hlow _].
  destruct (Z.le_gt_cases (bit_length x) N) as [H|H]; [exact H|].
  assert (2 ^ N <= 2 ^ (bit_length x - 1)) by (apply Z.pow_le_mono_r; lia).
  lia.
Qed.

(** Splitting operands below [2^(2P+3)] at half their bit length leaves high
    and low parts whose sum is below [2^(P+3)]. *)
Lemma parts_below (x n P : Z) :
  1 <= P -> 0 <= x -> bit_length x <= n -> 2 <= n -> n <= 2 * P + 3 ->
  0 <= x / 2 ^ (n / 2) /\ 0 <= x mod 2 ^ (n / 2)
  /\ x / 2 ^ (n / 2) + x mod 2 ^ (n / 2) < 2 ^ (P + 3).
Proof.
  intros HP Hx Hbl Hn HN.
  set (h := n / 2).
  assert (Hh : 1 <= h /\ h <= P + 1 /\ n - h <= P + 2 /\ h <= n).
  { unfold h. pose proof (Z.div_mod n 2 ltac:(lia)).
    pose proof (Z.mod_pos_bound n 2 ltac:(lia)). lia. }
  assert (Hp : 0 < 2 ^ h) by (apply Z.pow_pos_nonneg; lia).
  assert (Hxn : x < 2 ^ h * 2 ^ (n - h)).
  { rewrite <- Z.pow_add_r by lia. replace (h + (n - h)) with n by lia.
    destruct (Z.eq_dec x 0) as [->|Hx0]; [apply Z.pow_pos_nonneg; lia|].
    destruct (@KaratsubaProofs.bit_length_bounds x ltac:(lia)) as [_ Hup].
    apply Z.lt_le_trans with (2 ^ bit_length x); [exact Hup|].
    apply Z.pow_le_mono_r; lia. }
  assert (Ha : x / 2 ^ h < 2 ^ (n - h))
    by (apply Z.div_lt_upper_bound; assumption).
  pose proof (Z.mod_pos_bound x (2 ^ h) Hp) as Hb.
  pose proof (Z.div_pos x (2 ^ h) Hx Hp) as Ha0.
  assert (H1 : 2 ^ (n - h) <= 2 ^ (P + 2)) by (apply Z.pow_le_mono_r; lia).
  assert (H2 : 2 ^ h <= 2 ^ (P + 1)) by (apply Z.pow_le_mono_r; lia).
  assert (H3 : 2 ^ (P + 3) = 2 * 2 ^ (P + 2)).
  { replace (P + 3) with (Z.succ (P + 2)) by lia. apply Z.pow_succ_r. lia. }
  assert (H4 : 2 ^ (P + 2) = 2 * 2 ^ (P + 1)).
  { replace (P + 2) with (Z.succ (P + 1)) by lia. apply Z.pow_succ_r. lia. }
  lia.
Qed.

Lemma _karatsuba_depth (k : nat) :
  forall (fuel : nat) (x y : Z),
    0 <= x < 2 ^ (2 ^ Z.of_nat k + 3) ->
    0 <= y < 2 ^ (2 ^ Z.of_nat k + 3) ->
    (k + 5 <= fuel)%nat ->
    _karatsuba fuel x y = Return (x * y).
Proof.
  induction k as [|k IH]; intros fuel x y Hx Hy Hfuel.
  - change (2 ^ (2 ^ Z.of_nat 0 + 3)) with 16 in *.
    apply (@_karatsuba_more_fuel 5); [|lia].
    apply _karatsuba_four_bits; assumption.
  - destruct fuel as [|fuel]; [lia|].
    set (P := 2 ^ Z.of_nat k) in *.
    assert (HP : 1 <= P).
    { unfold P. pose proof (Z.pow_pos_nonneg 2 (Z.of_nat k)). lia. }
    assert (EN : 2 ^ Z.of_nat (S k) + 3 = 2 * P + 3).
    { rewrite Nat2Z.inj_succ, Z.pow_succ_r by lia. reflexivity. }
    rewrite EN in Hx, Hy.
    rewrite KaratsubaProofs._karatsuba_S.
    destruct (Z.eqb_spec (bit_length x) 0) as [X0|X0].
    { apply (proj1 (KaratsubaProofs.bit_length_zero x)) in X0. subst x.
      reflexivity. }
    destruct (Z.eqb_spec (bit_length y) 0) as [Y0|Y0].
    { apply (proj1 (KaratsubaProofs.bit_length_zero y)) in Y0. subst y.
      simpl. f_equal. lia. }
    simpl orb. cbv iota.
    destruct (Z.eqb_spec (bit_length x) 1) as [X1|X1].
    { apply KaratsubaProofs.bit_length_one in X1; [|lia]. subst x.
      f_equal. lia. }
    destruct (Z.eqb_spec (bit_length y) 1) as [Y1|Y1].
    { apply KaratsubaProofs.bit_length_one in Y1; [|lia]. subst y.
      f_equal. lia. }
    pose proof (KaratsubaProofs.bit_length_nonneg x) as Lx.
    pose proof (KaratsubaProofs.bit_length_nonneg y) as Ly.
    pose proof (@below_power_bit_length x (2 * P + 3) Hx ltac:(lia)) as Bx.
    pose proof (@below_power_bit_length y (2 * P + 3) Hy ltac:(lia)) as By.
    cbv zeta.
    set (n := Z.max (bit_length x) (bit_length y)).
    assert (Hn : 2 <= n /\ n <= 2 * P + 3) by (unfold n; lia).
    assert (Hh : 1 <= n / 2).
    { apply Z.div_le_lower_bound; lia. }
    rewrite (@KaratsubaProofs.split_int_spec x (n / 2)) by lia.
    rewrite (@KaratsubaProofs.split_int_spec y (n / 2)) by lia.
    cbn [bind].
    destruct (@parts_below x n P HP ltac:(lia) ltac:(unfold n; lia)
                (proj1 Hn) (proj2 Hn)) as (Ha & Hb & Hab).
    destruct (@parts_below y n P HP ltac:(lia) ltac:(unfold n; lia)
                (proj1 Hn) (proj2 Hn)) as (Hc & Hd & Hcd).
    set (h := n / 2) in *.
    set (a := x / 2 ^ h) in *. set (b := x mod 2 ^ h) in *.
    set (c := y / 2 ^ h) in *. set (d := y mod 2 ^ h) in *.
    rewrite (IH fuel a c) by (fold P; lia).
    rewrite (IH fuel b d) by (fold P; lia).
    rewrite (IH fuel (a + b) (c + d)) by (fold P; lia).
    cbn [bind]. f_equal.
    rewrite KaratsubaProofs.recombine by lia.
    assert (Hp : 0 < 2 ^ h) by (apply Z.pow_pos_nonneg; lia).
    assert (Ex : a * 2 ^ h + b = x).
    { unfold a, b. rewrite Z.mul_comm. symmetry. apply Z.div_mod. lia. }
    assert (Ey : c * 2 ^ h + d = y).
    { unfold c, d. rewrite Z.mul_comm. symmetry. apply Z.div_mod. lia. }
    rewrite Ex, Ey. reflexivity.
Qed.

(** X5: the recursion of [karatsuba] is of logarithmic depth in the bit
    length of its operands: for non-negative operands of at most [2^k + 3]
    bits a depth of [k + 5] is enough, and the result is the product. *)
Theorem karatsuba_logarithmic_depth (k fuel : nat) (x y : Z) :
  0 <= x < 2 ^ (2 ^ Z.of_nat k + 3) ->
  0 <= y < 2 ^ (2 ^ Z.of_nat k + 3) ->
  (k + 5 <= fuel)%nat ->
  karatsuba fuel x y = Return (x * y).
Proof.
  intros Hx Hy Hfuel. unfold karatsuba, assert.
  destruct (Z.geb_spec x 0) as [_|C]; [|lia].
  destruct (Z.geb_spec y 0) as [_|C]; [|lia].
  cbn [bind]. apply (@_karatsuba_depth k); assumption.
Qed.

End KaratsubaMore.

(** ** closestpoints.py *)

Module ClosestPointsMore.

Import ClosestPoints.

Local Open Scope Z_scope.

(** *** The squared distance *)

(** X7: [distance] is symmetric and never negative, and it is zero exactly
    between a point and itself. *)
Theorem distance_is_a_squared_metric (p q : point) :
  distance p q = distance q p
  /\ 0 <= distance p q
  /\ (distance p q = 0 <-> p = q).
Proof.
  destruct p as [x y], q as [x' y']. unfold distance, px, py. cbn [fst snd].
  split; [ring|]. split; [nia|]. split.
  - intros H. assert (x - x' = 0) by nia. assert (y - y' = 0) by nia.
    f_equal; lia.
  - intros [= -> ->]. ring.
Qed.

Lemma distance_sym (p q : point) : distance p q = distance q p.
Proof. unfold distance. ring. Qed.

Lemma distance_nonneg (p q : point) : 0 <= distance p q.
Proof. unfold distance. nia. Qed.

(** *** Errors *)

Lemma _closest_pair_nil (fuel : nat) : _closest_pair fuel [] = OutOfFuel.
Proof.
  induction fuel as [|fuel IH]; [reflexivity|].
  simpl. rewrite IH. reflexivity.
Qed.

Lemma _closest_pair_never_raises (fuel : nat) :
  forall (points : list point) (e : exn), _closest_pair fuel points <> Raise e.
Proof.
  induction fuel as [|fuel IH]; intros points e; [discriminate|].
  destruct (le_lt_dec 3 (length points)) as [H3|H3].
  - rewrite ClosestPointsProofs._closest_pair_S by exact H3. cbv zeta.
    destruct (@half_bounds (length points) ltac:(lia)) as (_ & M2 & _).
    destruct (nth_error points (length points / 2)) as [m|] eqn:Em.
    2:{ apply nth_error_None in Em. lia. }
    intros H.
    apply StrassenProofs.bind_raises in H.
    destruct H as [H | ([pql ysl] & _ & H)]; [exact (IH _ _ H)|].
    apply StrassenProofs.bind_raises in H.
    destruct H as [H | ([pqr ysr] & _ & H)]; [exact (IH _ _ H)|].
    discriminate.
  - destruct points as [|p [|q [|r rest]]]; simpl in H3; try lia.
    + rewrite _closest_pair_nil. discriminate.
    + discriminate.
    + discriminate.
Qed.

(** X8: [closest_pair] raises its assertion error, with its message and at
    any recursion depth, when it is given fewer than two points; given two or
    more it raises nothing. *)
Theorem closest_pair_needs_two_points (fuel : nat) (points : list point) :
  ((length points < 2)%nat ->
   closest_pair fuel points
   = Raise (AssertionError "Finding a closest pair requires 2 or more elements!"))
  /\ ((2 <= length points)%nat -> forall e, closest_pair fuel points <> Raise e).
Proof.
  unfold closest_pair, assert. split.
  - intros H. destruct (Nat.leb_spec 2 (length points)); [lia | reflexivity].
  - intros H e. destruct (Nat.leb_spec 2 (length points)); [|lia].
    cbn [bind]. intros E.
    apply StrassenProofs.bind_raises in E.
    destruct E as [E | ([pq ys] & _ & E)]; [|discriminate].
    exact (_closest_pair_never_raises _ _ E).
Qed.

(** *** [sorted] by a key *)

Lemma insert_by_permutation (key : point -> Z) (p : point) (l : list point) :
  Permutation (p :: l) (insert_by key p l).
Proof.
  induction l as [|q l IH]; simpl; [reflexivity|].
  destruct (key p <=? key q); [reflexivity|].
  rewrite perm_swap. constructor. exact IH.
Qed.

Lemma sorted_by_permutation (key : point -> Z) (l : list point) :
  Permutation l (sorted_by key l).
Proof.
  induction l as [|p l IH]; simpl; [reflexivity|].
  rewrite <- insert_by_permutation. constructor. exact IH.
Qed.

Lemma insert_by_y_sorted (p : point) (l : list point) :
  y_sorted l -> y_sorted (insert_by py p l).
Proof.
  unfold y_sorted, Mergesort.sorted. induction l as [|q l IH]; simpl; intros Hs.
  - repeat constructor.
  - destruct (Z.leb_spec (py p) (py q)) as [Hle|Hgt].
    + constructor; [exact Hs | constructor; apply Z.leb_le; exact Hle].
    + inversion Hs as [|? ? Hl Hhd]; subst.
      constructor; [apply IH; exact Hl|].
      destruct l as [|r l]; simpl.
      * constructor. apply Z.leb_le. lia.
      * inversion Hhd; subst.
        destruct (py p <=? py r); constructor;
          [apply Z.leb_le; lia | assumption].
Qed.

Lemma sorted_by_y_sorted (l : list point) : y_sorted (sorted_by py l).
Proof.
  induction l as [|p l IH]; simpl.
  - constructor.
  - apply insert_by_y_sorted. exact IH.
Qed.

(** *** The third component: the points in y-order *)

Lemma _closest_pair_y_order (fuel : nat) :
  forall (points : list point) (pq : option (point * point)) (ys : list point),
    _closest_pair fuel points = Return (pq, ys) ->
    Permutation points ys /\ y_sorted ys.
Proof.
  induction fuel as [|fuel IH]; intros points pq ys; [discriminate|].
  destruct (le_lt_dec 3 (length points)) as [H3|H3].
  - rewrite ClosestPointsProofs._closest_pair_S by exact H3. cbv zeta.
    destruct (_closest_pair fuel (slice_to (length points / 2) points))
      as [[pql ysl]| |] eqn:El; try discriminate.
    destruct (_closest_pair fuel (slice_from (length points / 2) points))
      as [[pqr ysr]| |] eqn:Er; try discriminate.
    cbn [bind].
    destruct (nth_error points (length points / 2)) as [m|]; [|discriminate].
    intros [= _ <-].
    destruct (IH _ _ _ El) as [Pl Sl]. destruct (IH _ _ _ Er) as [Pr Sr].
    rewrite ClosestPointsProofs.merge_eq. split.
    + rewrite <- MergesortProofs.merge_permutation, <- Pl, <- Pr.
      unfold slice_to, slice_from. rewrite firstn_skipn. reflexivity.
    + apply (MergesortProofs.merge_sorted ClosestPointsProofs.leb_y_total);
        assumption.
  - destruct points as [|p [|q [|r rest]]]; simpl in H3; try lia.
    + rewrite _closest_pair_nil. discriminate.
    + intros [= _ <-]. split; [reflexivity | repeat constructor].
    + intros [= _ <-]. split;
        [exact (sorted_by_permutation py [p; q])
        | exact (sorted_by_y_sorted [p; q])].
Qed.

(** *** The recursion is of logarithmic depth *)

Lemma _closest_pair_depth (k : nat) :
  forall (fuel : nat) (points : list point),
    (1 <= length points)%nat -> (length points <= 2 ^ k)%nat -> (k < fuel)%nat ->
    exists pq ys, _closest_pair fuel points = Return (pq, ys).
Proof.
  induction k as [|k IH]; intros fuel points H1 Hlen Hfuel;
    (destruct fuel as [|fuel]; [lia|]).
  - destruct points as [|p [|q rest]]; simpl in *; try lia.
    eexists _, _. reflexivity.
  - destruct (le_lt_dec 3 (length points)) as [H3|H3].
    + rewrite ClosestPointsProofs._closest_pair_S by exact H3. cbv zeta.
      destruct (@half_bounds (length points) ltac:(lia)) as (M1 & M2 & _).
      destruct (@MergesortMore.half_of_power (length points) k ltac:(lia) Hlen)
        as (Hl & Hr).
      unfold slice_to, slice_from.
      set (mid := (length points / 2)%nat) in *.
      destruct (IH fuel (firstn mid points)) as (pql & ysl & El);
        [rewrite length_firstn; lia | rewrite length_firstn; lia | lia |].
      destruct (IH fuel (skipn mid points)) as (pqr & ysr & Er);
        [rewrite length_skipn; lia | rewrite length_skipn; lia | lia |].
      rewrite El, Er. cbn [bind].
      destruct (nth_error points mid) as [m|] eqn:Em.
      2:{ apply nth_error_None in Em. lia. }
      eexists _, _. reflexivity.
    + destruct points as [|p [|q [|r rest]]]; simpl in H1, H3; try lia;
        eexists _, _; reflexivity.
Qed.

(** *** The strip scan and the reference loops, entry by entry *)

Local Abbreviation dle a b := (dist_leb a b = true).

Lemma fold_enumerate_from (S : Type) (g : S -> nat -> point -> S)
  (h : S -> point -> list point -> S) (strip : list point) :
  (forall s pre q rest, strip = pre ++ q :: rest -> g s (length pre) q = h s q rest) ->
  forall (l pre : list point) (s : S),
    strip = pre ++ l ->
    fold_left (fun b iq => g b (fst iq) (snd iq))
      (combine (seq (length pre) (length l)) l) s
    = fold_suffix h l s.
Proof.
  intros Hg. induction l as [|q rest IH]; intros pre s E; [reflexivity|].
  cbn [length seq combine fold_left fold_suffix fst snd].
  rewrite (Hg s pre q rest E).
  specialize (IH (pre ++ [q]) (h s q rest)).
  rewrite length_app in IH. cbn [length] in IH. rewrite Nat.add_1_r in IH.
  apply IH. rewrite <- app_assoc. exact E.
Qed.

Lemma skipn_past (pre : list point) (q : point) (rest : list point) :
  skipn (length pre + 1) (pre ++ q :: rest) = rest.
Proof.
  rewrite Nat.add_1_r. induction pre as [|x pre IH]; [reflexivity|].
  exact IH.
Qed.

Lemma scan_strip_suffixes (strip : list point) (bst : best) :
  scan_strip strip bst
  = fold_suffix (fun b q1 rest => scan_window b q1 (firstn 7 rest)) strip bst.
Proof.
  unfold scan_strip, enumerate.
  apply (@fold_enumerate_from best
           (fun b idx q => scan_window b q (slice (idx + 1) (idx + 8) strip))
           (fun b q1 rest => scan_window b q1 (firstn 7 rest))
           strip) with (pre := @nil point); [|reflexivity].
  intros s pre q rest E. unfold slice.
  replace (length pre + 8 - (length pre + 1))%nat with 7%nat by lia.
  rewrite E at 1. rewrite skipn_past. reflexivity.
Qed.

Lemma update_best_fst (b : best) (q1 q2 : point) :
  fst (update_best b q1 q2)
  = if lt_dist (distance q1 q2) (fst b) then Finite (distance q1 q2) else fst b.
Proof. unfold update_best. destruct (lt_dist _ _); reflexivity. Qed.

Lemma scan_window_fst (q1 : point) (w : list point) :
  forall b : best,
    fst (scan_window b q1 w)
    = fold_left
        (fun best_d q =>
           if lt_dist (distance q1 q) best_d
           then Finite (distance q1 q) else best_d) w (fst b).
Proof.
  unfold scan_window. induction w as [|q2 w IH]; intros b; [reflexivity|].
  cbn [fold_left]. rewrite IH, update_best_fst. reflexivity.
Qed.

Lemma brute_force_suffixes (points : list point) :
  brute_force points
  = fst (fold_suffix (fun b q1 rest => scan_window b q1 rest) points (Inf, None)).
Proof.
  unfold brute_force, enumerate.
  rewrite (@fold_enumerate_from dist
             (fun best_d idx p =>
                fold_left
                  (fun best_d q =>
                     if lt_dist (distance p q) best_d
                     then Finite (distance p q) else best_d)
                  (slice_from (idx + 1) points) best_d)
             (fun best_d p rest =>
                fold_left
                  (fun best_d q =>
                     if lt_dist (distance p q) best_d
                     then Finite (distance p q) else best_d)
                  rest best_d)
             points) with (pre := @nil point); [| |reflexivity].
  - change Inf with (fst (Inf, @None (point * point))) at 1.
    generalize (Inf, @None (point * point)).
    induction points as [|p rest IH]; intros b; [reflexivity|].
    cbn [fold_suffix]. rewrite <- IH, scan_window_fst. reflexivity.
  - intros s pre q rest E. unfold slice_from. rewrite E at 1.
    rewrite skipn_past. reflexivity.
Qed.

(** *** Distances, with infinity *)

Lemma dist_leb_refl (a : dist) : dle a a.
Proof. destruct a; simpl; [apply Z.leb_refl | reflexivity]. Qed.

Lemma dist_leb_trans (a b c : dist) : dle a b -> dle b c -> dle a c.
Proof.
  destruct a, b, c; simpl; try discriminate; try reflexivity.
  intros H1 H2. apply Z.leb_le in H1, H2. apply Z.leb_le. lia.
Qed.

Lemma dist_leb_flip (a b : dist) : dist_leb a b = false -> dle b a.
Proof.
  destruct a, b; simpl; try discriminate; try reflexivity.
  intros H. apply Z.leb_gt in H. apply Z.leb_le. lia.
Qed.

Lemma dist_leb_antisym (a b : dist) : dle a b -> dle b a -> a = b.
Proof.
  destruct a, b; simpl; try discriminate; try reflexivity.
  intros H1 H2. apply Z.leb_le in H1, H2. f_equal. lia.
Qed.

Lemma pair_dist_ordered (q1 q2 : point) :
  pair_dist (Some (ordered q1 q2)) = Finite (distance q1 q2).
Proof.
  unfold ordered. destruct (px q1 <=? px q2); simpl; [reflexivity|].
  rewrite distance_sym. reflexivity.
Qed.

(** *** What one update, one window and one scan do to the best pair *)

Lemma update_best_spec (b : best) (q1 q2 : point) :
  coherent b ->
  coherent (update_best b q1 q2)
  /\ dle (fst (update_best b q1 q2)) (fst b)
  /\ dle (fst (update_best b q1 q2)) (Finite (distance q1 q2))
  /\ (update_best b q1 q2 = b
      \/ update_best b q1 q2 = (Finite (distance q1 q2), Some (ordered q1 q2))).
Proof.
  intros Hb. unfold update_best. cbv zeta. fold (ordered q1 q2).
  destruct (lt_dist (distance q1 q2) (fst b)) eqn:E.
  - split; [|split; [|split]].
    + unfold coherent. cbn [fst snd]. rewrite pair_dist_ordered. reflexivity.
    + cbn [fst]. destruct (fst b); simpl in *; [|reflexivity].
      apply Z.ltb_lt in E. apply Z.leb_le. lia.
    + apply dist_leb_refl.
    + right. reflexivity.
  - split; [exact Hb|]. split; [apply dist_leb_refl|]. split; [|left; reflexivity].
    destruct (fst b); simpl in *; [|discriminate].
    apply Z.ltb_ge in E. apply Z.leb_le. exact E.
Qed.

Lemma scan_window_spec (q1 : point) (w : list point) :
  forall b : best,
    coherent b ->
    coherent (scan_window b q1 w)
    /\ dle (fst (scan_window b q1 w)) (fst b)
    /\ (forall q2, In q2 w ->
        dle (fst (scan_window b q1 w)) (Finite (distance q1 q2)))
    /\ (scan_window b q1 w = b
        \/ exists q2, In q2 w
           /\ scan_window b q1 w
              = (Finite (distance q1 q2), Some (ordered q1 q2))).
Proof.
  unfold scan_window. induction w as [|q2 w IH]; intros b Hb.
  - cbn [fold_left]. split; [exact Hb|]. split; [apply dist_leb_refl|].
    split; [intros ? []|]. left. reflexivity.
  - cbn [fold_left].
    destruct (update_best_spec q1 q2 Hb) as (C1 & L1 & D1 & W1).
    destruct (IH _ C1) as (C2 & L2 & D2 & W2).
    split; [exact C2|]. split; [exact (dist_leb_trans _ _ _ L2 L1)|]. split.
    + intros q [<-|Hq]; [exact (dist_leb_trans _ _ _ L2 D1)|]. apply D2, Hq.
    + destruct W2 as [W2|(q & Hq & W2)].
      * rewrite W2. destruct W1 as [W1|W1]; [left; exact W1|].
        right. exists q2. split; [left; reflexivity | exact W1].
      * right. exists q. split; [right; exact Hq | exact W2].
Qed.

Lemma visited_tail (win : list point -> list point) (q : point)
  (rest : list point) (q1 q2 : point) :
  visited win rest q1 q2 -> visited win (q :: rest) q1 q2.
Proof.
  intros (l1 & l2 & -> & H). exists (q :: l1), l2. split; [reflexivity | exact H].
Qed.

Lemma scan_all_spec (win : list point -> list point) (l : list point) :
  forall b : best,
    coherent b ->
    let r := fold_suffix (fun b q1 rest => scan_window b q1 (win rest)) l b in
    coherent r
    /\ dle (fst r) (fst b)
    /\ (forall q1 q2, visited win l q1 q2 ->
        dle (fst r) (Finite (distance q1 q2)))
    /\ (r = b
        \/ exists q1 q2, visited win l q1 q2
           /\ r = (Finite (distance q1 q2), Some (ordered q1 q2))).
Proof.
  induction l as [|q rest IH]; intros b Hb; cbv zeta.
  - cbn [fold_suffix]. split; [exact Hb|]. split; [apply dist_leb_refl|]. split.
    + intros q1 q2 (l1 & l2 & E & _). destruct l1; discriminate.
    + left. reflexivity.
  - cbn [fold_suffix].
    destruct (scan_window_spec q (win rest) Hb) as (C1 & L1 & D1 & W1).
    destruct (IH _ C1) as (C2 & L2 & D2 & W2). cbv zeta in *.
    split; [exact C2|]. split; [exact (dist_leb_trans _ _ _ L2 L1)|]. split.
    + intros q1 q2 (l1 & l2 & E & Hq). destruct l1 as [|x l1].
      * injection E as <- <-. exact (dist_leb_trans _ _ _ L2 (D1 _ Hq)).
      * injection E as <- ->. apply D2. exists l1, l2. split; [reflexivity|exact Hq].
    + destruct W2 as [W2|(q1 & q2 & V & W2)].
      * rewrite W2. destruct W1 as [W1|(q2 & Hq & W1)]; [left; exact W1|].
        right. exists q, q2. split; [|exact W1].
        exists [], rest. split; [reflexivity | exact Hq].
      * right. exists q1, q2. split; [apply visited_tail; exact V | exact W2].
Qed.

(** *** Two entries of a list *)

Lemma two_of_sym (l : list point) (p q : point) : two_of l p q -> two_of l q p.
Proof.
  intros (rest & P). exists rest. rewrite P. apply perm_swap.
Qed.

Lemma two_of_permutation (l l' : list point) (p q : point) :
  Permutation l l' -> two_of l p q -> two_of l' p q.
Proof.
  intros P (rest & H). exists rest. rewrite <- P. exact H.
Qed.

Lemma two_of_app_l (a b : list point) (p q : point) :
  two_of a p q -> two_of (a ++ b) p q.
Proof.
  intros (rest & P). exists (rest ++ b). rewrite P. reflexivity.
Qed.

Lemma two_of_app_r (a b : list point) (p q : point) :
  two_of b p q -> two_of (a ++ b) p q.
Proof.
  intros H. apply two_of_permutation with (l := b ++ a);
    [apply Permutation_app_comm | apply two_of_app_l; exact H].
Qed.

Lemma two_of_cons (p q : point) (m : list point) :
  In q m -> two_of (p :: m) p q.
Proof.
  intros H. apply in_split in H. destruct H as (m1 & m2 & ->).
  exists (m1 ++ m2). constructor. symmetry. apply Permutation_middle.
Qed.

Lemma two_of_length (l : list point) (p q : point) :
  two_of l p q -> (2 <= length l)%nat.
Proof.
  intros (rest & P). rewrite (Permutation_length P). simpl. lia.
Qed.

Lemma two_of_cons_inv (x : point) (m : list point) (p q : point) :
  two_of (x :: m) p q ->
  (x = p /\ In q m) \/ (x = q /\ In p m) \/ two_of m p q.
Proof.
  intros (rest & P).
  assert (Hx : In x (p :: q :: rest)).
  { apply (Permutation_in _ P). left. reflexivity. }
  destruct Hx as [Hx|[Hx|Hx]].
  - subst p. left. split; [reflexivity|]. apply Permutation_cons_inv in P.
    apply (Permutation_in _ (Permutation_sym P)). left. reflexivity.
  - subst q. right. left. split; [reflexivity|].
    rewrite (perm_swap x p rest) in P. apply Permutation_cons_inv in P.
    apply (Permutation_in _ (Permutation_sym P)). left. reflexivity.
  - right. right. apply in_split in Hx. destruct Hx as (r1 & r2 & ->).
    exists (r1 ++ r2).
    apply Permutation_cons_inv with (a := x).
    rewrite P.
    symmetry. exact (Permutation_middle (p :: q :: r1) r2 x).
Qed.

Lemma two_of_app_inv (a b : list point) (p q : point) :
  two_of (a ++ b) p q ->
  two_of a p q \/ two_of b p q \/ (In p a /\ In q b) \/ (In q a /\ In p b).
Proof.
  induction a as [|x a IH]; intros H.
  - right. left. exact H.
  - apply two_of_cons_inv in H. destruct H as [(-> & Hq)|[(-> & Hp)|H]].
    + apply in_app_or in Hq. destruct Hq as [Hq|Hq].
      * left. apply two_of_cons. exact Hq.
      * right. right. left. split; [left; reflexivity | exact Hq].
    + apply in_app_or in Hp. destruct Hp as [Hp|Hp].
      * left. apply two_of_sym, two_of_cons. exact Hp.
      * right. right. right. split; [left; reflexivity | exact Hp].
    + destruct (IH H) as [H1|[H1|[(H1 & H2)|(H1 & H2)]]].
      * left. apply (@two_of_app_r [x] a). exact H1.
      * right. left. exact H1.
      * right. right. left. split; [right; exact H1 | exact H2].
      * right. right. right. split; [right; exact H1 | exact H2].
Qed.

Lemma two_of_positions (l : list point) (p q : point) :
  two_of l p q ->
  exists l1 l2, (l = l1 ++ p :: l2 /\ In q l2) \/ (l = l1 ++ q :: l2 /\ In p l2).
Proof.
  induction l as [|x l IH]; intros H.
  - apply two_of_length in H. simpl in H. lia.
  - apply two_of_cons_inv in H. destruct H as [(-> & Hq)|[(-> & Hp)|H]].
    + exists [], l. left. split; [reflexivity | exact Hq].
    + exists [], l. right. split; [reflexivity | exact Hp].
    + destruct (IH H) as (l1 & l2 & [(-> & Hq)|(-> & Hp)]);
        exists (x :: l1), l2; [left | right]; split; try reflexivity; assumption.
Qed.

Lemma filter_complement (f : point -> bool) (l : list point) :
  Permutation l (filter f l ++ filter (fun x => negb (f x)) l).
Proof.
  induction l as [|x l IH]; [reflexivity|]. simpl.
  destruct (f x); simpl.
  - constructor. exact IH.
  - rewrite <- Permutation_middle. constructor. exact IH.
Qed.

Lemma two_of_filter (f : point -> bool) (l : list point) (p q : point) :
  two_of (filter f l) p q -> two_of l p q.
Proof.
  intros H. apply two_of_permutation with (1 := Permutation_sym (filter_complement f l)).
  apply two_of_app_l. exact H.
Qed.

Lemma filter_two_of (f : point -> bool) (l : list point) (p q : point) :
  two_of l p q -> f p = true -> f q = true -> two_of (filter f l) p q.
Proof.
  intros H Hp Hq.
  apply two_of_permutation with (1 := filter_complement f l) in H.
  apply two_of_app_inv in H.
  destruct H as [H|[H|[(H1 & H2)|(H1 & H2)]]].
  - exact H.
  - destruct H as (rest & P).
    assert (Hin : In p (filter (fun x => negb (f x)) l)).
    { apply (Permutation_in _ (Permutation_sym P)). left. reflexivity. }
    apply filter_In in Hin. rewrite Hp in Hin. destruct Hin; discriminate.
  - apply filter_In in H2. rewrite Hq in H2. destruct H2; discriminate.
  - apply filter_In in H2. rewrite Hp in H2. destruct H2; discriminate.
Qed.

Lemma in_firstn (n : nat) (l : list point) (q : point) :
  In q (firstn n l) -> In q l.
Proof.
  intros H. rewrite <- (firstn_skipn n l). apply in_or_app. left. exact H.
Qed.

Lemma visited_two_of (win : list point -> list point) (l : list point)
  (q1 q2 : point) :
  (forall m x, In x (win m) -> In x m) ->
  visited win l q1 q2 -> two_of l q1 q2.
Proof.
  intros Hw (l1 & l2 & -> & H). apply two_of_app_r, two_of_cons, Hw, H.
Qed.

Lemma two_of_visited (win : list point -> list point) (l : list point)
  (p q : point) :
  (forall l1 x l2, l = l1 ++ x :: l2 -> win l2 = l2) ->
  two_of l p q -> visited win l p q \/ visited win l q p.
Proof.
  intros Hw H. destruct (two_of_positions H) as (l1 & l2 & [(E & Hq)|(E & Hp)]).
  - left. exists l1, l2. split; [exact E|]. rewrite (Hw _ _ _ E). exact Hq.
  - right. exists l1, l2. split; [exact E|]. rewrite (Hw _ _ _ E). exact Hp.
Qed.

(** *** The reference loops of [test_random] *)

Lemma brute_force_spec (points : list point) :
  (forall p q, two_of points p q ->
               dle (brute_force points) (Finite (distance p q)))
  /\ (brute_force points = Inf
      \/ exists p q, two_of points p q
                     /\ brute_force points = Finite (distance p q)).
Proof.
  rewrite brute_force_suffixes.
  destruct (@scan_all_spec (fun l => l) points (Inf, None) eq_refl)
    as (_ & _ & D & W).
  cbv zeta beta in D, W. split.
  - intros p q H.
    destruct (@two_of_visited (fun l => l) points p q
                (fun _ _ _ _ => eq_refl) H) as [V|V].
    + apply D, V.
    + rewrite distance_sym. apply D, V.
  - destruct W as [W|(q1 & q2 & V & W)].
    + left. rewrite W. reflexivity.
    + right. exists q1, q2. split.
      * apply visited_two_of with (win := fun l : list point => l);
          [intros m x Hx; exact Hx | exact V].
      * rewrite W. reflexivity.
Qed.

Lemma two_of_first_two (p q : point) (rest : list point) :
  two_of (p :: q :: rest) p q.
Proof. exists rest. reflexivity. Qed.

Lemma brute_force_finite (points : list point) :
  (2 <= length points)%nat ->
  exists p q, two_of points p q
              /\ brute_force points = Finite (distance p q)
              /\ forall p' q', two_of points p' q' ->
                               distance p q <= distance p' q'.
Proof.
  intros H2. destruct (brute_force_spec points) as (D & [W|(p & q & T & W)]).
  - destruct points as [|p [|q rest]]; simpl in H2; try lia.
    specialize (D p q (two_of_first_two p q rest)).
    rewrite W in D. discriminate.
  - exists p, q. split; [exact T|]. split; [exact W|].
    intros p' q' T'. specialize (D p' q' T'). rewrite W in D.
    apply Z.leb_le in D. exact D.
Qed.

(** X12: the two nested loops of [test_random] compute the least squared
    distance between two entries of the list: infinity when there are fewer
    than two, else a distance that two entries have and no two entries
    undercut.  So the result is the same for every order of the list. *)
Theorem brute_force_is_least_distance (points : list point) :
  ((length points < 2)%nat -> brute_force points = Inf)
  /\ ((2 <= length points)%nat ->
      exists p q, two_of points p q
                  /\ brute_force points = Finite (distance p q)
                  /\ forall p' q', two_of points p' q' ->
                                   distance p q <= distance p' q')
  /\ (forall points', Permutation points points' ->
                      brute_force points' = brute_force points).
Proof.
  split; [|split].
  - intros H. destruct (brute_force_spec points) as (_ & [W|(p & q & T & _)]);
      [exact W|].
    apply two_of_length in T. lia.
  - apply brute_force_finite.
  - intros points' P.
    destruct (le_lt_dec 2 (length points)) as [H2|H2].
    + destruct (brute_force_finite points H2) as (p & q & T & W & M).
      destruct (@brute_force_finite points') as (p' & q' & T' & W' & M');
        [rewrite <- (Permutation_length P); exact H2|].
      rewrite W, W'. f_equal.
      pose proof (M p' q' (two_of_permutation (Permutation_sym P) T')).
      pose proof (M' p q (two_of_permutation P T)).
      lia.
    + destruct (brute_force_spec points) as (_ & [W|(p & q & T & _)]);
        [|apply two_of_length in T; lia].
      destruct (brute_force_spec points') as (_ & [W'|(p & q & T & _)]);
        [|apply two_of_length in T; rewrite <- (Permutation_length P) in T; lia].
      rewrite W, W'. reflexivity.
Qed.

(** *** The pair that [_closest_pair] returns *)

Lemma first_best_le (dl dr : dist) :
  dle (if dist_leb dl dr then dl else dr) dl
  /\ dle (if dist_leb dl dr then dl else dr) dr.
Proof.
  destruct (dist_leb dl dr) eqn:E.
  - split; [apply dist_leb_refl | exact E].
  - split; [apply dist_leb_flip; exact E | apply dist_leb_refl].
Qed.

Lemma first_best_fst (pql pqr : option (point * point)) :
  fst (if dist_leb (pair_dist pql) (pair_dist pqr)
       then (pair_dist pql, pql) else (pair_dist pqr, pqr))
  = if dist_leb (pair_dist pql) (pair_dist pqr)
    then pair_dist pql else pair_dist pqr.
Proof. destruct (dist_leb _ _); reflexivity. Qed.

Lemma first_best_coherent (pql pqr : option (point * point)) :
  coherent (if dist_leb (pair_dist pql) (pair_dist pqr)
            then (pair_dist pql, pql) else (pair_dist pqr, pqr)).
Proof. destruct (dist_leb _ _); reflexivity. Qed.

Lemma firstn_7_sub (m : list point) (x : point) : In x (firstn 7 m) -> In x m.
Proof. apply in_firstn. Qed.

Lemma _closest_pair_sound (fuel : nat) :
  forall (points : list point) (pq : option (point * point)) (ys : list point),
    _closest_pair fuel points = Return (pq, ys) ->
    match pq with
    | Some (p, q) => two_of points p q
    | None => length points = 1%nat
    end.
Proof.
  induction fuel as [|fuel IH]; intros points pq ys; [discriminate|].
  destruct (le_lt_dec 3 (length points)) as [H3|H3].
  - intros E. pose proof (_closest_pair_y_order _ _ E) as [Pys _]. revert E.
    rewrite ClosestPointsProofs._closest_pair_S by exact H3. cbv zeta.
    destruct (@half_bounds (length points) ltac:(lia)) as (M1 & M2 & M3).
    set (mid := (length points / 2)%nat) in *.
    destruct (_closest_pair fuel (slice_to mid points))
      as [[pql ysl]| |] eqn:El; try discriminate.
    destruct (_closest_pair fuel (slice_from mid points))
      as [[pqr ysr]| |] eqn:Er; try discriminate.
    cbn [bind].
    destruct (nth_error points mid) as [m|]; [|discriminate].
    intros [= <- Eys]. rewrite Eys.
    pose proof (IH _ _ _ El) as Sl. pose proof (IH _ _ _ Er) as Sr.
    unfold slice_to, slice_from in *.
    assert (Hl : match pql with
                 | Some (p, q) => two_of points p q | None => True end).
    { destruct pql as [[p q]|]; [|exact I].
      rewrite <- (firstn_skipn mid points). apply two_of_app_l. exact Sl. }
    assert (Hr : exists p q, pqr = Some (p, q) /\ two_of points p q).
    { destruct pqr as [[p q]|].
      - exists p, q. split; [reflexivity|].
        rewrite <- (firstn_skipn mid points). apply two_of_app_r. exact Sr.
      - rewrite length_skipn in Sr. lia. }
    set (bst := if dist_leb (pair_dist pql) (pair_dist pqr)
                then (pair_dist pql, pql) else (pair_dist pqr, pqr)).
    assert (Hb : exists p q, snd bst = Some (p, q) /\ two_of points p q).
    { subst bst. destruct Hr as (p & q & -> & T).
      destruct pql as [[p' q']|]; simpl.
      - destruct (_ <=? _); [exists p', q' | exists p, q]; split;
          try reflexivity; assumption.
      - exists p, q. split; [reflexivity | exact T]. }
    rewrite scan_strip_suffixes.
    match goal with |- context [fold_suffix _ ?s bst] => set (strip := s) end.
    destruct (@scan_all_spec (firstn 7) strip bst (first_best_coherent pql pqr))
      as (_ & _ & _ & W).
    cbv zeta in W. destruct W as [W|(q1 & q2 & V & W)]; rewrite W.
    + destruct Hb as (p & q & -> & T). exact T.
    + cbn [snd].
      assert (T : two_of points q1 q2).
      { apply two_of_permutation with (1 := Permutation_sym Pys).
        apply two_of_filter with (f := fun p => within (px m) (fst bst) (px p)).
        apply visited_two_of with (win := firstn 7); [apply firstn_7_sub|].
        exact V. }
      unfold ordered. destruct (px q1 <=? px q2); [exact T|].
      apply two_of_sym. exact T.
  - destruct points as [|p [|q [|r rest]]]; simpl in H3; try lia.
    + rewrite _closest_pair_nil. discriminate.
    + intros [= <- _]. reflexivity.
    + intros [= <- _]. apply two_of_first_two.
Qed.

(** *** Up to eight points nothing is missed *)

Lemma x_sorted_strongly (l : list point) :
  x_sorted l -> StronglySorted (fun p q => px p <= px q) l.
Proof.
  apply Sorted_StronglySorted. intros a b c H1 H2. lia.
Qed.

Lemma strongly_sorted_app (R : point -> point -> Prop) (a b : list point) :
  StronglySorted R (a ++ b) ->
  StronglySorted R b /\ forall x y, In x a -> In y b -> R x y.
Proof.
  induction a as [|z a IH]; simpl; intros H.
  - split; [exact H | intros ? ? []].
  - inversion H as [|? ? Hs Hall]; subst.
    destruct (IH Hs) as [Hb Hc]. split; [exact Hb|].
    intros x y [<-|Hx] Hy.
    + rewrite Forall_forall in Hall. apply Hall, in_or_app. right. exact Hy.
    + apply Hc; assumption.
Qed.

Lemma x_sorted_median (points : list point) (mid : nat) (m : point) :
  x_sorted points -> nth_error points mid = Some m ->
  (forall p, In p (firstn mid points) -> px p <= px m)
  /\ (forall q, In q (skipn mid points) -> px m <= px q).
Proof.
  intros Hs Hm. apply nth_error_split in Hm.
  destruct Hm as (l1 & l2 & -> & <-).
  rewrite firstn_app, firstn_all, Nat.sub_diag, skipn_app, skipn_all, Nat.sub_diag.
  cbn [firstn skipn app]. rewrite app_nil_r.
  apply x_sorted_strongly, strongly_sorted_app in Hs.
  destruct Hs as [Hb Hc]. split.
  - intros p Hp. apply Hc; [exact Hp | left; reflexivity].
  - intros q [<-|Hq]; [lia|].
    inversion Hb as [|? ? _ Hall]; subst.
    rewrite Forall_forall in Hall. apply Hall, Hq.
Qed.

Lemma within_cross (median : Z) (b : dist) (p q : point) :
  px p <= median <= px q ->
  dist_leb b (Finite (distance p q)) = false ->
  within median b (px p) = true /\ within median b (px q) = true.
Proof.
  intros Hm Hb. destruct b as [x|]; [|split; reflexivity].
  cbn [dist_leb] in Hb. apply Z.leb_gt in Hb. unfold distance in Hb.
  rewrite !Z.pow_2_r in Hb. unfold within.
  assert (Ht : px q - px p <= (px p - px q) * (px p - px q)).
  { replace ((px p - px q) * (px p - px q))
      with ((px q - px p) * (px q - px p)) by ring.
    destruct (Z.eq_dec (px q - px p) 0) as [E0|E0]; [rewrite E0; lia|].
    assert ((px q - px p) * 1 <= (px q - px p) * (px q - px p))
      by (apply Z.mul_le_mono_nonneg_l; lia).
    lia. }
  assert (Hs : 0 <= (py p - py q) * (py p - py q)) by apply Z.square_nonneg.
  split; apply andb_true_iff; split; apply Z.leb_le; lia.
Qed.

Lemma two_of_pair (a b p q : point) :
  two_of [a; b] p q -> distance p q = distance a b.
Proof.
  intros H. apply two_of_cons_inv in H.
  destruct H as [(-> & [<-|[]])|[(-> & [<-|[]])|H]].
  - reflexivity.
  - apply distance_sym.
  - apply two_of_length in H. simpl in H. lia.
Qed.

Lemma _closest_pair_complete (fuel : nat) :
  forall (points : list point) (pq : option (point * point)) (ys : list point),
    x_sorted points -> (length points <= 8)%nat ->
    _closest_pair fuel points = Return (pq, ys) ->
    forall p q, two_of points p q ->
                dle (pair_dist pq) (Finite (distance p q)).
Proof.
  induction fuel as [|fuel IH]; intros points pq ys Hs H8; [discriminate|].
  destruct (le_lt_dec 3 (length points)) as [H3|H3].
  - intros E. pose proof (_closest_pair_y_order _ _ E) as [Pys _]. revert E.
    rewrite ClosestPointsProofs._closest_pair_S by exact H3. cbv zeta.
    destruct (@half_bounds (length points) ltac:(lia)) as (M1 & M2 & M3).
    set (mid := (length points / 2)%nat) in *.
    destruct (_closest_pair fuel (slice_to mid points))
      as [[pql ysl]| |] eqn:El; try discriminate.
    destruct (_closest_pair fuel (slice_from mid points))
      as [[pqr ysr]| |] eqn:Er; try discriminate.
    cbn [bind].
    destruct (nth_error points mid) as [m|] eqn:Em; [|discriminate].
    intros [= <- Eys] p q T. rewrite Eys.
    unfold slice_to, slice_from in *.
    assert (Cl := fun H => @IH _ _ _ (@ClosestPointsProofs.x_sorted_firstn mid _ Hs) H El).
    assert (Cr := fun H => @IH _ _ _ (@ClosestPointsProofs.x_sorted_skipn mid _ Hs) H Er).
    rewrite length_firstn in Cl. rewrite length_skipn in Cr.
    specialize (Cl ltac:(lia)). specialize (Cr ltac:(lia)).
    destruct (x_sorted_median _ Hs Em) as [Xl Xr].
    set (bst := if dist_leb (pair_dist pql) (pair_dist pqr)
                then (pair_dist pql, pql) else (pair_dist pqr, pqr)).
    assert (Bl : dle (fst bst) (pair_dist pql) /\ dle (fst bst) (pair_dist pqr)).
    { subst bst. rewrite first_best_fst. apply first_best_le. }
    destruct Bl as [Bl Br].
    rewrite scan_strip_suffixes.
    match goal with |- context [fold_suffix _ ?s bst] => set (strip := s) end.
    destruct (@scan_all_spec (firstn 7) strip bst (first_best_coherent pql pqr))
      as (C & L & D & _).
    cbv zeta in C, L, D. rewrite <- C.
    assert (Hstrip : forall l1 x l2, strip = l1 ++ x :: l2 -> firstn 7 l2 = l2).
    { intros l1 x l2 E. apply firstn_all2.
      assert (Hlen : (length strip <= 8)%nat).
      { subst strip. etransitivity; [apply filter_length_le|].
        rewrite <- (Permutation_length Pys). exact H8. }
      rewrite E, length_app in Hlen. simpl in Hlen. lia. }
    assert (Cross : forall u v, In u (firstn mid points) ->
                                In v (skipn mid points) ->
                                two_of points u v ->
                                dle (fst (fold_suffix
                                     (fun b q1 rest => scan_window b q1 (firstn 7 rest))
                                     strip bst)) (Finite (distance u v))).
    { intros u v Hu Hv Tuv.
      destruct (dist_leb (fst bst) (Finite (distance u v))) eqn:Eb.
      - exact (dist_leb_trans _ _ _ L Eb).
      - destruct (@within_cross (px m) (fst bst) u v) as [Wu Wv];
          [split; [apply Xl, Hu | apply Xr, Hv] | exact Eb |].
        assert (Ts : two_of strip u v).
        { subst strip.
          apply (@filter_two_of (fun p => within (px m) (fst bst) (px p)));
            [|exact Wu|exact Wv].
          apply two_of_permutation with (1 := Pys). exact Tuv. }
        destruct (two_of_visited (firstn 7) Hstrip Ts) as [V|V].
        + apply D, V.
        + rewrite distance_sym. apply D, V. }
    pose proof T as T'. rewrite <- (firstn_skipn mid points) in T'.
    apply two_of_app_inv in T'.
    destruct T' as [T'|[T'|[(Hp & Hq)|(Hq & Hp)]]].
    + exact (dist_leb_trans _ _ _ L (dist_leb_trans _ _ _ Bl (Cl _ _ T'))).
    + exact (dist_leb_trans _ _ _ L (dist_leb_trans _ _ _ Br (Cr _ _ T'))).
    + apply Cross; assumption.
    + rewrite distance_sym. apply Cross; [assumption..|].
      apply two_of_sym. exact T.
  - destruct points as [|a [|b [|r rest]]]; simpl in H3; try lia.
    + rewrite _closest_pair_nil. discriminate.
    + intros _ p q T. apply two_of_length in T. simpl in T. lia.
    + intros [= <- _] p q T. simpl. rewrite (two_of_pair T).
      apply Z.leb_refl.
Qed.

(** *** [closest_pair] and [_closest_pair], from the outside *)

(** X9: on a non-empty list [_closest_pair] returns, within a recursion depth
    logarithmic in the length, and the third component of what it returns is
    the input in non-decreasing order of the second coordinate. *)
Theorem _closest_pair_sorts_by_y (k fuel : nat) (points : list point) :
  (1 <= length points)%nat -> (length points <= 2 ^ k)%nat -> (k < fuel)%nat ->
  exists pq ys,
    _closest_pair fuel points = Return (pq, ys)
    /\ Permutation points ys
    /\ y_sorted ys.
Proof.
  intros H1 Hk Hf.
  destruct (@_closest_pair_depth k fuel points H1 Hk Hf) as (pq & ys & E).
  exists pq, ys. split; [exact E|]. exact (_closest_pair_y_order _ _ E).
Qed.

Lemma closest_pair_unfold (fuel : nat) (points : list point) :
  (2 <= length points)%nat ->
  closest_pair fuel points
  = ('(pq, _) <- _closest_pair fuel (sorted_by px points) ;; Return pq).
Proof.
  intros H2. unfold closest_pair, assert.
  destruct (Nat.leb_spec 2 (length points)) as [_|C]; [reflexivity | lia].
Qed.

Lemma closest_pair_is_two_of (k fuel : nat) (points : list point) :
  (2 <= length points)%nat -> (length points <= 2 ^ k)%nat -> (k < fuel)%nat ->
  exists p q ys,
    _closest_pair fuel (sorted_by px points) = Return (Some (p, q), ys)
    /\ closest_pair fuel points = Return (Some (p, q))
    /\ two_of points p q.
Proof.
  intros H2 Hk Hf.
  destruct (@_closest_pair_depth k fuel (sorted_by px points))
    as (pq & ys & E);
    [rewrite ClosestPointsProofs.sorted_by_length; lia
    |rewrite ClosestPointsProofs.sorted_by_length; lia | exact Hf |].
  pose proof (_closest_pair_sound _ _ E) as S.
  destruct pq as [[p q]|];
    [|rewrite ClosestPointsProofs.sorted_by_length in S; lia].
  exists p, q, ys. split; [exact E|]. split.
  - rewrite closest_pair_unfold by exact H2. rewrite E. reflexivity.
  - apply two_of_permutation with (2 := S).
    apply Permutation_sym, sorted_by_permutation.
Qed.

(** X10: given two or more points, [closest_pair] returns two entries of its
    input at different positions, within a recursion depth logarithmic in
    their number; so their distance is never below the least distance that
    the loops of [test_random] find. *)
Theorem closest_pair_returns_two_of_the_points (k fuel : nat)
  (points : list point) :
  (2 <= length points)%nat -> (length points <= 2 ^ k)%nat -> (k < fuel)%nat ->
  exists p q,
    closest_pair fuel points = Return (Some (p, q))
    /\ two_of points p q
    /\ dist_leb (brute_force points) (Finite (distance p q)) = true.
Proof.
  intros H2 Hk Hf.
  destruct (closest_pair_is_two_of points H2 Hk Hf) as (p & q & ys & _ & E & T).
  exists p, q. split; [exact E|]. split; [exact T|].
  apply (proj1 (brute_force_spec points)). exact T.
Qed.

(** X11: up to eight points the result is exact: the pair returned is at the
    least distance of any two entries, which is the distance that the loops
    of [test_random] find. *)
Theorem closest_pair_exact_up_to_eight (fuel : nat) (points : list point) :
  (2 <= length points)%nat -> (length points <= 8)%nat -> (4 <= fuel)%nat ->
  exists p q,
    closest_pair fuel points = Return (Some (p, q))
    /\ two_of points p q
    /\ (forall p' q', two_of points p' q' -> distance p q <= distance p' q')
    /\ brute_force points = Finite (distance p q).
Proof.
  intros H2 H8 Hf.
  destruct (@closest_pair_is_two_of 3 fuel points H2)
    as (p & q & ys & E' & E & T); [simpl; lia | lia |].
  assert (M : forall p' q', two_of points p' q' ->
                            distance p q <= distance p' q').
  { intros p' q' T'.
    assert (Ts : two_of (sorted_by px points) p' q')
      by (apply two_of_permutation with (2 := T'), sorted_by_permutation).
    pose proof (@_closest_pair_complete fuel _ _ _
                  (ClosestPointsProofs.sorted_by_x_sorted points)
                  ltac:(rewrite ClosestPointsProofs.sorted_by_length; exact H8)
                  E' p' q' Ts) as D.
    cbn [pair_dist dist_leb] in D. apply Z.leb_le in D. exact D. }
  exists p, q. split; [exact E|]. split; [exact T|]. split; [exact M|].
  destruct (brute_force_finite points H2) as (p0 & q0 & T0 & W0 & M0).
  rewrite W0. f_equal.
  pose proof (M p0 q0 T0). pose proof (M0 p q T). lia.
Qed.

(** X13: the [merge] of closestpoints.py is that of mergesort.py with the
    comparison of second coordinates; it turns two lists in y-order into one
    list in y-order that holds the entries of both. *)
Theorem merge_copies_agree (a b : list point) :
  merge a b = Mergesort.merge leb_y a b
  /\ Permutation (a ++ b) (merge a b)
  /\ (y_sorted a -> y_sorted b -> y_sorted (merge a b)).
Proof.
  rewrite ClosestPointsProofs.merge_eq. split; [reflexivity|]. split.
  - apply MergesortProofs.merge_permutation.
  - apply (MergesortProofs.merge_sorted ClosestPointsProofs.leb_y_total).
Qed.

End ClosestPointsMore.

(** ** strassen.py *)

Module StrassenMore.

Import Strassen.

(** *** [_next_power_of_two] *)

(** X14: for [1 <= n <= 2^48], where the float logarithm tells [n] from the
    power of two below it, [_next_power_of_two] returns the least power of
    two that is not below [n]; a power of two comes back unchanged; at [0]
    the logarithm raises its domain error. *)
Theorem next_power_of_two_is_least (n : nat) :
  (n = 0 -> _next_power_of_two n = Raise (ValueError "math domain error"))
  /\ (1 <= n -> n <= 2 ^ 48 ->
      exists e, _next_power_of_two n = Return (2 ^ e)
                /\ n <= 2 ^ e
                /\ forall e', n <= 2 ^ e' -> e <= e')
  /\ (forall e, n = 2 ^ e -> _next_power_of_two n = Return n).
Proof.
  unfold _next_power_of_two. split; [|split].
  - intros ->. reflexivity.
  - intros Hn _. destruct (Nat.eqb_spec n 0) as [C|_]; [lia|].
    exists (Nat.log2_up n). split; [reflexivity|]. split.
    + apply StrassenProofs.power_of_two_covers. exact Hn.
    + intros e' He'. apply Nat.log2_up_le_pow2; [lia | exact He'].
  - intros e ->.
    pose proof (Nat.pow_nonzero 2 e ltac:(discriminate)) as Hp.
    destruct (Nat.eqb_spec (2 ^ e) 0) as [C|_]; [lia|].
    rewrite Nat.log2_up_pow2 by lia. reflexivity.
Qed.

(** *** Shapes *)

Lemma zip_cells_shape (n : nat) (op : Z -> Z -> Z) (X Y : matrix) :
  is_matrix n n X -> is_matrix n n Y ->
  is_matrix n n (zip_with (zip_with op) X Y).
Proof.
  intros HX HY.
  exact (proj1 (@StrassenProofs.zip_cells_denotes n op X Y (cell X) (cell Y)
                  (@StrassenProofs.denotes_cell n X HX)
                  (@StrassenProofs.denotes_cell n Y HY))).
Qed.

Lemma map_cells_shape (n : nat) (g : Z -> Z) (X : matrix) :
  is_matrix n n X -> is_matrix n n (map (map g) X).
Proof.
  intros HX.
  exact (proj1 (@StrassenProofs.map_cells_denotes n g X (cell X)
                  (@StrassenProofs.denotes_cell n X HX))).
Qed.

Lemma quadrants_shape (k : nat) (X : matrix) :
  is_matrix (k + k) (k + k) X ->
  is_matrix k k (fst (fst (fst (_quadrants X))))
  /\ is_matrix k k (snd (fst (fst (_quadrants X))))
  /\ is_matrix k k (snd (fst (_quadrants X)))
  /\ is_matrix k k (snd (_quadrants X)).
Proof.
  intros HX.
  destruct (@StrassenProofs.quadrants_denote k X (cell X)
              (@StrassenProofs.denotes_cell (k + k) X HX)) as (Ha & Hb & Hc & Hd).
  split; [apply Ha|]. split; [apply Hb|]. split; [apply Hc | apply Hd].
Qed.

Lemma set_block_shape (n m r0 c0 : nat) (V X : matrix) :
  is_matrix n n X -> is_matrix m m V -> r0 + m <= n -> c0 + m <= n ->
  is_matrix n n (set_block r0 c0 V X).
Proof.
  intros HX HV Hr Hc.
  exact (proj1 (@StrassenProofs.set_block_denotes n m r0 c0 V X (cell V) (cell X)
                  (@StrassenProofs.denotes_cell n X HX)
                  (@StrassenProofs.denotes_cell m V HV) Hr Hc)).
Qed.

Lemma arr_op_shape (n : nat) (op : Z -> Z -> Z) (X Y : array) :
  is_matrix n n (cells X) -> is_matrix n n (cells Y) ->
  is_matrix n n (cells (arr_op op X Y)).
Proof.
  intros HX HY. unfold arr_op. cbn [cells]. apply zip_cells_shape; assumption.
Qed.

Lemma store_shape (n m r0 c0 : nat) (V : array) (X : matrix) :
  is_matrix n n X -> is_matrix m m (cells V) -> r0 + m <= n -> c0 + m <= n ->
  is_matrix n n (store r0 c0 V X).
Proof.
  intros HX HV Hr Hc. unfold store.
  apply set_block_shape with (m := m); try assumption.
  apply map_cells_shape. exact HV.
Qed.

Lemma top_left_shape (n n' : nat) (X : matrix) :
  is_matrix n' n' X -> n <= n' ->
  is_matrix n n (map (slice_to n) (slice_to n X)).
Proof.
  intros HX Hn. unfold slice_to.
  pose proof HX as [LX _].
  refine (proj1 (@StrassenProofs.block_denotes n' n 0 0 (firstn n X) (firstn n)
                   X (cell X) (@StrassenProofs.denotes_cell n' X HX) _ _ _ _ _)).
  - rewrite length_firstn. lia.
  - intros i Hi. rewrite nth_firstn.
    destruct (Nat.ltb_spec i n); [reflexivity | lia].
  - intros row Hrow. apply StrassenProofs.firstn_rows. lia.
  - lia.
  - lia.
Qed.

Lemma _strassen_shape (e : nat) :
  forall (fuel : nat) (A B : matrix),
    is_matrix (2 ^ e) (2 ^ e) A -> is_matrix (2 ^ e) (2 ^ e) B -> e < fuel ->
    exists C,
      _strassen fuel A B = Return C
      /\ is_matrix (2 ^ e) (2 ^ e) (cells C)
      /\ dtype_of C = (if e =? 0 then int64 else float64).
Proof.
  induction e as [|e IH]; intros fuel A B HA HB Hfuel;
    (destruct fuel as [|fuel]; [lia|]); rewrite StrassenProofs._strassen_S.
  - change (2 ^ 0) with 1 in *. destruct HA as [LA _]. rewrite LA.
    cbn [Nat.eqb]. eexists. split; [reflexivity|]. cbn [cells dtype_of].
    split; [|reflexivity]. split; [reflexivity|].
    intros i Hi. destruct i; [reflexivity | lia].
  - set (k := 2 ^ e) in *.
    assert (Hk : 1 <= k).
    { unfold k. pose proof (Nat.pow_nonzero 2 e ltac:(discriminate)). lia. }
    replace (2 ^ S e) with (k + k) in * by (unfold k; simpl; lia).
    pose proof HA as [LA _]. rewrite LA, StrassenProofs.double_half.
    destruct (Nat.eqb_spec (k + k) 1) as [C|_]; [lia|].
    destruct (@quadrants_shape k A HA) as (Ha & Hb & Hc & Hd).
    destruct (@quadrants_shape k B HB) as (He & Hf & Hg & Hh).
    cbv zeta.
    set (a := fst (fst (fst (_quadrants A)))) in *.
    set (b := snd (fst (fst (_quadrants A)))) in *.
    set (c := snd (fst (_quadrants A))) in *.
    set (d := snd (_quadrants A)) in *.
    set (e' := fst (fst (fst (_quadrants B)))) in *.
    set (f := snd (fst (fst (_quadrants B)))) in *.
    set (g := snd (fst (_quadrants B))) in *.
    set (h := snd (_quadrants B)) in *.
    assert (R : forall X Y, is_matrix k k X -> is_matrix k k Y ->
                exists C, _strassen fuel X Y = Return C
                          /\ is_matrix k k (cells C)).
    { intros X Y HX HY. destruct (IH fuel X Y HX HY ltac:(lia)) as (C & E & S & _).
      exists C. split; assumption. }
    assert (Z2 : forall (op : Z -> Z -> Z) (X Y : matrix),
               is_matrix k k X -> is_matrix k k Y ->
               is_matrix k k (zip_with (zip_with op) X Y))
      by (intros; apply zip_cells_shape; assumption).
    unfold add64, sub64.
    destruct (R a (zip_with (zip_with (fun x y => wrap64 (x - y))) f h))
      as (p1 & E1 & P1); [auto..|].
    destruct (R (zip_with (zip_with (fun x y => wrap64 (x + y))) a b) h)
      as (p2 & E2 & P2); [auto..|].
    destruct (R (zip_with (zip_with (fun x y => wrap64 (x + y))) c d) e')
      as (p3 & E3 & P3); [auto..|].
    destruct (R d (zip_with (zip_with (fun x y => wrap64 (x - y))) g e'))
      as (p4 & E4 & P4); [auto..|].
    destruct (R (zip_with (zip_with (fun x y => wrap64 (x + y))) a d)
                (zip_with (zip_with (fun x y => wrap64 (x + y))) e' h))
      as (p5 & E5 & P5); [auto..|].
    destruct (R (zip_with (zip_with (fun x y => wrap64 (x - y))) b d)
                (zip_with (zip_with (fun x y => wrap64 (x + y))) g h))
      as (p6 & E6 & P6); [auto..|].
    destruct (R (zip_with (zip_with (fun x y => wrap64 (x - y))) a c)
                (zip_with (zip_with (fun x y => wrap64 (x + y))) e' f))
      as (p7 & E7 & P7); [auto..|].
    rewrite E1, E2, E3, E4, E5, E6, E7. cbn [bind].
    eexists. split; [reflexivity|]. cbn [cells dtype_of].
    split; [|reflexivity].
    assert (Z0 : is_matrix (k + k) (k + k) (zeros (k + k)))
      by apply (StrassenProofs.full_denotes (k + k) 0%Z).
    unfold arr_add, arr_sub.
    repeat (apply store_shape with (m := k); [| |lia|lia]);
      try exact Z0; repeat apply arr_op_shape; assumption.
Qed.

(** X15: for operands that pass its checks and at a recursion depth above
    the logarithm of their side, [strassen] returns an array of the side of
    its operands, whatever their cells hold; the array is [int64] for side 1
    and [float64] for every other side. *)
Theorem strassen_result_shape (n fuel : nat) (A B : ndarray) :
  1 <= n ->
  shape A = [n; n] -> shape B = [n; n] ->
  length (buffer A) = n * n -> length (buffer B) = n * n ->
  Nat.log2_up n < fuel ->
  exists C,
    strassen fuel A B = Return C
    /\ is_matrix n n (cells C)
    /\ dtype_of C = (if n =? 1 then int64 else float64).
Proof.
  intros Hn SA SB LA LB Hfuel.
  pose proof (StrassenProofs.power_of_two_covers Hn) as Hcover.
  rewrite (@StrassenProofs.strassen_unfold fuel n A B Hn SA SB).
  set (n' := 2 ^ Nat.log2_up n) in *.
  assert (P : forall X, shape X = [n; n] -> length (buffer X) = n * n ->
                        is_matrix n' n' (set_block 0 0 (rows_of X) (full n' 0%Z))).
  { intros X SX LX. apply set_block_shape with (m := n); [| |lia|lia].
    - apply (StrassenProofs.full_denotes n' 0%Z).
    - apply (@StrassenProofs.rows_of_denotes n X SX LX). }
  destruct (@_strassen_shape (Nat.log2_up n) fuel _ _ (P A SA LA) (P B SB LB) Hfuel)
    as (C & E & S & D).
  fold n' in E, S. rewrite E. cbn [bind].
  eexists. split; [reflexivity|]. cbn [cells dtype_of]. split.
  - apply top_left_shape with (n' := n'); assumption.
  - rewrite D. destruct (Nat.eqb_spec n 1) as [->|N1]; [reflexivity|].
    destruct (Nat.eqb_spec (Nat.log2_up n) 0) as [L0|_]; [|reflexivity].
    apply Nat.log2_up_null in L0. lia.
Qed.

(** *** [_pad] *)

Lemma assert_square_returns (n : nat) (X : ndarray) :
  shape X = [n; n] -> _assert_is_square_matrix X = Return tt.
Proof.
  intros SX. unfold _assert_is_square_matrix, assert, ndim. rewrite SX.
  cbn [length Nat.eqb bind]. rewrite Nat.eqb_refl. reflexivity.
Qed.

(** X16: [_pad] puts a square array into the top left corner of a square of
    zeros of the side asked for, and changes nothing when the side is already
    that of the array.  When the side asked for is smaller, it raises the
    [ValueError] of the assignment, whose message names the two shapes, and
    no assertion error; but an array of side 1 is broadcast into the empty
    square of side 0, which is then returned. *)
Theorem pad_fills_with_zeros (n side : nat) (X : ndarray) :
  shape X = [n; n] -> length (buffer X) = n * n ->
  (n <= side ->
   exists P, _pad X side = Return P
             /\ is_matrix side side P
             /\ forall i j, i < side -> j < side ->
                  cell P i j
                  = if (i <? n) && (j <? n) then cell (rows_of X) i j else 0%Z)
  /\ (side < n -> 2 <= n ->
      _pad X side = Raise (ValueError (could_not_broadcast n side)))
  /\ (side < n -> n = 1 -> _pad X side = Return [])
  /\ _pad X n = Return (rows_of X).
Proof.
  intros SX LX.
  pose proof (@StrassenProofs.rows_of_denotes n X SX LX) as [RX _].
  assert (D : forall s, n <= s ->
              denotes s (set_block 0 0 (rows_of X) (full s 0%Z))
                (fun i j => if in_block 0 0 n i j
                            then cell (rows_of X) (i - 0) (j - 0) else 0%Z)).
  { intros s Hs.
    apply (@StrassenProofs.set_block_denotes s n 0 0 (rows_of X) (full s 0%Z)
             (cell (rows_of X)) (fun _ _ => 0%Z));
      [apply StrassenProofs.full_denotes
      |apply StrassenProofs.denotes_cell; exact RX | lia | lia]. }
  assert (U : forall s, _pad X s
                        = if s <? n
                          then
                            if n =? 1 then Return (full s 0%Z)
                            else Raise (ValueError (could_not_broadcast n s))
                          else Return (set_block 0 0 (rows_of X) (full s 0%Z))).
  { intros s. unfold _pad. rewrite (@assert_square_returns n X SX). cbn [bind].
    unfold len. rewrite SX. reflexivity. }
  split; [|split; [|split]].
  - intros Hs. rewrite U. destruct (Nat.ltb_spec side n) as [C|_]; [lia|].
    eexists. split; [reflexivity|]. destruct (D side Hs) as [M Cl].
    split; [exact M|]. intros i j Hi Hj. rewrite Cl by assumption.
    unfold in_block. cbn [Nat.leb Nat.add andb]. rewrite !Nat.sub_0_r.
    reflexivity.
  - intros Hs H2. rewrite U. destruct (Nat.ltb_spec side n) as [_|C]; [|lia].
    destruct (Nat.eqb_spec n 1) as [C|_]; [lia | reflexivity].
  - intros Hs ->. rewrite U. assert (side = 0) as -> by lia. reflexivity.
  - rewrite U. destruct (Nat.ltb_spec n n) as [C|_]; [lia|]. f_equal.
    destruct (D n (Nat.le_refl n)) as [M Cl].
    apply (@StrassenProofs.matrix_ext n n _ _ M RX).
    intros i j Hi Hj. rewrite Cl by assumption.
    unfold in_block. cbn [Nat.leb Nat.add andb]. rewrite !Nat.sub_0_r.
    destruct (Nat.ltb_spec i n); [|lia]. destruct (Nat.ltb_spec j n); [|lia].
    reflexivity.
Qed.

(** *** [_quadrants] *)

Lemma zip_app_halves (k : nat) (rows : matrix) :
  zip_with (@app Z) (map (slice_to k) rows) (map (slice_from k) rows) = rows.
Proof.
  induction rows as [|r rows IH]; [reflexivity|]. cbn [map zip_with].
  rewrite IH. unfold slice_to, slice_from. rewrite firstn_skipn. reflexivity.
Qed.

(** X17: the four quadrants of any array of rows, put side by side and one
    pair above the other, give the array back; those of a square of even
    side are four squares of half the side. *)
Theorem quadrants_reassemble (X : matrix) :
  zip_with (@app Z) (fst (fst (fst (_quadrants X))))
                    (snd (fst (fst (_quadrants X))))
  ++ zip_with (@app Z) (snd (fst (_quadrants X))) (snd (_quadrants X))
  = X
  /\ forall k, is_matrix (k + k) (k + k) X ->
       is_matrix k k (fst (fst (fst (_quadrants X))))
       /\ is_matrix k k (snd (fst (fst (_quadrants X))))
       /\ is_matrix k k (snd (fst (_quadrants X)))
       /\ is_matrix k k (snd (_quadrants X)).
Proof.
  split.
  - unfold _quadrants. cbn [fst snd]. rewrite !zip_app_halves.
    unfold slice_to, slice_from. apply firstn_skipn.
  - intros k HX. apply quadrants_shape. exact HX.
Qed.

(** *** Side 1 *)

Lemma wrap64_range (z : Z) : (- 2 ^ 63 <= wrap64 z < 2 ^ 63)%Z.
Proof.
  unfold wrap64.
  pose proof (Z.mod_pos_bound (z + 2 ^ 63) (2 ^ 64) ltac:(lia)). lia.
Qed.

Lemma wrap64_congruent (z : Z) : ((wrap64 z - z) mod 2 ^ 64 = 0)%Z.
Proof.
  unfold wrap64.
  rewrite (Z.mod_eq (z + 2 ^ 63) (2 ^ 64)) by lia.
  replace (z + 2 ^ 63 - 2 ^ 64 * ((z + 2 ^ 63) / 2 ^ 64) - 2 ^ 63 - z)%Z
    with (- ((z + 2 ^ 63) / 2 ^ 64) * 2 ^ 64)%Z by ring.
  apply Z.mod_mul. lia.
Qed.

(** X18: on 1 x 1 operands [strassen] multiplies in [int64]: the cell of the
    result is the product of the two cells reduced modulo [2^64] into the
    range of [int64], hence the product itself exactly when that fits. *)
Theorem strassen_side_one_wraps (fuel : nat) (x y : Z) :
  strassen (S fuel) (of_rows 1 1 [[x]]) (of_rows 1 1 [[y]])
  = Return {| dtype_of := int64; cells := [[wrap64 (x * y)]] |}
  /\ (- 2 ^ 63 <= wrap64 (x * y) < 2 ^ 63)%Z
  /\ ((wrap64 (x * y) - x * y) mod 2 ^ 64 = 0)%Z
  /\ (wrap64 (x * y) = (x * y)%Z <-> (- 2 ^ 63 <= x * y < 2 ^ 63)%Z).
Proof.
  split; [|split; [|split]].
  - rewrite (@StrassenProofs.strassen_unfold (S fuel) 1
               (of_rows 1 1 [[x]]) (of_rows 1 1 [[y]]));
      [reflexivity | lia | reflexivity | reflexivity].
  - apply wrap64_range.
  - apply wrap64_congruent.
  - split.
    + intros E. rewrite <- E. apply wrap64_range.
    + apply StrassenProofs.wrap64_exact.
Qed.

(** *** [_assert_is_square_matrix] *)

(** X19: [_assert_is_square_matrix] returns exactly on two-dimensional arrays
    of equal height and width; it raises the assertion error of its first
    check on every other number of dimensions and that of its second on
    every other two-dimensional array; unpacking the shape never fails. *)
Theorem assert_is_square_matrix_checks (X : ndarray) :
  (_assert_is_square_matrix X = Return tt <-> two_dimensional X /\ square X)
  /\ (~ two_dimensional X ->
      _assert_is_square_matrix X
      = Raise (AssertionError "Inputs must be matrices"))
  /\ (two_dimensional X -> ~ square X ->
      _assert_is_square_matrix X
      = Raise (AssertionError "Inputs must be square"))
  /\ (forall msg, _assert_is_square_matrix X <> Raise (ValueError msg)).
Proof.
  unfold _assert_is_square_matrix, two_dimensional, square, assert, ndim.
  destruct (shape X) as [|h [|w [|z r]]]; cbn [length Nat.eqb bind].
  - split; [split; [discriminate | intros [H _]; discriminate H]|].
    split; [reflexivity|]. split; [intros H; discriminate H | discriminate].
  - split; [split; [discriminate | intros [H _]; discriminate H]|].
    split; [reflexivity|]. split; [intros H; discriminate H | discriminate].
  - destruct (Nat.eqb_spec h w) as [E|E].
    + split; [split; [intros _; split; [reflexivity | exact E] | reflexivity]|].
      split; [intros H; exfalso; apply H; reflexivity|].
      split; [intros _ H; exfalso; apply H; exact E | discriminate].
    + split; [split; [discriminate | intros [_ H]; exfalso; apply E; exact H]|].
      split; [intros H; exfalso; apply H; reflexivity|].
      split; [reflexivity | discriminate].
  - split; [split; [discriminate | intros [H _]; discriminate H]|].
    split; [reflexivity|]. split; [intros H; discriminate H | discriminate].
Qed.

End StrassenMore.


(** * The theorems at concrete inputs *)

Module Instances.

Local Open Scope Z_scope.

(** C4 at [test_five_elements] of mergesort.py. *)
Lemma mergesort_five_elements :
  exists r, Mergesort.mergesort Z.leb 5 [4; 1; 2; 5; 3] = Return r
            /\ Permutation [4; 1; 2; 5; 3] r
            /\ Mergesort.sorted Z.leb r.
Proof.
  apply (@MergesortProofs.mergesort_sorted_permutation Z Z.leb Zleb_total).
  - discriminate.
  - simpl. lia.
Defined.

(** C5 at [test_interleaved] of mergesort.py. *)
Lemma merge_interleaved :
  Mergesort.sorted Z.leb (Mergesort.merge Z.leb [1; 3; 5] [2; 4; 6])
  /\ Permutation ([1; 3; 5] ++ [2; 4; 6]) (Mergesort.merge Z.leb [1; 3; 5] [2; 4; 6])
  /\ Mergesort.merge Z.leb [1; 3; 5] [] = [1; 3; 5]
  /\ Mergesort.merge Z.leb [] [2; 4; 6] = [2; 4; 6].
Proof.
  apply (@MergesortProofs.merge_sorted_union Z Z.leb Zleb_total).
  - repeat constructor.
  - repeat constructor.
Defined.

(** C6 at two lists that share the key 2, and at two lists of points that
    share the second coordinate 2. *)
Lemma merge_equal_keys :
  filter (Mergesort.same_key Z.leb 2) (Mergesort.merge Z.leb [1; 2; 2] [2; 3])
  = filter (Mergesort.same_key Z.leb 2) [1; 2; 2]
    ++ filter (Mergesort.same_key Z.leb 2) [2; 3]
  /\ filter (fun p => ClosestPoints.py p =? 2)
            (ClosestPoints.merge [(5, 1); (6, 2)] [(0, 2); (1, 3)])
     = filter (fun p => ClosestPoints.py p =? 2) [(5, 1); (6, 2)]
       ++ filter (fun p => ClosestPoints.py p =? 2) [(0, 2); (1, 3)].
Proof.
  split.
  - apply (proj1 ClosestPointsProofs.merge_is_stable Z Z.leb Zleb_total Zleb_trans
             [1; 2; 2] [2; 3]); repeat constructor.
  - apply (proj2 ClosestPointsProofs.merge_is_stable
             [(5, 1); (6, 2)] [(0, 2); (1, 3)]); repeat constructor.
Defined.

(** C3 at [test_eleven_and_nine] of karatsuba.py. *)
Lemma karatsuba_eleven_and_nine :
  Karatsuba.karatsuba 21 11 9 = Return (11 * 9)
  /\ Karatsuba.karatsuba 21 11 0 = Return 0
  /\ Karatsuba.karatsuba 21 11 1 = Return 11.
Proof.
  apply (@KaratsubaProofs.karatsuba_is_product 21 11 9); simpl; lia.
Defined.

(** C10 at [test_5] of karatsuba.py: [0b101110001] split at bit 5. *)
Lemma split_int_at_five :
  exists a b, Karatsuba._split_int 369 5 = Return (a, b)
              /\ 369 = a * 2 ^ 5 + b /\ 0 <= b < 2 ^ 5.
Proof.
  apply (proj1 KaratsubaProofs.split_int_reconstructs 369 5); lia.
Defined.

(** C7 at [test_four_elements] of closestpoints.py. *)
Lemma closest_pair_four_elements :
  (exists p q,
      ClosestPoints.closest_pair 4 [(-4, 76); (37, -15); (59, -4); (94, 88)]
      = Return (Some (p, q))
      /\ ClosestPoints.px p <= ClosestPoints.px q)
  /\ (forall bst q1 q2,
         ClosestPoints.lt_dist (ClosestPoints.distance q1 q2) (fst bst) = false ->
         ClosestPoints.update_best bst q1 q2 = bst).
Proof.
  apply (@ClosestPointsProofs.closest_pair_left_first
           [(-4, 76); (37, -15); (59, -4); (94, 88)] 4); simpl; lia.
Defined.

(** X20 at two operands of side 3 with cells up to 9. *)
Lemma strassen_side_three :
  exists C,
    Strassen.strassen 3 Strassen.side_three_A Strassen.side_three_B = Return C
    /\ Strassen.cells C
       = Strassen.naive_product 3 (Strassen.rows_of Strassen.side_three_A)
                                  (Strassen.rows_of Strassen.side_three_B)
    /\ Strassen.is_matrix 3 3 (Strassen.cells C).
Proof.
  apply (@StrassenProofs.strassen_exact_below_53_bits
           3 Strassen.side_three_A Strassen.side_three_B 9 3).
  - lia.
  - reflexivity.
  - reflexivity.
  - reflexivity.
  - reflexivity.
  - repeat constructor; simpl; lia.
  - repeat constructor; simpl; lia.
  - reflexivity.
  - vm_compute. lia.
Defined.

(** C8, amended: a 2 x 3 operand is refused; two 2 x 2 operands are not. *)
Lemma strassen_shapes :
  (exists msg,
      In msg Strassen.assertion_messages
      /\ forall fuel,
           Strassen.strassen fuel Strassen.two_by_three Strassen.test_2x2_B
           = Raise (AssertionError msg))
  /\ (forall fuel,
         Strassen.strassen fuel Strassen.two_by_three Strassen.test_2x2_B
         = Raise (AssertionError "Inputs must be square"))
  /\ (forall fuel e,
         Strassen.strassen fuel Strassen.test_2x2_A Strassen.test_2x2_B <> Raise e)
  /\ (forall fuel,
         (Nat.log2_up (Strassen.len Strassen.test_2x2_A) < fuel)%nat ->
         exists C,
           Strassen.strassen fuel Strassen.test_2x2_A Strassen.test_2x2_B
           = Return C).
Proof.
  split; [|split].
  - apply (proj1 (StrassenProofs.strassen_errors
                    Strassen.two_by_three Strassen.test_2x2_B)).
    intros (_ & H & _). discriminate H.
  - intros fuel.
    apply (proj1 (proj2 (proj1 (proj2 (StrassenProofs.strassen_errors
                    Strassen.two_by_three Strassen.test_2x2_B)) fuel))).
    + reflexivity.
    + intros H. discriminate H.
  - apply (proj2 (proj2 (StrassenProofs.strassen_errors
                    Strassen.test_2x2_A Strassen.test_2x2_B))).
    + repeat split.
    + vm_compute. lia.
Defined.

(** X3 at [test_five_elements] of mergesort.py: five elements, depth 4. *)
Lemma mergesort_five_elements_depth :
  exists r, Mergesort.mergesort Z.leb 4 [4; 1; 2; 5; 3] = Return r
            /\ Permutation [4; 1; 2; 5; 3] r
            /\ Mergesort.sorted Z.leb r.
Proof.
  apply (@MergesortMore.mergesort_logarithmic_depth Z Z.leb Zleb_total 3 4).
  - discriminate.
  - simpl. lia.
  - lia.
Defined.

(** X1 at four points sorted by their second coordinate. *)
Lemma mergesort_points_by_y :
  exists r,
    Mergesort.mergesort ClosestPoints.leb_y 4 [(5, 2); (6, 1); (0, 2); (1, 1)]
    = Return r
    /\ forall k,
         filter (Mergesort.same_key ClosestPoints.leb_y k) r
         = filter (Mergesort.same_key ClosestPoints.leb_y k)
                  [(5, 2); (6, 1); (0, 2); (1, 1)].
Proof.
  apply (@MergesortMore.mergesort_is_stable _ ClosestPoints.leb_y
           ClosestPointsProofs.leb_y_total ClosestPointsProofs.leb_y_trans 4).
  - discriminate.
  - simpl. lia.
Defined.

(** X2 at [test_five_elements] of mergesort.py. *)
Lemma mergesort_twice :
  (Mergesort.sorted Z.leb [4; 1; 2; 5; 3] ->
   Mergesort.mergesort Z.leb 5 [4; 1; 2; 5; 3] = Return [4; 1; 2; 5; 3])
  /\ exists r, Mergesort.mergesort Z.leb 5 [4; 1; 2; 5; 3] = Return r
               /\ Mergesort.mergesort Z.leb 5 r = Return r.
Proof.
  apply (@MergesortMore.mergesort_idempotent Z Z.leb Zleb_total Zleb_trans 5).
  - discriminate.
  - simpl. lia.
Defined.

(** X5 at two operands of eleven bits, at depth 8. *)
Lemma karatsuba_eleven_bits :
  Karatsuba.karatsuba 8 1999 2001 = Return (1999 * 2001).
Proof.
  apply (@KaratsubaMore.karatsuba_logarithmic_depth 3 8 1999 2001);
    [simpl; lia | simpl; lia | lia].
Defined.

(** X6 at [test_5] of karatsuba.py. *)
Lemma split_int_bits_at_five :
  exists a b,
    Karatsuba._split_int 369 5 = Return (a, b)
    /\ (forall i, 0 <= i -> Z.testbit b i = (i <? 5) && Z.testbit 369 i)
    /\ (forall i, 0 <= i -> Z.testbit a i = Z.testbit 369 (i + 5))
    /\ (0 <= 369 -> Karatsuba.bit_length 369 <= 5 -> a = 0 /\ b = 369).
Proof.
  apply (@KaratsubaMore.split_int_bits 369 5). lia.
Defined.

(** X9 at [test_four_elements] of closestpoints.py. *)
Lemma _closest_pair_four_elements :
  exists pq ys,
    ClosestPoints._closest_pair 3 [(-4, 76); (37, -15); (59, -4); (94, 88)]
    = Return (pq, ys)
    /\ Permutation [(-4, 76); (37, -15); (59, -4); (94, 88)] ys
    /\ ClosestPoints.y_sorted ys.
Proof.
  apply (@ClosestPointsMore._closest_pair_sorts_by_y 2 3); simpl; lia.
Defined.

(** X10 at the nine points of C1, where the pair returned is not the
    closest. *)
Lemma closest_pair_nine_points :
  exists p q,
    ClosestPoints.closest_pair 5 ClosestPoints.far_apart_in_strip
    = Return (Some (p, q))
    /\ ClosestPoints.two_of ClosestPoints.far_apart_in_strip p q
    /\ ClosestPoints.dist_leb
         (ClosestPoints.brute_force ClosestPoints.far_apart_in_strip)
         (ClosestPoints.Finite (ClosestPoints.distance p q)) = true.
Proof.
  apply (@ClosestPointsMore.closest_pair_returns_two_of_the_points 4 5);
    simpl; lia.
Defined.

(** X11 at [test_seven_elements] of closestpoints.py. *)
Lemma closest_pair_seven_elements :
  exists p q,
    ClosestPoints.closest_pair 4
      [(-82, -50); (-64, -53); (-37, 8); (19, -81); (69, -29); (91, 80);
       (98, -76)]
    = Return (Some (p, q))
    /\ ClosestPoints.two_of
         [(-82, -50); (-64, -53); (-37, 8); (19, -81); (69, -29); (91, 80);
          (98, -76)] p q
    /\ (forall p' q',
           ClosestPoints.two_of
             [(-82, -50); (-64, -53); (-37, 8); (19, -81); (69, -29); (91, 80);
              (98, -76)] p' q' ->
           ClosestPoints.distance p q <= ClosestPoints.distance p' q')
    /\ ClosestPoints.brute_force
         [(-82, -50); (-64, -53); (-37, 8); (19, -81); (69, -29); (91, 80);
          (98, -76)]
       = ClosestPoints.Finite (ClosestPoints.distance p q).
Proof.
  apply (@ClosestPointsMore.closest_pair_exact_up_to_eight 4); simpl; lia.
Defined.

(** X15 at two operands of side 3. *)
Lemma strassen_side_three_shape :
  exists C,
    Strassen.strassen 3 Strassen.side_three_A Strassen.side_three_B = Return C
    /\ Strassen.is_matrix 3 3 (Strassen.cells C)
    /\ Strassen.dtype_of C = Strassen.float64.
Proof.
  apply (@StrassenMore.strassen_result_shape
           3 3 Strassen.side_three_A Strassen.side_three_B);
    [lia | reflexivity | reflexivity | reflexivity | reflexivity
    | vm_compute; lia].
Defined.

(** X16 at an operand of side 3: padded to side 4, refused at side 2, and
    left as it is at side 3. *)
Lemma pad_side_three :
  (exists P, Strassen._pad Strassen.side_three_A 4 = Return P
             /\ Strassen.is_matrix 4 4 P
             /\ forall i j, (i < 4)%nat -> (j < 4)%nat ->
                  Strassen.cell P i j
                  = if (i <? 3)%nat && (j <? 3)%nat
                    then Strassen.cell (Strassen.rows_of Strassen.side_three_A) i j
                    else 0)
  /\ Strassen._pad Strassen.side_three_A 2
     = Raise (ValueError
                "could not broadcast input array from shape (3,3) into shape (2,2)")
  /\ Strassen._pad Strassen.side_three_A 3
     = Return (Strassen.rows_of Strassen.side_three_A).
Proof.
  split; [|split].
  - apply (@StrassenMore.pad_fills_with_zeros 3 4 Strassen.side_three_A);
      [reflexivity | reflexivity | lia].
  - apply (@StrassenMore.pad_fills_with_zeros 3 2 Strassen.side_three_A);
      [reflexivity | reflexivity | lia | lia].
  - apply (@StrassenMore.pad_fills_with_zeros 3 3 Strassen.side_three_A);
      reflexivity.
Defined.

End Instances.
